(** * many-level guest: a shallow embedding of [guest.js]

    The guest side of many-level keeps two id-indexed maps (pending
    requests and live iterators), writes request frames to a
    length-prefixed encoder and dispatches the reply frames it reads.
    This development embeds [IdMap], [ManyLevelGuest] and
    [ManyLevelGuestIterator] as functions over an explicit guest state
    and proves the properties of the specification about them.

    Conventions.
    - JavaScript numbers that are ids, sequence numbers and counters are
      integers ([Z]); object references to iterators are indices into a
      heap ([nat]).
    - A JavaScript [Map] is an association list in insertion order.
    - Emitted events, invoked callbacks and similar effects are logged
      as a list of [event]s; frames handed to the encoder are appended
      to the state's [kEncode] buffer.
    - An [async] body runs atomically up to the one suspension point
      that waits for the peer: the promise awaited inside [_next].  The
      other awaits wait for values that are already computed (the
      boolean result of a stream write).  The one place where a caller
      runs on while such a body waits is the loop of [kAbortRequests]
      that closes the iterators: there the part of a close behind its
      [await] runs when the code that called [kAbortRequests] has
      returned.
    - The guest's classes extend [AbstractLevel] and
      [AbstractIterator] of abstract-level and use a [Duplex] of
      readable-stream.  What the code of the guest relies on is
      embedded with it: [close()] of an iterator runs [_close] once,
      at once or when the [next()] in flight has settled; [next()] is
      refused on a closed iterator and while a [next()] is in flight;
      [destroy()] of a stream returns the stream. *)

From Stdlib Require Import ZArith List Bool String Lia.
From Stdlib Require Import Strings.Byte.
From stdpp Require Import base list.
Import ListNotations.

Open Scope Z_scope.

(** ** IdMap *)

Module IdMap.
Section WithItem.
Context {A : Type}.

Record t := mk { _map : list (Z * A); _seq : Z }.

(** [constructor] *)
Definition empty : t := {| _map := []; _seq := 0 |}.

(** [Map.prototype.get] *)
Fixpoint map_get (id : Z) (l : list (Z * A)) : option A :=
  match l with
  | [] => None
  | (k, v) :: l' => if k =? id then Some v else map_get id l'
  end.

(** [Map.prototype.set]: an existing key keeps its position. *)
Fixpoint map_set (id : Z) (item : A) (l : list (Z * A)) : list (Z * A) :=
  match l with
  | [] => [(id, item)]
  | (k, v) :: l' =>
      if k =? id then (k, item) :: l' else (k, v) :: map_set id item l'
  end.

(** [Map.prototype.delete] *)
Fixpoint map_delete (id : Z) (l : list (Z * A)) : list (Z * A) :=
  match l with
  | [] => []
  | (k, v) :: l' => if k =? id then l' else (k, v) :: map_delete id l'
  end.

(** [get size] *)
Definition size (m : t) : Z := Z.of_nat (length (_map m)).

(** [add (item)]: returns the updated map and the allocated id. *)
Definition add (item : A) (m : t) : t * Z :=
  let s := if 0xffffffff <=? _seq m then 0 else _seq m in
  let id := s + 1 in
  ({| _map := map_set id item (_map m); _seq := id |}, id).

(** [get (id)] *)
Definition get (id : Z) (m : t) : option A := map_get id (_map m).

(** [remove (id)]: returns the removed item, if any. *)
Definition remove (id : Z) (m : t) : option A * t :=
  match map_get id (_map m) with
  | Some item => (Some item, {| _map := map_delete id (_map m); _seq := _seq m |})
  | None => (None, m)
  end.

(** [values ()] *)
Definition values (m : t) : list A := map snd (_map m).

(** [clear ()]: returns the former values. *)
Definition clear (m : t) : list A * t :=
  (values m, {| _map := []; _seq := 0 |}).

End WithItem.
Arguments t : clear implicits.
End IdMap.

(** ** Data model *)

Definition bytes := list byte.

(** Range and projection options of an iterator or a [clear]. *)
Record options := {
  o_gt : option bytes;
  o_gte : option bytes;
  o_lt : option bytes;
  o_lte : option bytes;
  o_reverse : bool;
  o_limit : Z;
  o_keys : bool;
  o_values : bool
}.

Definition set_o_keys (b : bool) (o : options) : options :=
  {| o_gt := o_gt o; o_gte := o_gte o; o_lt := o_lt o; o_lte := o_lte o;
     o_reverse := o_reverse o; o_limit := o_limit o;
     o_keys := b; o_values := o_values o |}.

(** [new ModuleError(message, { code })] *)
Record ModuleError := { message : string; code : string }.

Inductive batch_op :=
| OpPut (key value : bytes)
| OpDel (key : bytes).

(** The tag and the operation-specific fields of a request record. *)
Inductive operation :=
| Get (key : bytes)
| GetMany (keys : list bytes)
| Put (key value : bytes)
| Del (key : bytes)
| Batch (ops : list batch_op)
| Clear (opts : options).

(** A request record [{ tag, id, ..., callback }].  Every record built by
    the guest has a callback, the closure that settles the promise of the
    call; an invocation of it is logged with the record. *)
Record request := { req_id : Z; req_op : operation }.

(** [this[kRequest]] of an iterator: [{ tag: input.iterator, id, seq,
    iterator, options, consumed, bookmark, seek }]. *)
Record iterator_request := {
  it_id : Z;
  it_seq : Z;
  it_options : options;
  it_consumed : Z;
  it_bookmark : option bytes;
  it_seek : option bytes
}.

(** [this[kAckMessage]]: [{ tag: input.iteratorAck, id, seq, consumed }]. *)
Record ack_message := { ack_id : Z; ack_seq : Z; ack_consumed : Z }.

(** What [kWrite] is given: the record is encoded when it is written, so
    a written frame is a snapshot of the record. *)
Inductive frame :=
| FRequest (req : request)
| FIterator (req : iterator_request)
| FIteratorAck (ack : ack_message)
| FIteratorSeek (id seq : Z) (target : bytes)
| FIteratorClose (id : Z).

(** Decoded [iteratorData] and [iteratorError] messages; both are handed
    to [oniteratordata] and queued on the iterator. *)
Inductive iterator_res :=
| IteratorData (id seq : Z) (data : list bytes)
| IteratorError (id seq : Z) (error : string).

Definition res_id (res : iterator_res) : Z :=
  match res with IteratorData id _ _ => id | IteratorError id _ _ => id end.

Definition res_seq (res : iterator_res) : Z :=
  match res with IteratorData _ seq _ => seq | IteratorError _ seq _ => seq end.

(** A decoded output message, by tag. *)
Inductive reply :=
| Callback (id : Z) (error : string) (value : option bytes)
| IteratorFrame (res : iterator_res)
| IteratorEnd (id seq : Z)
| GetManyCallback (id : Z) (error : string) (values : list (option bytes)).

(** The promise a suspended [_next] awaits: not awaited, pending, or
    resolved with the continuation of [_next] still to run. *)
Inductive waiter := Idle | Waiting | Woken.

(** A [ManyLevelGuestIterator] together with the two records it owns.
    [limit] and [closing] are the state kept by [AbstractIterator]:
    [limit] is [options.limit] when that is a non-negative integer and
    infinite ([None]) otherwise; [closing] is set by [close()]. *)
Record iterator := {
  kEnded : bool;
  kErrored : bool;
  kPending : list iterator_res;
  kCallback : bool;
  kSeq : Z;
  kRequest : iterator_request;
  kAckMessage : ack_message;
  limit : option Z;
  closing : bool;
  awaiting : waiter
}.

Inductive callback_arg :=
| CbError (err : ModuleError)
| CbValue (value : option bytes)
| CbValues (values : list (option bytes)).

Inductive event :=
| EmitFlush
| RefCalled
| UnrefCalled
| RequestCallback (req : request) (arg : callback_arg)
| NextRejected (it : nat) (err : ModuleError)
| Destroyed (proxy : nat)
| DbClosed
| ForwardedCall (op : operation)
| ForwardedIterator (opts : options).

(** The state of a [ManyLevelGuest].  [kEncode] holds the frames written
    to the current encoder, [kRpcStream] the attached proxy (proxies are
    numbered as they are created), [kRef] and [kDb] whether a keepalive
    handle and a forwarding target are set, [heap] the iterator objects
    created so far. *)
Record guest := {
  kIterators : IdMap.t nat;
  kRequests : IdMap.t request;
  kRetry : bool;
  kEncode : list frame;
  kRpcStream : option nat;
  kCleanup : bool;
  kRef : bool;
  kDb : bool;
  kExplicitClose : bool;
  heap : list iterator;
  streams : nat
}.

(** *** Field updates *)

Definition set_kIterators (m : IdMap.t nat) (g : guest) : guest :=
  {| kIterators := m; kRequests := kRequests g; kRetry := kRetry g;
     kEncode := kEncode g; kRpcStream := kRpcStream g; kCleanup := kCleanup g;
     kRef := kRef g; kDb := kDb g; kExplicitClose := kExplicitClose g;
     heap := heap g; streams := streams g |}.

Definition set_kRequests (m : IdMap.t request) (g : guest) : guest :=
  {| kIterators := kIterators g; kRequests := m; kRetry := kRetry g;
     kEncode := kEncode g; kRpcStream := kRpcStream g; kCleanup := kCleanup g;
     kRef := kRef g; kDb := kDb g; kExplicitClose := kExplicitClose g;
     heap := heap g; streams := streams g |}.

Definition set_kEncode (fs : list frame) (g : guest) : guest :=
  {| kIterators := kIterators g; kRequests := kRequests g; kRetry := kRetry g;
     kEncode := fs; kRpcStream := kRpcStream g; kCleanup := kCleanup g;
     kRef := kRef g; kDb := kDb g; kExplicitClose := kExplicitClose g;
     heap := heap g; streams := streams g |}.

Definition set_kRpcStream (s : option nat) (g : guest) : guest :=
  {| kIterators := kIterators g; kRequests := kRequests g; kRetry := kRetry g;
     kEncode := kEncode g; kRpcStream := s; kCleanup := kCleanup g;
     kRef := kRef g; kDb := kDb g; kExplicitClose := kExplicitClose g;
     heap := heap g; streams := streams g |}.

Definition set_kCleanup (b : bool) (g : guest) : guest :=
  {| kIterators := kIterators g; kRequests := kRequests g; kRetry := kRetry g;
     kEncode := kEncode g; kRpcStream := kRpcStream g; kCleanup := b;
     kRef := kRef g; kDb := kDb g; kExplicitClose := kExplicitClose g;
     heap := heap g; streams := streams g |}.

Definition set_kRef (b : bool) (g : guest) : guest :=
  {| kIterators := kIterators g; kRequests := kRequests g; kRetry := kRetry g;
     kEncode := kEncode g; kRpcStream := kRpcStream g; kCleanup := kCleanup g;
     kRef := b; kDb := kDb g; kExplicitClose := kExplicitClose g;
     heap := heap g; streams := streams g |}.

Definition set_kDb (b : bool) (g : guest) : guest :=
  {| kIterators := kIterators g; kRequests := kRequests g; kRetry := kRetry g;
     kEncode := kEncode g; kRpcStream := kRpcStream g; kCleanup := kCleanup g;
     kRef := kRef g; kDb := b; kExplicitClose := kExplicitClose g;
     heap := heap g; streams := streams g |}.

Definition set_kExplicitClose (b : bool) (g : guest) : guest :=
  {| kIterators := kIterators g; kRequests := kRequests g; kRetry := kRetry g;
     kEncode := kEncode g; kRpcStream := kRpcStream g; kCleanup := kCleanup g;
     kRef := kRef g; kDb := kDb g; kExplicitClose := b;
     heap := heap g; streams := streams g |}.

Definition set_heap (h : list iterator) (g : guest) : guest :=
  {| kIterators := kIterators g; kRequests := kRequests g; kRetry := kRetry g;
     kEncode := kEncode g; kRpcStream := kRpcStream g; kCleanup := kCleanup g;
     kRef := kRef g; kDb := kDb g; kExplicitClose := kExplicitClose g;
     heap := h; streams := streams g |}.

Definition set_streams (n : nat) (g : guest) : guest :=
  {| kIterators := kIterators g; kRequests := kRequests g; kRetry := kRetry g;
     kEncode := kEncode g; kRpcStream := kRpcStream g; kCleanup := kCleanup g;
     kRef := kRef g; kDb := kDb g; kExplicitClose := kExplicitClose g;
     heap := heap g; streams := n |}.

Definition set_kEnded (b : bool) (o : iterator) : iterator :=
  {| kEnded := b; kErrored := kErrored o; kPending := kPending o;
     kCallback := kCallback o; kSeq := kSeq o; kRequest := kRequest o;
     kAckMessage := kAckMessage o; limit := limit o; closing := closing o;
     awaiting := awaiting o |}.

Definition set_kErrored (b : bool) (o : iterator) : iterator :=
  {| kEnded := kEnded o; kErrored := b; kPending := kPending o;
     kCallback := kCallback o; kSeq := kSeq o; kRequest := kRequest o;
     kAckMessage := kAckMessage o; limit := limit o; closing := closing o;
     awaiting := awaiting o |}.

Definition set_kPending (p : list iterator_res) (o : iterator) : iterator :=
  {| kEnded := kEnded o; kErrored := kErrored o; kPending := p;
     kCallback := kCallback o; kSeq := kSeq o; kRequest := kRequest o;
     kAckMessage := kAckMessage o; limit := limit o; closing := closing o;
     awaiting := awaiting o |}.

Definition set_kCallback (b : bool) (o : iterator) : iterator :=
  {| kEnded := kEnded o; kErrored := kErrored o; kPending := kPending o;
     kCallback := b; kSeq := kSeq o; kRequest := kRequest o;
     kAckMessage := kAckMessage o; limit := limit o; closing := closing o;
     awaiting := awaiting o |}.

Definition set_kSeq (s : Z) (o : iterator) : iterator :=
  {| kEnded := kEnded o; kErrored := kErrored o; kPending := kPending o;
     kCallback := kCallback o; kSeq := s; kRequest := kRequest o;
     kAckMessage := kAckMessage o; limit := limit o; closing := closing o;
     awaiting := awaiting o |}.

Definition set_kRequest (r : iterator_request) (o : iterator) : iterator :=
  {| kEnded := kEnded o; kErrored := kErrored o; kPending := kPending o;
     kCallback := kCallback o; kSeq := kSeq o; kRequest := r;
     kAckMessage := kAckMessage o; limit := limit o; closing := closing o;
     awaiting := awaiting o |}.

Definition set_kAckMessage (a : ack_message) (o : iterator) : iterator :=
  {| kEnded := kEnded o; kErrored := kErrored o; kPending := kPending o;
     kCallback := kCallback o; kSeq := kSeq o; kRequest := kRequest o;
     kAckMessage := a; limit := limit o; closing := closing o;
     awaiting := awaiting o |}.

Definition set_closing (b : bool) (o : iterator) : iterator :=
  {| kEnded := kEnded o; kErrored := kErrored o; kPending := kPending o;
     kCallback := kCallback o; kSeq := kSeq o; kRequest := kRequest o;
     kAckMessage := kAckMessage o; limit := limit o; closing := b;
     awaiting := awaiting o |}.

Definition set_awaiting (w : waiter) (o : iterator) : iterator :=
  {| kEnded := kEnded o; kErrored := kErrored o; kPending := kPending o;
     kCallback := kCallback o; kSeq := kSeq o; kRequest := kRequest o;
     kAckMessage := kAckMessage o; limit := limit o; closing := closing o;
     awaiting := w |}.

Definition set_it_seq (s : Z) (r : iterator_request) : iterator_request :=
  {| it_id := it_id r; it_seq := s; it_options := it_options r;
     it_consumed := it_consumed r; it_bookmark := it_bookmark r;
     it_seek := it_seek r |}.

Definition set_it_consumed (c : Z) (r : iterator_request) : iterator_request :=
  {| it_id := it_id r; it_seq := it_seq r; it_options := it_options r;
     it_consumed := c; it_bookmark := it_bookmark r; it_seek := it_seek r |}.

Definition set_it_bookmark (b : option bytes) (r : iterator_request)
  : iterator_request :=
  {| it_id := it_id r; it_seq := it_seq r; it_options := it_options r;
     it_consumed := it_consumed r; it_bookmark := b; it_seek := it_seek r |}.

Definition set_it_seek (t : option bytes) (r : iterator_request)
  : iterator_request :=
  {| it_id := it_id r; it_seq := it_seq r; it_options := it_options r;
     it_consumed := it_consumed r; it_bookmark := it_bookmark r;
     it_seek := t |}.

Definition set_ack_seq (s : Z) (a : ack_message) : ack_message :=
  {| ack_id := ack_id a; ack_seq := s; ack_consumed := ack_consumed a |}.

Definition set_ack_consumed (c : Z) (a : ack_message) : ack_message :=
  {| ack_id := ack_id a; ack_seq := ack_seq a; ack_consumed := c |}.

(** ** A state monad with an event log *)

Definition M (A : Type) : Type := guest -> A * guest * list event.

Definition ret {A} (a : A) : M A := fun g => (a, g, []).

Definition bind {A B} (m : M A) (k : A -> M B) : M B :=
  fun g =>
    let '(a, g1, e1) := m g in
    let '(b, g2, e2) := k a g1 in
    (b, g2, e1 ++ e2).

Definition get_state : M guest := fun g => (g, g, []).

Definition modify (f : guest -> guest) : M unit := fun g => (tt, f g, []).

Definition emit (e : event) : M unit := fun g => (tt, g, [e]).

Declare Scope guest_scope.
Delimit Scope guest_scope with guest.
Notation "x <- m ;; k" := (bind m (fun x => k))
  (at level 100, m at next level, k at level 200, right associativity)
  : guest_scope.
Notation "m ;; k" := (bind m (fun _ => k))
  (at level 100, k at level 200, right associativity) : guest_scope.
Open Scope guest_scope.

(** [for (const x of xs) body(x)] *)
Fixpoint for_each {A} (xs : list A) (body : A -> M unit) : M unit :=
  match xs with
  | [] => ret tt
  | x :: xs' => body x ;; for_each xs' body
  end.

Definition when (b : bool) (m : M unit) : M unit := if b then m else ret tt.

(** The results of running a computation. *)
Definition result {A} (r : A * guest * list event) : A := fst (fst r).
Definition state_after {A} (r : A * guest * list event) : guest := snd (fst r).
Definition events {A} (r : A * guest * list event) : list event := snd r.

(** Store the object of iterator [it]. *)
Definition put_it (it : nat) (o : iterator) : M unit :=
  modify (fun g => set_heap (<[it := o]> (heap g)) g).

(** ** ManyLevelGuest *)

(** Truthiness of a decoded string field: absent and empty are falsy. *)
Definition truthy (s : string) : bool := negb (String.eqb s "").

(** [normalizeValue (value)]: [null] becomes [undefined]; both are [None]. *)
Definition normalizeValue (value : option bytes) : option bytes :=
  match value with
  | None => None
  | Some v => Some v
  end.

(** [ref (r)] and [unref (r)], applied to [this[kRef]]. *)
Definition ref : M unit :=
  g <- get_state ;; when (kRef g) (emit RefCalled).

Definition unref : M unit :=
  g <- get_state ;; when (kRef g) (emit UnrefCalled).

(** [constructor (options)] *)
Definition constructor (retry : bool) : guest :=
  {| kIterators := IdMap.empty; kRequests := IdMap.empty; kRetry := retry;
     kEncode := []; kRpcStream := None; kCleanup := false; kRef := false;
     kDb := false; kExplicitClose := false; heap := []; streams := 0%nat |}.

(** [isFlushed ()] *)
Definition isFlushed (g : guest) : bool :=
  (IdMap.size (kRequests g) =? 0) && (IdMap.size (kIterators g) =? 0).

(** [[kFlushed] ()] *)
Definition kFlushed : M unit :=
  g <- get_state ;;
  if negb (isFlushed g) then ret tt
  else emit EmitFlush ;; unref.

(** [[kWrite] (req)] *)
Definition kWrite (req : frame) : M unit :=
  g <- get_state ;;
  when (IdMap.size (kRequests g) + IdMap.size (kIterators g) =? 1) ref ;;
  modify (fun g => set_kEncode (kEncode g ++ [req]) g).

(** Invoking [iterator[kCallback]]: it settles the promise awaited by
    [_next] if that promise is still pending and does nothing otherwise. *)
Definition wake_waiter (o : iterator) : iterator :=
  match awaiting o with
  | Waiting => set_awaiting Woken o
  | _ => o
  end.

Definition is_waiting (o : iterator) : bool :=
  match awaiting o with
  | Waiting => true
  | _ => false
  end.

(** [oniteratordata (res)] *)
Definition oniteratordata (res : iterator_res) : M unit :=
  g <- get_state ;;
  match IdMap.get (res_id res) (kIterators g) with
  | None => ret tt
  | Some it =>
      match heap g !! it with
      | None => ret tt
      | Some o =>
          if negb (kSeq o =? res_seq res) then ret tt
          else
            let o1 := set_kPending (kPending o ++ [res]) o in
            put_it it (if kCallback o1 then wake_waiter o1 else o1)
      end
  end.

(** [oniteratorend (res)] *)
Definition oniteratorend (id seq : Z) : M unit :=
  g <- get_state ;;
  match IdMap.get id (kIterators g) with
  | None => ret tt
  | Some it =>
      match heap g !! it with
      | None => ret tt
      | Some o =>
          if negb (kSeq o =? seq) then ret tt
          else
            let o1 := set_kEnded true o in
            put_it it (if kCallback o1 then wake_waiter o1 else o1)
      end
  end.

(** [oncallback (res)] *)
Definition oncallback (id : Z) (error : string) (value : option bytes)
  : M unit :=
  g <- get_state ;;
  let '(req, m) := IdMap.remove id (kRequests g) in
  modify (set_kRequests m) ;;
  match req with
  | None => ret tt
  | Some r =>
      if truthy error
      then emit (RequestCallback r
                   (CbError {| message := "Could not get value"; code := error |}))
      else emit (RequestCallback r (CbValue (normalizeValue value)))
  end.

(** [ongetmanycallback (res)] *)
Definition ongetmanycallback (id : Z) (error : string)
    (values : list (option bytes)) : M unit :=
  g <- get_state ;;
  let '(req, m) := IdMap.remove id (kRequests g) in
  modify (set_kRequests m) ;;
  match req with
  | None => ret tt
  | Some r =>
      if truthy error
      then emit (RequestCallback r
                   (CbError {| message := "Could not get values"; code := error |}))
      else emit (RequestCallback r (CbValues (map normalizeValue values)))
  end.

(** The [switch (tag)] of the ['data'] handler of the decoder. *)
Definition dispatch (res : reply) : M unit :=
  match res with
  | Callback id error value => oncallback id error value
  | IteratorFrame r => oniteratordata r
  | IteratorEnd id seq => oniteratorend id seq
  | GetManyCallback id error values => ongetmanycallback id error values
  end.

(** The ['data'] handler of the decoder.  [None] stands for a chunk that
    is dropped before dispatch: empty, of unknown tag, or undecodable. *)
Definition ondata (data : option reply) : M unit :=
  match data with
  | None => ret tt
  | Some res => dispatch res ;; kFlushed
  end.

(** [createRpcStream (opts)]: [inl] is the thrown [Error]. *)
Definition createRpcStream (opts_ref : bool) : M (string + nat) :=
  g <- get_state ;;
  match kRpcStream g with
  | Some _ => ret (inl "Only one rpc stream can be active"%string)
  | None =>
      let proxy := streams g in
      modify (set_kRef opts_ref) ;;
      modify (set_streams (S proxy)) ;;
      modify (set_kCleanup true) ;;
      modify (set_kRpcStream (Some proxy)) ;;
      ret (inr proxy)
  end.

(** [connect (...args)] *)
Definition connect (opts_ref : bool) : M (string + nat) :=
  createRpcStream opts_ref.

(** [forward (db)], for a [db] that supports the buffer encodings. *)
Definition forward : M unit := modify (set_kDb true).

(** Replaying one iterator record. *)
Definition write_iterator (it : nat) : M unit :=
  g <- get_state ;;
  match heap g !! it with
  | None => ret tt
  | Some o => kWrite (FIterator (kRequest o))
  end.

(** The common body of [_get], [_getMany], [_put], [_del], [_batch] and
    [_clear].  The record is stored first and receives its id after. *)
Definition request_call (op : operation) : M unit :=
  g <- get_state ;;
  if kDb g then emit (ForwardedCall op)
  else
    let req := {| req_id := 0; req_op := op |} in
    let '(m, id) := IdMap.add req (kRequests g) in
    let req := {| req_id := id; req_op := op |} in
    modify (set_kRequests
              {| IdMap._map := IdMap.map_set id req (IdMap._map m);
                 IdMap._seq := IdMap._seq m |}) ;;
    kWrite (FRequest req).

Definition _get (key : bytes) : M unit := request_call (Get key).
Definition _getMany (keys : list bytes) : M unit := request_call (GetMany keys).
Definition _put (key value : bytes) : M unit := request_call (Put key value).
Definition _del (key : bytes) : M unit := request_call (Del key).
Definition _batch (batch : list batch_op) : M unit := request_call (Batch batch).
Definition _clear (opts : options) : M unit := request_call (Clear opts).

(** ** ManyLevelGuestIterator *)

(** What a call of [_next] comes to: [undefined] (the end), an entry
    [[key, val]], a thrown [ModuleError], a thrown [TypeError] (a
    property read on [undefined]), or suspension on the awaited promise.
    [NextInvalid] answers a reference that names no iterator, or a
    resumption of a call that is not suspended.  [NextNotOpen] and
    [NextBusy] are the refusals of [AbstractIterator], which does not
    call [_next] then: the iterator has been closed
    ([LEVEL_ITERATOR_NOT_OPEN]), or a [next()] is in flight
    ([LEVEL_ITERATOR_BUSY]). *)
Inductive next_outcome :=
| NextEnd
| NextEntry (key value : option bytes)
| NextThrow (err : ModuleError)
| NextTypeError
| NextSuspended
| NextInvalid
| NextNotOpen
| NextBusy.

(** [Array.prototype.shift] *)
Definition shift {A} (l : list A) : option A * list A :=
  match l with
  | [] => (None, [])
  | x :: l' => (Some x, l')
  end.

(** [consumed >= this.limit] and [consumed < this.limit] *)
Definition reached (consumed : Z) (lim : option Z) : bool :=
  match lim with
  | Some l => l <=? consumed
  | None => false
  end.

Definition below (consumed : Z) (lim : option Z) : bool :=
  match lim with
  | Some l => consumed <? l
  | None => true
  end.

(** [AbstractIterator]'s [limit] for the given options. *)
Definition abstract_limit (o : options) : option Z :=
  if 0 <=? o_limit o then Some (o_limit o) else None.

(** The key and the value taken from the front of [next.data], and what
    is left of it. *)
Definition take_entry (o : options) (data : list bytes)
  : option bytes * option bytes * list bytes :=
  let '(key, d1) := if o_keys o then shift data else (None, data) in
  let '(val, d2) := if o_values o then shift d1 else (None, d1) in
  (key, val, d2).

Module ManyLevelGuestIterator.

(** [constructor (db, options)] without the registration in
    [db[kIterators]]: the object as built, given its id. *)
Definition new_object (retry : bool) (opts : options) (id : Z) : iterator :=
  let opts := if retry then set_o_keys true opts else opts in
  {| kEnded := false; kErrored := false; kPending := []; kCallback := false;
     kSeq := 0;
     kRequest := {| it_id := id; it_seq := 0; it_options := opts;
                    it_consumed := 0; it_bookmark := None; it_seek := None |};
     kAckMessage := {| ack_id := id; ack_seq := 0; ack_consumed := 0 |};
     limit := abstract_limit opts; closing := false; awaiting := Idle |}.

(** [constructor (db, options)]: returns the reference of the new
    iterator. *)
Definition constructor (opts : options) : M nat :=
  g <- get_state ;;
  let it := length (heap g) in
  let '(m, id) := IdMap.add it (kIterators g) in
  let o := new_object (kRetry g) opts id in
  modify (fun g => set_heap (heap g ++ [o]) g) ;;
  modify (set_kIterators m) ;;
  kWrite (FIterator (kRequest o)) ;;
  ret it.

(** The assignments of [_seek (target, options)]. *)
Definition seek_object (target : bytes) (o : iterator) : iterator :=
  let seq := kSeq o + 1 in
  set_kRequest
    (set_it_bookmark None (set_it_seek (Some target)
       (set_it_seq seq (kRequest o))))
    (set_kAckMessage (set_ack_seq seq (kAckMessage o))
       (set_kSeq seq (set_kEnded false (set_kPending [] o)))).

(** [_seek (target, options)] *)
Definition _seek (it : nat) (target : bytes) : M unit :=
  g <- get_state ;;
  match heap g !! it with
  | None => ret tt
  | Some o =>
      if kErrored o then ret tt
      else
        let o' := seek_object target o in
        put_it it o' ;;
        kWrite (FIteratorSeek (it_id (kRequest o')) (it_seq (kRequest o'))
                  target)
  end.

(** [_next ()] from [const next = this[kPending][0]] on, as a function
    of the iterator object: the updated object, the outcome and the
    acknowledgement to write, if any. *)
Definition pull (retry : bool) (o : iterator)
  : iterator * next_outcome * option ack_message :=
  match kPending o with
  | [] => (o, if kEnded o then NextEnd else NextTypeError, None)
  | next :: rest =>
      match next with
      | IteratorError _ _ error =>
          if truthy error then
            (set_kPending [] (set_kEnded true (set_kErrored true o)),
             NextThrow {| message := "Could not read entry"; code := error |},
             None)
          else
            (set_kRequest
               (set_it_consumed (it_consumed (kRequest o) + 1) (kRequest o)) o,
             NextTypeError, None)
      | IteratorData id seq data =>
          let req := kRequest o in
          let consumed := it_consumed req + 1 in
          let '(key, val, data') := take_entry (it_options req) data in
          let req := set_it_consumed consumed req in
          let req := set_it_seek None req in
          let req := if retry then set_it_bookmark key req else req in
          match data' with
          | [] =>
              if below consumed (limit o) then
                let ack := set_ack_consumed consumed (kAckMessage o) in
                (set_kAckMessage ack (set_kRequest req (set_kPending rest o)),
                 NextEntry key val, Some ack)
              else
                (set_kRequest req (set_kPending rest o),
                 NextEntry key val, None)
          | _ :: _ =>
              (set_kRequest req
                 (set_kPending (IteratorData id seq data' :: rest) o),
               NextEntry key val, None)
          end
      end
  end.

(** The continuation of [_next ()] after the check for pending data. *)
Definition next_body (it : nat) : M next_outcome :=
  g <- get_state ;;
  match heap g !! it with
  | None => ret NextInvalid
  | Some o =>
      let '(o', outcome, ack) := pull (kRetry g) o in
      put_it it o' ;;
      match ack with
      | Some a => kWrite (FIteratorAck a)
      | None => ret tt
      end ;;
      ret outcome
  end.

(** [_next ()], up to the point where it returns or suspends. *)
Definition _next (it : nat) : M next_outcome :=
  g <- get_state ;;
  match heap g !! it with
  | None => ret NextInvalid
  | Some o =>
      if reached (it_consumed (kRequest o)) (limit o) || kErrored o
      then ret NextEnd
      else if kEnded o && (length (kPending o) =? 0)%nat
      then ret NextEnd
      else if (length (kPending o) =? 0)%nat
      then
        put_it it (set_awaiting Waiting (set_kCallback true o)) ;;
        ret NextSuspended
      else next_body it
  end.

(** [_next ()] resumed once its promise has been resolved. *)
Definition next_resume (it : nat) : M next_outcome :=
  g <- get_state ;;
  match heap g !! it with
  | None => ret NextInvalid
  | Some o =>
      match awaiting o with
      | Woken => put_it it (set_awaiting Idle o) ;; next_body it
      | Waiting => ret NextSuspended
      | Idle => ret NextInvalid
      end
  end.

(** [_close ()] *)
Definition _close (it : nat) : M unit :=
  g <- get_state ;;
  match heap g !! it with
  | None => ret tt
  | Some o =>
      kWrite (FIteratorClose (it_id (kRequest o))) ;;
      g <- get_state ;;
      modify (set_kIterators
                (snd (IdMap.remove (it_id (kRequest o)) (kIterators g)))) ;;
      kFlushed
  end.

End ManyLevelGuestIterator.

(** [iterator (options)] and [_iterator (options)] of the guest. *)
Definition iterator_method (opts : options) : M (option nat) :=
  g <- get_state ;;
  if kDb g then emit (ForwardedIterator opts) ;; ret None
  else it <- ManyLevelGuestIterator.constructor opts ;; ret (Some it).

(** ** AbstractIterator *)

(** The public methods of an iterator, as [AbstractIterator] wraps the
    private ones.  [closing] records that [close()] has been called. *)

(** [next ()]: refused on an iterator that has been closed and while a
    [next()] is in flight; otherwise [_next] is called. *)
Definition guarded_next (it : nat) : M next_outcome :=
  g <- get_state ;;
  match heap g !! it with
  | None => ret NextInvalid
  | Some o =>
      if closing o then ret NextNotOpen
      else
        match awaiting o with
        | Idle => ManyLevelGuestIterator._next it
        | _ => ret NextBusy
        end
  end.

(** The end of a [next()] that was in flight: a [close()] that has been
    waiting for it runs [_close] now. *)
Definition end_work (it : nat) : M unit :=
  g <- get_state ;;
  match heap g !! it with
  | None => ret tt
  | Some o => when (closing o) (ManyLevelGuestIterator._close it)
  end.

(** The continuation of a [next()] whose promise has been resolved: the
    rest of [_next], then the end of the call. *)
Definition resumed_next (it : nat) : M next_outcome :=
  g <- get_state ;;
  match heap g !! it with
  | None => ret NextInvalid
  | Some o =>
      match awaiting o with
      | Woken =>
          r <- ManyLevelGuestIterator.next_resume it ;;
          end_work it ;;
          ret r
      | _ => ManyLevelGuestIterator.next_resume it
      end
  end.

(** [close ()]: the first call marks the iterator and runs [_close], at
    once when no [next()] is in flight and at the end of that call
    otherwise; later calls run nothing. *)
Definition iterator_close (it : nat) : M unit :=
  g <- get_state ;;
  match heap g !! it with
  | None => ret tt
  | Some o =>
      if closing o then ret tt
      else
        put_it it (set_closing true o) ;;
        match awaiting o with
        | Idle => ManyLevelGuestIterator._close it
        | _ => ret tt
        end
  end.

(** ** ManyLevelGuest: abort, transport finish and close *)

(** [req.iterator.close (noop)] in the second loop of [kAbortRequests]
    returns at the first [await] of the close it starts, and the loop
    goes on; what is left of the close runs when the code that called
    [kAbortRequests] has returned.  [CloseRest it]: [_close] has written
    its frame, and its lines behind the [await] are left.  [CloseLater
    it]: the [next()] in flight has been rejected and has yet to run to
    its end, where its close starts. *)
Inductive pending_close :=
| CloseRest (it : nat)
| CloseLater (it : nat).

(** The lines of an iterator's [_close] behind its [await]. *)
Definition close_rest (it : nat) : M unit :=
  g <- get_state ;;
  match heap g !! it with
  | None => ret tt
  | Some o =>
      modify (set_kIterators
                (snd (IdMap.remove (it_id (kRequest o)) (kIterators g)))) ;;
      kFlushed
  end.

Definition run_pending (p : pending_close) : M unit :=
  match p with
  | CloseRest it => close_rest it
  | CloseLater it => ManyLevelGuestIterator._close it
  end.

(** [for (const x of xs) body(x)], gathering what the bodies leave
    pending. *)
Fixpoint collect {A B} (xs : list A) (body : A -> M (list B)) : M (list B) :=
  match xs with
  | [] => ret []
  | x :: xs' => ys <- body x ;; zs <- collect xs' body ;; ret (ys ++ zs)
  end.

(** The body of the second loop of [kAbortRequests], for one record: the
    callback is taken and cleared, and a promise that is still pending
    is rejected through it; then [req.iterator.close (noop)] marks the
    iterator as closed, unless it was already, and starts [_close]
    unless a [next()] is in flight: the one just rejected, or one whose
    promise has been resolved and that has yet to run on. *)
Definition abort_iterator (err : ModuleError) (it : nat)
  : M (list pending_close) :=
  g <- get_state ;;
  match heap g !! it with
  | None => ret []
  | Some o =>
      if kCallback o && is_waiting o then
        put_it it (set_closing true
                     (set_awaiting Idle (set_kCallback false o))) ;;
        emit (NextRejected it err) ;;
        ret [CloseLater it]
      else if closing o then
        put_it it (set_kCallback false o) ;;
        ret []
      else
        put_it it (set_closing true (set_kCallback false o)) ;;
        match awaiting o with
        | Idle =>
            kWrite (FIteratorClose (it_id (kRequest o))) ;;
            ret [CloseRest it]
        | _ => ret []
        end
  end.

(** [[kAbortRequests] (msg, code)]; the result is what the closes of the
    second loop have left pending. *)
Definition kAbortRequests (msg code : string) : M (list pending_close) :=
  let err := {| message := msg; code := code |} in
  g <- get_state ;;
  let '(reqs, m) := IdMap.clear (kRequests g) in
  modify (set_kRequests m) ;;
  for_each reqs (fun req => emit (RequestCallback req (CbError err))) ;;
  g <- get_state ;;
  let '(its, m) := IdMap.clear (kIterators g) in
  modify (set_kIterators m) ;;
  collect its (abort_iterator err).

(** The body of [self[kCleanup]], from the point where [finished (proxy)]
    has settled, followed by the closes that its abort has left
    pending. *)
Definition cleanup : M unit :=
  modify (set_kRpcStream None) ;;
  modify (set_kEncode []) ;;
  g <- get_state ;;
  if negb (kRetry g) then
    pending <- kAbortRequests "Connection to leader lost"
                 "LEVEL_CONNECTION_LOST" ;;
    kFlushed ;;
    for_each pending run_pending
  else
    for_each (IdMap.values (kRequests g)) (fun req => kWrite (FRequest req)) ;;
    g <- get_state ;;
    for_each (IdMap.values (kIterators g)) write_iterator.

(** What an operation of the guest can throw: a [ModuleError], a plain
    [Error] with its message, or a [TypeError]. *)
Inductive thrown :=
| ThrowModule (err : ModuleError)
| ThrowError (msg : string)
| ThrowTypeError.

(** [_close ()], followed by the closes that its abort has left
    pending.  With a stream attached, line 359 calls [destroy()] on it
    and then [catch] on what [destroy()] returns, which is the stream
    and not a promise: a [TypeError] is thrown there, after the stream
    has been destroyed, and the rest of the body does not run.  The
    transport finish that the destruction brings about runs the cleanup
    as a step of its own. *)
Definition _close : M (thrown + unit) :=
  modify (set_kExplicitClose true) ;;
  pending <- kAbortRequests "Aborted on database close()"
               "LEVEL_DATABASE_NOT_OPEN" ;;
  g <- get_state ;;
  match kRpcStream g with
  | Some proxy =>
      emit (Destroyed proxy) ;;
      for_each pending run_pending ;;
      ret (inl ThrowTypeError)
  | None =>
      when (kDb g) (emit DbClosed) ;;
      for_each pending run_pending ;;
      ret (inr tt)
  end.

(** ** The guest as a machine *)

(** What can happen to a guest: a chunk arrives from the decoder, the
    transport finishes, the caller invokes a method, or a [next()] whose
    promise has been resolved runs on. *)
Inductive action :=
| AData (data : option reply)
| ACreateRpcStream (opts_ref : bool)
| AFinish
| ACall (op : operation)
| AForward
| AClose
| AIterator (opts : options)
| ASeek (it : nat) (target : bytes)
| ANext (it : nat)
| AResume (it : nat)
| AIteratorClose (it : nat).

Definition discard {A} (m : M A) : M unit := _ <- m ;; ret tt.

Definition exec (a : action) : M unit :=
  match a with
  | AData data => ondata data
  | ACreateRpcStream opts_ref => discard (createRpcStream opts_ref)
  | AFinish =>
      g <- get_state ;;
      match kRpcStream g with
      | Some _ => cleanup
      | None => ret tt
      end
  | ACall op => request_call op
  | AForward => forward
  | AClose => discard _close
  | AIterator opts => discard (iterator_method opts)
  | ASeek it target => ManyLevelGuestIterator._seek it target
  | ANext it => discard (guarded_next it)
  | AResume it => discard (resumed_next it)
  | AIteratorClose it => iterator_close it
  end.

Definition run (tr : list action) (g : guest) : guest :=
  fold_left (fun g a => state_after (exec a g)) tr g.

(** The states a guest can be in. *)
Definition reachable (g : guest) : Prop :=
  exists retry tr, g = run tr (constructor retry).

(** ** Vocabulary of the properties *)

(** Number of ['flush'] events in a log. *)
Definition is_flush (e : event) : bool :=
  match e with EmitFlush => true | _ => false end.

Definition flushes (evs : list event) : nat := length (filter is_flush evs).


(** The log of one check of the flushed condition. *)
Definition flush_log (g : guest) : list event :=
  if isFlushed g
  then EmitFlush :: (if kRef g then [UnrefCalled] else [])
  else [].

(** The log of one [kWrite]: the keepalive handle is referenced when
    exactly one record is in flight. *)
Definition ref_log (g : guest) : list event :=
  if IdMap.size (kRequests g) + IdMap.size (kIterators g) =? 1
  then (if kRef g then [RefCalled] else [])
  else [].

(** The frames that replay the iterator records [its] of heap [h]. *)
Definition iterator_frames (h : list iterator) (its : list nat) : list frame :=
  flat_map (fun it => match h !! it with
                      | Some o => [FIterator (kRequest o)]
                      | None => []
                      end) its.

(** The reply addresses no record of the map it is looked up in. *)
Definition unknown_id (res : reply) (g : guest) : Prop :=
  match res with
  | Callback id _ _ => IdMap.get id (kRequests g) = None
  | GetManyCallback id _ _ => IdMap.get id (kRequests g) = None
  | IteratorFrame r => IdMap.get (res_id r) (kIterators g) = None
  | IteratorEnd id _ => IdMap.get id (kIterators g) = None
  end.

(** What the second loop of [kAbortRequests] leaves of an iterator
    object: no callback, no pending promise, and closed. *)
Definition abort_object (o : iterator) : iterator :=
  set_closing true
    (set_awaiting (if kCallback o && is_waiting o then Idle else awaiting o)
       (set_kCallback false o)).

Definition is_idle (o : iterator) : bool :=
  match awaiting o with
  | Idle => true
  | _ => false
  end.

(** The heap that the second loop of [kAbortRequests] leaves behind, as
    a function of the records it visits. *)
Definition abort_at (h : list iterator) (it : nat) : list iterator :=
  match h !! it with
  | Some o => <[it := abort_object o]> h
  | None => h
  end.

Definition abort_heap (its : list nat) (h : list iterator) : list iterator :=
  fold_left abort_at its h.

(** The rejections that the loop logs, the closes it leaves pending,
    the frames it writes itself (those of the iterators that were idle
    and not closed), and the frames that the closes it has put off
    write later (those of the iterators whose [next()] it has
    rejected). *)
Fixpoint abort_log (err : ModuleError) (its : list nat) (h : list iterator)
  : list event :=
  match its with
  | [] => []
  | it :: its' =>
      match h !! it with
      | Some o =>
          if kCallback o && is_waiting o then [NextRejected it err] else []
      | None => []
      end ++ abort_log err its' (abort_at h it)
  end.

Fixpoint abort_pending (its : list nat) (h : list iterator)
  : list pending_close :=
  match its with
  | [] => []
  | it :: its' =>
      match h !! it with
      | Some o =>
          if kCallback o && is_waiting o then [CloseLater it]
          else if negb (closing o) && is_idle o then [CloseRest it]
          else []
      | None => []
      end ++ abort_pending its' (abort_at h it)
  end.

Fixpoint abort_sync_frames (its : list nat) (h : list iterator) : list frame :=
  match its with
  | [] => []
  | it :: its' =>
      match h !! it with
      | Some o =>
          if kCallback o && is_waiting o then []
          else if negb (closing o) && is_idle o
               then [FIteratorClose (it_id (kRequest o))]
               else []
      | None => []
      end ++ abort_sync_frames its' (abort_at h it)
  end.

Fixpoint abort_late_frames (its : list nat) (h : list iterator) : list frame :=
  match its with
  | [] => []
  | it :: its' =>
      match h !! it with
      | Some o =>
          if kCallback o && is_waiting o
          then [FIteratorClose (it_id (kRequest o))]
          else []
      | None => []
      end ++ abort_late_frames its' (abort_at h it)
  end.

(** All the frames that an abort brings about, in the order in which
    they are written. *)
Definition abort_frames (its : list nat) (h : list iterator) : list frame :=
  abort_sync_frames its h ++ abort_late_frames its h.

(** The log of a check of the flushed condition that finds both maps
    empty, and of [n] such checks. *)
Definition flush_block (kref : bool) : list event :=
  EmitFlush :: (if kref then [UnrefCalled] else []).

Fixpoint flush_blocks (kref : bool) (n : nat) : list event :=
  match n with
  | O => []
  | S n' => flush_block kref ++ flush_blocks kref n'
  end.

(** "Every pending iterator is failed with [code]" by a step [m] that
    aborts: every iterator of the iterators map has a [next()] rejected
    by the step with an error of that code, or meets an error of that
    code at its next [next()]. *)
Definition fails_every_iterator (m : M unit) (code : string) (g : guest)
  : Prop :=
  forall id it,
    IdMap.get id (kIterators g) = Some it ->
    exists msg,
      In (NextRejected it {| message := msg; code := code |}) (events (m g)) \/
      result (guarded_next it (state_after (m g)))
      = NextThrow {| message := msg; code := code |}.

(** "Every entry pulled by [next()] carries a key that is recorded as
    the iterator's bookmark", on a guest with retry. *)
Definition every_entry_has_key : Prop :=
  forall g it key value,
    reachable g ->
    kRetry g = true ->
    result (guarded_next it g) = NextEntry key value ->
    exists k, key = Some k /\
      exists o', heap (state_after (guarded_next it g)) !! it = Some o' /\
                 it_bookmark (kRequest o') = Some k.

(** What holds of every iterator object of a guest with retry flag
    [retry]: queued frames carry the current seq, a pending promise has
    its callback installed, an errored iterator awaits nothing, and the
    two records agree with the handle. *)
Record object_ok (retry : bool) (o : iterator) : Prop := {
  ok_pending : Forall (fun res => res_seq res = kSeq o) (kPending o);
  ok_waiting : awaiting o = Waiting -> kCallback o = true;
  ok_errored : kErrored o = true -> awaiting o = Idle;
  ok_req_seq : it_seq (kRequest o) = kSeq o;
  ok_ack_seq : ack_seq (kAckMessage o) = kSeq o;
  ok_ack_id : ack_id (kAckMessage o) = it_id (kRequest o);
  ok_keys : retry = true -> o_keys (it_options (kRequest o)) = true;
  ok_limit : limit o = abstract_limit (it_options (kRequest o))
}.

(** The invariant of the guest: every object of the heap is well formed
    and every record of the iterators map refers into the heap. *)
Definition ok_parts (retry : bool) (h : list iterator) (m : IdMap.t nat)
  : Prop :=
  Forall (object_ok retry) h /\
  Forall (fun p => (snd p < length h)%nat) (IdMap._map m).

Definition guest_ok (g : guest) : Prop :=
  ok_parts (kRetry g) (heap g) (kIterators g).

(** From [g] to [g'] every iterator persists, its seq does not decrease
    and an error is not forgotten. *)
Definition advances (g g' : guest) : Prop :=
  kRetry g' = kRetry g /\
  forall it o, heap g !! it = Some o ->
    exists o', heap g' !! it = Some o' /\
               kSeq o <= kSeq o' /\
               (kErrored o = true -> kErrored o' = true).

(** One step of the guest keeps the invariant and advances the state. *)
Definition step_ok (g g' : guest) : Prop :=
  (guest_ok g -> guest_ok g') /\ advances g g'.

(** A computation all of whose runs are such steps. *)
Definition steps {A} (m : M A) : Prop :=
  forall g, step_ok g (state_after (m g)).

(** Options of an unbounded scan over keys and values, and the same
    scan limited to [n] entries. *)
Definition scan : options :=
  {| o_gt := None; o_gte := None; o_lt := None; o_lte := None;
     o_reverse := false; o_limit := -1; o_keys := true; o_values := true |}.

Definition scan_limit (n : Z) : options :=
  {| o_gt := None; o_gte := None; o_lt := None; o_lte := None;
     o_reverse := false; o_limit := n; o_keys := true; o_values := true |}.

(** ** Further operations *)

(** [_open (options)].  [remote] tells whether the guest was constructed
    with a [_remote] factory (a test facility); the pipeline it starts
    runs outside the guest and is not part of the state. *)
Definition _open (remote : bool) : M (thrown + unit) :=
  g <- get_state ;;
  if remote then
    modify (set_kExplicitClose false) ;;
    r <- createRpcStream false ;;
    match r with
    | inl msg => ret (inl (ThrowError msg))
    | inr _ => ret (inr tt)
    end
  else if kExplicitClose g then
    ret (inl (ThrowModule
                {| message := "Cannot reopen many-level database after close()";
                   code := "LEVEL_NOT_SUPPORTED" |}))
  else ret (inr tt).

(** The database handed to [forward]: the names of the encodings that
    its [keyEncoding ('buffer')] and [valueEncoding ('buffer')] return. *)
Record database := { keyEncoding : string; valueEncoding : string }.

(** [forward (db)], with its check of the two encodings in order. *)
Definition forward_db (db : database) : M (thrown + unit) :=
  if negb (String.eqb (keyEncoding db) "buffer") then
    ret (inl (ThrowModule
                {| message := "Database must support non-transcoded 'buffer' keyEncoding";
                   code := "LEVEL_ENCODING_NOT_SUPPORTED" |}))
  else if negb (String.eqb (valueEncoding db) "buffer") then
    ret (inl (ThrowModule
                {| message := "Database must support non-transcoded 'buffer' valueEncoding";
                   code := "LEVEL_ENCODING_NOT_SUPPORTED" |}))
  else forward ;; ret (inr tt).

(** The keys of a map are pairwise distinct, as those of a [Map] are. *)
Definition keys_unique {A} (m : IdMap.t A) : Prop :=
  List.NoDup (map fst (IdMap._map m)).


(** What holds of every iterator object besides [object_ok]: the counts
    are not negative, [consumed] does not pass a finite limit, and a
    [_next] that is suspended or about to resume still has room below
    the limit. *)
Record object_sound (o : iterator) : Prop := {
  snd_consumed : 0 <= it_consumed (kRequest o);
  snd_seq : 0 <= kSeq o;
  snd_limit : forall l, limit o = Some l -> it_consumed (kRequest o) <= l;
  snd_busy : forall l, limit o = Some l -> awaiting o <> Idle ->
                       it_consumed (kRequest o) < l
}.

(** What holds of the two maps of a guest: keys are distinct and lie in
    [1, 2^32-1], the counters lie in [0, 2^32-1], a request record
    carries the id it is stored under, and an iterator record refers to
    an object whose request carries the id it is stored under. *)
Record sound (g : guest) : Prop := {
  snd_heap : Forall object_sound (heap g);
  snd_req_keys : keys_unique (kRequests g);
  snd_it_keys : keys_unique (kIterators g);
  snd_req_seq : 0 <= IdMap._seq (kRequests g) <= 0xffffffff;
  snd_it_seq : 0 <= IdMap._seq (kIterators g) <= 0xffffffff;
  snd_req_ids : forall id r, In (id, r) (IdMap._map (kRequests g)) ->
                             req_id r = id /\ 1 <= id <= 0xffffffff;
  snd_it_ids : forall id it, In (id, it) (IdMap._map (kIterators g)) ->
                             1 <= id <= 0xffffffff /\
                             exists o, heap g !! it = Some o /\
                                       it_id (kRequest o) = id
}.

(** From [g] to [g'] every iterator keeps its id, its options and its
    limit, and its [consumed] count does not decrease. *)
Definition grows (g g' : guest) : Prop :=
  forall it o, heap g !! it = Some o ->
    exists o', heap g' !! it = Some o' /\
               it_id (kRequest o') = it_id (kRequest o) /\
               it_options (kRequest o') = it_options (kRequest o) /\
               limit o' = limit o /\
               it_consumed (kRequest o) <= it_consumed (kRequest o').

(** A step from a sound state. *)
Definition step2 (g g' : guest) : Prop := sound g -> sound g' /\ grows g g'.

Definition keeps {A} (m : M A) : Prop :=
  forall g, step2 g (state_after (m g)).


(** Calling [_next] [n] times in a row: the outcomes, in order. *)
Fixpoint next_many (n : nat) (it : nat) : M (list next_outcome) :=
  match n with
  | O => ret []
  | S n' =>
      r <- ManyLevelGuestIterator._next it ;;
      rs <- next_many n' it ;;
      ret (r :: rs)
  end.

(** The entries that a flat sequence of fields holds for an iterator
    with options [o]: pairs of a key and a value, or single keys, or
    single values. *)
Fixpoint entries_of (o : options) (data : list bytes) : list next_outcome :=
  match data with
  | [] => []
  | x :: rest =>
      if o_keys o then
        if o_values o then
          match rest with
          | y :: rest' => NextEntry (Some x) (Some y) :: entries_of o rest'
          | [] => [NextEntry (Some x) None]
          end
        else NextEntry (Some x) None :: entries_of o rest
      else if o_values o then NextEntry None (Some x) :: entries_of o rest
      else []
  end.

(** A frame of whole entries: not empty, and of even length when both
    keys and values are sent. *)
Definition whole (o : options) (d : list bytes) : Prop :=
  d <> [] /\ (o_keys o && o_values o = true -> Nat.even (length d) = true).

(** * Properties *)

(** ** Basic facts *)

(** Unfold the monad's operations wherever they are exposed. *)
Ltac monad_unfold :=
  repeat (progress (unfold bind, get_state, modify, emit, ret, when, put_it,
                      discard, result, state_after, events in *; simpl in * )).

(** How the results of a sequence decompose. *)
Lemma state_after_bind {A B} (m : M A) (k : A -> M B) g :
  state_after (bind m k g) = state_after (k (result (m g)) (state_after (m g))).
Proof.
  unfold bind, state_after, result.
  destruct (m g) as [[a g1] e1]. simpl. now destruct (k a g1) as [[b g2] e2].
Qed.

Lemma bind_get_state {A} (k : guest -> M A) g : bind get_state k g = k g g.
Proof. unfold bind, get_state. now destruct (k g g) as [[a g1] e1]. Qed.

Lemma result_bind {A B} (m : M A) (k : A -> M B) g :
  result (bind m k g) = result (k (result (m g)) (state_after (m g))).
Proof.
  unfold bind, state_after, result.
  destruct (m g) as [[a g1] e1]. simpl. now destruct (k a g1) as [[b g2] e2].
Qed.

Lemma events_bind {A B} (m : M A) (k : A -> M B) g :
  events (bind m k g)
  = events (m g) ++ events (k (result (m g)) (state_after (m g))).
Proof.
  unfold bind, state_after, result, events.
  destruct (m g) as [[a g1] e1]. simpl. now destruct (k a g1) as [[b g2] e2].
Qed.

Lemma map_get_set_eq {A} id (item : A) l :
  IdMap.map_get id (IdMap.map_set id item l) = Some item.
Proof.
  induction l as [|[k v] l IH]; simpl.
  - now rewrite Z.eqb_refl.
  - destruct (k =? id) eqn:E; simpl; rewrite E; [reflexivity | exact IH].
Qed.

Lemma map_get_In {A} id (v : A) l :
  IdMap.map_get id l = Some v -> In (id, v) l.
Proof.
  induction l as [|[k w] l IH]; simpl; [discriminate|].
  destruct (k =? id) eqn:E.
  - intros [= ->]. apply Z.eqb_eq in E. subst. now left.
  - intros H. right. auto.
Qed.

Lemma set_kRequests_same g : set_kRequests (kRequests g) g = g.
Proof. now destruct g. Qed.

Lemma set_kIterators_same g : set_kIterators (kIterators g) g = g.
Proof. now destruct g. Qed.

Lemma remove_unknown {A} id (m : IdMap.t A) :
  IdMap.get id m = None -> IdMap.remove id m = (None, m).
Proof. unfold IdMap.get, IdMap.remove. now intros ->. Qed.

Lemma kFlushed_spec g : kFlushed g = (tt, g, flush_log g).
Proof.
  unfold kFlushed, unref, flush_log. monad_unfold.
  destruct (isFlushed g); simpl; [|reflexivity].
  destruct (kRef g); reflexivity.
Qed.

(** ** Attachment *)

(** C9: while an rpc stream is attached, [createRpcStream] and its alias
    [connect] throw "Only one rpc stream can be active" and change
    nothing: the attached stream stays attached. *)
Theorem second_attachment_rejected (g : guest) (proxy : nat) (opts_ref : bool) :
  kRpcStream g = Some proxy ->
  createRpcStream opts_ref g
    = (inl "Only one rpc stream can be active"%string, g, []) /\
  connect opts_ref g
    = (inl "Only one rpc stream can be active"%string, g, []) /\
  kRpcStream (state_after (createRpcStream opts_ref g)) = Some proxy.
Proof.
  intros H. unfold connect, createRpcStream, bind, get_state, state_after.
  rewrite H. simpl. auto.
Qed.

Lemma second_attachment_rejected_witness :
  let g := state_after (createRpcStream false (constructor false)) in
  kRpcStream g = Some 0%nat /\
  createRpcStream true g
    = (inl "Only one rpc stream can be active"%string, g, []) /\
  connect true g
    = (inl "Only one rpc stream can be active"%string, g, []) /\
  kRpcStream (state_after (createRpcStream true g)) = Some 0%nat.
Proof.
  split; [reflexivity|].
  apply (second_attachment_rejected
           (state_after (createRpcStream false (constructor false))) 0 true).
  reflexivity.
Defined.

(** ** Replies to unknown ids *)

(** C6 (amended): a reply whose id has no record is dispatched to a
    handler that returns at once: the guest state is as it was, no
    request or iterator callback is invoked and nothing is raised.  The
    only effect of processing the frame is the check of the flushed
    condition that follows every dispatched frame, which emits ['flush']
    (and unrefs the keepalive handle) when both maps are empty. *)
Theorem unknown_reply_only_rechecks (g : guest) (res : reply) :
  unknown_id res g ->
  dispatch res g = (tt, g, []) /\
  ondata (Some res) g = (tt, g, flush_log g).
Proof.
  intros H.
  assert (dispatch res g = (tt, g, [])) as Hd.
  { destruct res as [id error value | r | id seq | id error values];
      simpl in H; simpl.
    - unfold oncallback. rewrite bind_get_state, (remove_unknown _ _ H).
      unfold bind, modify, ret. simpl. now rewrite set_kRequests_same.
    - unfold oniteratordata. now rewrite bind_get_state, H.
    - unfold oniteratorend. now rewrite bind_get_state, H.
    - unfold ongetmanycallback. rewrite bind_get_state, (remove_unknown _ _ H).
      unfold bind, modify, ret. simpl. now rewrite set_kRequests_same. }
  split; [exact Hd|].
  unfold ondata, bind. rewrite Hd, kFlushed_spec. reflexivity.
Qed.

Lemma unknown_reply_only_rechecks_witness :
  let g := state_after (_get [x61] (constructor false)) in
  dispatch (Callback 7 "" None) g = (tt, g, []) /\
  ondata (Some (Callback 7 "" None)) g = (tt, g, []).
Proof.
  apply (unknown_reply_only_rechecks
           (state_after (_get [x61] (constructor false)))
           (Callback 7 "" None)).
  reflexivity.
Defined.

(** C6 (as stated, refuted): on a guest with nothing in flight, a reply
    to an unknown id is not a no-op: ['flush'] is emitted. *)
Lemma unknown_reply_not_noop :
  unknown_id (Callback 7 "" None) (constructor false) /\
  events (ondata (Some (Callback 7 "" None)) (constructor false))
    = [EmitFlush] /\
  ondata (Some (Callback 7 "" None)) (constructor false)
    <> (tt, constructor false, []).
Proof.
  split; [reflexivity|]. split; [reflexivity|].
  intros H. apply (f_equal events) in H. vm_compute in H. discriminate.
Qed.

(** ** Aborting what is in flight *)

Lemma set_heap_same g : set_heap (heap g) g = g.
Proof. now destruct g. Qed.

Lemma set_kEncode_same g : set_kEncode (kEncode g) g = g.
Proof. now destruct g. Qed.

Lemma for_each_emit {A} (f : A -> event) xs g :
  for_each xs (fun x => emit (f x)) g = (tt, g, map f xs).
Proof.
  induction xs as [|x xs IH]; simpl; [reflexivity|].
  unfold bind. simpl. rewrite IH. reflexivity.
Qed.

Lemma for_each_app {A} (xs ys : list A) body g :
  for_each (xs ++ ys) body g
  = bind (for_each xs body) (fun _ => for_each ys body) g.
Proof.
  revert g. induction xs as [|x xs IH]; intros g; simpl.
  - unfold bind, ret. now destruct (for_each ys body g) as [[u g1] e1].
  - unfold bind. destruct (body x g) as [[u g1] e1]. rewrite IH.
    unfold bind. destruct (for_each xs body g1) as [[u2 g2] e2].
    destruct (for_each ys body g2) as [[u3 g3] e3].
    now rewrite app_assoc.
Qed.

Lemma kWrite_spec req g :
  kWrite req g = (tt, set_kEncode (kEncode g ++ [req]) g, ref_log g).
Proof.
  unfold kWrite, ref, ref_log. monad_unfold.
  destruct (_ =? 1); simpl; [|reflexivity].
  destruct (kRef g); reflexivity.
Qed.

Lemma put_it_lookup it o o' g :
  heap g !! it = Some o ->
  heap (state_after (put_it it o' g)) !! it = Some o'.
Proof.
  intros Ho. unfold put_it, modify, state_after. simpl.
  apply list_lookup_insert_eq. eapply lookup_lt_Some; eauto.
Qed.

Lemma iterator_close_spec it o g :
  heap g !! it = Some o ->
  let g' := set_kIterators
              (snd (IdMap.remove (it_id (kRequest o)) (kIterators g)))
              (set_kEncode (kEncode g ++ [FIteratorClose (it_id (kRequest o))])
                 g) in
  ManyLevelGuestIterator._close it g = (tt, g', ref_log g ++ flush_log g').
Proof.
  intros H. unfold ManyLevelGuestIterator._close, bind, get_state, modify.
  rewrite H, kWrite_spec. simpl. rewrite kFlushed_spec. reflexivity.
Qed.

(** The log of a check of the flushed condition that finds both maps
    empty. *)
Lemma flush_log_cleared g :
  IdMap._map (kRequests g) = [] -> IdMap._map (kIterators g) = [] ->
  isFlushed g = true /\
  ref_log g = [] /\
  flush_log g = flush_block (kRef g).
Proof.
  intros Hq Hi. unfold flush_log, flush_block, ref_log, isFlushed, IdMap.size.
  rewrite Hq, Hi. simpl. auto.
Qed.

(** [_close] of an iterator, and its lines behind the [await], on a
    guest whose maps have been cleared: ['flush'] is emitted. *)
Lemma iterator_close_cleared it o g :
  heap g !! it = Some o ->
  IdMap._map (kRequests g) = [] -> IdMap._map (kIterators g) = [] ->
  ManyLevelGuestIterator._close it g
  = (tt, set_kEncode (kEncode g ++ [FIteratorClose (it_id (kRequest o))]) g,
     flush_block (kRef g)).
Proof.
  intros Ho Hq Hi. rewrite (iterator_close_spec _ _ _ Ho). cbv zeta.
  assert (snd (IdMap.remove (it_id (kRequest o)) (kIterators g)) = kIterators g)
    as -> by (unfold IdMap.remove; now rewrite Hi).
  assert (set_kIterators (kIterators g)
            (set_kEncode (kEncode g ++ [FIteratorClose (it_id (kRequest o))]) g)
          = set_kEncode (kEncode g ++ [FIteratorClose (it_id (kRequest o))]) g)
    as -> by now destruct g.
  destruct (flush_log_cleared g Hq Hi) as (_ & -> & _).
  destruct (flush_log_cleared
              (set_kEncode (kEncode g ++ [FIteratorClose (it_id (kRequest o))]) g)
              Hq Hi) as (_ & _ & ->).
  reflexivity.
Qed.

Lemma close_rest_cleared it o g :
  heap g !! it = Some o ->
  IdMap._map (kRequests g) = [] -> IdMap._map (kIterators g) = [] ->
  close_rest it g = (tt, g, flush_block (kRef g)).
Proof.
  intros Ho Hq Hi. unfold close_rest. rewrite bind_get_state, Ho.
  assert (snd (IdMap.remove (it_id (kRequest o)) (kIterators g)) = kIterators g)
    as -> by (unfold IdMap.remove; now rewrite Hi).
  unfold bind, modify. rewrite set_kIterators_same, kFlushed_spec.
  now destruct (flush_log_cleared g Hq Hi) as (_ & _ & ->).
Qed.

Lemma abort_object_rejected o :
  kCallback o && is_waiting o = true ->
  abort_object o
  = set_closing true (set_awaiting Idle (set_kCallback false o)).
Proof. unfold abort_object. now intros ->. Qed.

Lemma abort_object_closing o :
  kCallback o && is_waiting o = false -> closing o = true ->
  abort_object o = set_kCallback false o.
Proof.
  unfold abort_object. intros -> Hc. destruct o. simpl in *. now subst.
Qed.

Lemma abort_object_open o :
  kCallback o && is_waiting o = false ->
  abort_object o = set_closing true (set_kCallback false o).
Proof. unfold abort_object. intros ->. now destruct o. Qed.

(** One round of the second loop of [kAbortRequests], on a guest whose
    maps have been cleared. *)
Lemma abort_iterator_spec err it g :
  IdMap._map (kRequests g) = [] -> IdMap._map (kIterators g) = [] ->
  abort_iterator err it g
  = (abort_pending [it] (heap g),
     set_kEncode (kEncode g ++ abort_sync_frames [it] (heap g))
       (set_heap (abort_at (heap g) it) g),
     abort_log err [it] (heap g)).
Proof.
  intros Hq Hi. unfold abort_iterator, abort_at. rewrite bind_get_state.
  simpl abort_pending. simpl abort_sync_frames. simpl abort_log.
  destruct (heap g !! it) as [o|] eqn:Ho.
  2:{ unfold ret. simpl. rewrite ?app_nil_r. now destruct g. }
  unfold is_idle.
  destruct (kCallback o && is_waiting o) eqn:Hrej.
  - rewrite (abort_object_rejected o Hrej).
    unfold bind, put_it, modify, emit, ret. simpl. rewrite ?app_nil_r.
    now destruct g.
  - destruct (closing o) eqn:Hc; cbn [negb andb].
    + rewrite (abort_object_closing o Hrej Hc).
      unfold bind, put_it, modify, ret. simpl. rewrite ?app_nil_r.
      now destruct g.
    + rewrite (abort_object_open o Hrej).
      destruct (awaiting o) eqn:Hw.
      * unfold bind at 1. unfold put_it at 1, modify at 1.
        unfold bind. rewrite kWrite_spec.
        match goal with
        | |- context [ref_log ?g1] =>
            destruct (flush_log_cleared g1 Hq Hi) as (_ & -> & _)
        end.
        unfold ret. simpl. rewrite ?app_nil_r. now destruct g.
      * unfold bind, put_it, modify, ret. simpl. rewrite ?app_nil_r.
        now destruct g.
      * unfold bind, put_it, modify, ret. simpl. rewrite ?app_nil_r.
        now destruct g.
Qed.

Lemma collect_abort err its g :
  IdMap._map (kRequests g) = [] -> IdMap._map (kIterators g) = [] ->
  collect its (abort_iterator err) g
  = (abort_pending its (heap g),
     set_kEncode (kEncode g ++ abort_sync_frames its (heap g))
       (set_heap (abort_heap its (heap g)) g),
     abort_log err its (heap g)).
Proof.
  revert g. induction its as [|it its IH]; intros g Hq Hi.
  - simpl. unfold ret. now rewrite app_nil_r, set_heap_same, set_kEncode_same.
  - cbn [collect]. unfold bind at 1.
    rewrite (abort_iterator_spec err it g Hq Hi).
    unfold bind at 1. rewrite IH by assumption.
    unfold ret. simpl. rewrite !app_nil_r, <- !app_assoc. now destruct g.
Qed.

(** [kAbortRequests] in one equation: both maps are emptied, every
    request callback receives the error, the iterators are aborted, and
    the closes of the iterators are started or put off. *)
Lemma kAbortRequests_spec msg code g :
  let err := {| message := msg; code := code |} in
  let its := IdMap.values (kIterators g) in
  kAbortRequests msg code g
  = (abort_pending its (heap g),
     set_kEncode (kEncode g ++ abort_sync_frames its (heap g))
       (set_heap (abort_heap its (heap g))
          (set_kIterators IdMap.empty (set_kRequests IdMap.empty g))),
     map (fun req => RequestCallback req (CbError err))
         (IdMap.values (kRequests g))
     ++ abort_log err its (heap g)).
Proof.
  unfold kAbortRequests, bind, get_state, modify. simpl.
  rewrite for_each_emit. simpl. rewrite collect_abort by reflexivity.
  reflexivity.
Qed.

Lemma abort_at_length h it : length (abort_at h it) = length h.
Proof. unfold abort_at. destruct (h !! it); [apply length_insert | reflexivity]. Qed.

Lemma abort_at_lookup h it j o :
  h !! j = Some o ->
  abort_at h it !! j = Some (if decide (it = j) then abort_object o else o).
Proof.
  intros Hj. unfold abort_at. destruct (decide (it = j)) as [->|Hne].
  - rewrite Hj. apply list_lookup_insert_eq. eapply lookup_lt_Some; eauto.
  - destruct (h !! it); [|exact Hj]. now rewrite list_lookup_insert_ne.
Qed.

(** The closes that an abort has left pending, run on a guest whose
    maps are cleared and whose heap holds the aborted iterators with
    their ids: each emits ['flush'], and those that had been put off
    write their frame. *)
Lemma run_pending_abort its : forall h g,
  IdMap._map (kRequests g) = [] -> IdMap._map (kIterators g) = [] ->
  (forall it o, h !! it = Some o ->
     exists o', heap g !! it = Some o' /\
                it_id (kRequest o') = it_id (kRequest o)) ->
  for_each (abort_pending its h) run_pending g
  = (tt, set_kEncode (kEncode g ++ abort_late_frames its h) g,
     flush_blocks (kRef g) (length (abort_pending its h))).
Proof.
  induction its as [|it its IH]; intros h g Hq Hi Hids.
  - simpl. unfold ret. now rewrite app_nil_r, set_kEncode_same.
  - assert (forall j oj, abort_at h it !! j = Some oj ->
              exists o', heap g !! j = Some o' /\
                         it_id (kRequest o') = it_id (kRequest oj)) as Hids'.
    { intros j oj Hj. unfold abort_at in Hj.
      destruct (h !! it) as [o|] eqn:Ho; [|now apply Hids].
      destruct (decide (it = j)) as [->|Hne].
      - rewrite list_lookup_insert_eq in Hj by (eapply lookup_lt_Some; eauto).
        injection Hj as <-. destruct (Hids _ _ Ho) as (o' & Ho' & Hid).
        exists o'. split; [exact Ho' | exact Hid].
      - rewrite list_lookup_insert_ne in Hj by exact Hne. now apply Hids. }
    cbn [abort_pending abort_late_frames]. rewrite for_each_app.
    destruct (h !! it) as [o|] eqn:Ho.
    2:{ unfold bind at 1. cbn [for_each app]. unfold ret.
        rewrite (IH _ g Hq Hi Hids'). reflexivity. }
    destruct (Hids _ _ Ho) as (o' & Ho' & Hid).
    destruct (kCallback o && is_waiting o) eqn:Hrej.
    + unfold bind at 1. cbn [for_each run_pending]. unfold bind at 1.
      rewrite (iterator_close_cleared it o' g Ho' Hq Hi). unfold ret.
      rewrite (IH _ (set_kEncode (kEncode g ++ [FIteratorClose
                                                  (it_id (kRequest o'))]) g)
                 Hq Hi Hids').
      rewrite Hid. simpl. rewrite !app_nil_r, <- !app_assoc.
      now destruct g.
    + destruct (negb (closing o) && is_idle o).
      * unfold bind at 1. cbn [for_each run_pending]. unfold bind at 1.
        rewrite (close_rest_cleared it o' g Ho' Hq Hi). unfold ret.
        rewrite (IH _ g Hq Hi Hids'). simpl. now rewrite !app_nil_r.
      * unfold bind at 1. cbn [for_each app]. unfold ret.
        rewrite (IH _ g Hq Hi Hids'). reflexivity.
Qed.

(** The aborted heap holds every iterator of the heap, with its id. *)
Lemma abort_heap_ids its : forall h it o,
  h !! it = Some o ->
  exists o', abort_heap its h !! it = Some o' /\
             it_id (kRequest o') = it_id (kRequest o).
Proof.
  induction its as [|x its IH]; intros h it o Ho; simpl.
  - now exists o.
  - pose proof (abort_at_lookup h x it o Ho) as H1.
    destruct (IH _ _ _ H1) as (o' & Ho' & Hid).
    exists o'. split; [exact Ho'|]. rewrite Hid.
    now destruct (decide (x = it)).
Qed.

(** An abort writes as many frames as it leaves closes pending. *)
Lemma abort_frames_length its h :
  length (abort_frames its h) = length (abort_pending its h).
Proof.
  unfold abort_frames. rewrite length_app. revert h.
  induction its as [|it its IH]; intros h; simpl; [reflexivity|].
  rewrite !length_app, <- IH.
  destruct (h !! it) as [o|]; [|simpl; lia].
  destruct (kCallback o && is_waiting o); [simpl; lia|].
  destruct (negb (closing o) && is_idle o); simpl; lia.
Qed.

(** ** The flush event *)

Lemma flushes_app a b : flushes (a ++ b) = (flushes a + flushes b)%nat.
Proof. unfold flushes. now rewrite filter_app, length_app. Qed.




Lemma flush_blocks_In kref n e :
  In e (flush_blocks kref n) -> e = EmitFlush \/ e = UnrefCalled.
Proof.
  induction n as [|n IH]; simpl; [tauto|].
  intros [<- | Hin]; [now left|]. apply in_app_or in Hin.
  destruct Hin as [Hin | Hin]; [|auto].
  destruct kref; [|destruct Hin]. destruct Hin as [<- | []]. now right.
Qed.




Lemma flushes_ref_log g : flushes (ref_log g) = 0%nat.
Proof.
  unfold ref_log. destruct (_ =? 1); [|reflexivity].
  destruct (kRef g); reflexivity.
Qed.

(** Writing a list of frames appends them to the encoder and touches
    nothing else; the log holds no ['flush']. *)
Lemma for_each_kWrite {A} (f : A -> frame) xs g :
  exists evs,
    for_each xs (fun x => kWrite (f x)) g
    = (tt, set_kEncode (kEncode g ++ map f xs) g, evs) /\
    flushes evs = 0%nat.
Proof.
  revert g. induction xs as [|x xs IH]; intros g; simpl.
  - exists []. rewrite app_nil_r, set_kEncode_same. split; reflexivity.
  - unfold bind. rewrite kWrite_spec.
    destruct (IH (set_kEncode (kEncode g ++ [f x]) g)) as (evs & -> & Hev).
    exists (ref_log g ++ evs). simpl. rewrite <- app_assoc. simpl.
    split; [reflexivity|]. now rewrite flushes_app, flushes_ref_log.
Qed.

Lemma for_each_write_iterator its g :
  exists evs,
    for_each its write_iterator g
    = (tt, set_kEncode (kEncode g ++ iterator_frames (heap g) its) g, evs) /\
    flushes evs = 0%nat.
Proof.
  revert g. induction its as [|it its IH]; intros g; simpl.
  - exists []. rewrite app_nil_r, set_kEncode_same. split; reflexivity.
  - unfold bind, write_iterator at 1. unfold bind, get_state.
    destruct (heap g !! it) as [o|] eqn:Hit.
    + rewrite kWrite_spec.
      destruct (IH (set_kEncode (kEncode g ++ [FIterator (kRequest o)]) g))
        as (evs & -> & Hev).
      exists (ref_log g ++ evs). simpl. rewrite <- app_assoc. simpl.
      split; [reflexivity|]. now rewrite flushes_app, flushes_ref_log.
    + unfold ret. destruct (IH g) as (evs & -> & Hev).
      exists evs. simpl. split; [reflexivity | exact Hev].
Qed.

(** The cleanup of a guest that retries: only the encoder changes. *)
Lemma cleanup_retry_spec g :
  kRetry g = true ->
  exists evs,
    cleanup g
    = (tt,
       set_kEncode (map FRequest (IdMap.values (kRequests g))
                    ++ iterator_frames (heap g) (IdMap.values (kIterators g)))
         (set_kRpcStream None g),
       evs) /\
    flushes evs = 0%nat.
Proof.
  intros Hr. unfold cleanup, bind, modify, get_state. simpl. rewrite Hr. simpl.
  destruct (for_each_kWrite FRequest (IdMap.values (kRequests g))
              (set_kEncode [] (set_kRpcStream None g))) as (e1 & -> & H1).
  simpl.
  match goal with
  | |- context [for_each ?its write_iterator ?g0] =>
      destruct (for_each_write_iterator its g0) as (e2 & -> & H2)
  end.
  simpl. exists (e1 ++ e2). split; [reflexivity|].
  now rewrite flushes_app, H1, H2.
Qed.

(** The cleanup of a guest that does not retry. *)
Lemma cleanup_abort_spec g :
  kRetry g = false ->
  let err := {| message := "Connection to leader lost";
                code := "LEVEL_CONNECTION_LOST" |} in
  let its := IdMap.values (kIterators g) in
  let g' := set_kEncode (abort_frames its (heap g))
              (set_heap (abort_heap its (heap g))
                 (set_kIterators IdMap.empty
                    (set_kRequests IdMap.empty (set_kRpcStream None g)))) in
  cleanup g
  = (tt, g',
     (map (fun req => RequestCallback req (CbError err))
        (IdMap.values (kRequests g))
      ++ abort_log err its (heap g))
     ++ flush_block (kRef g)
     ++ flush_blocks (kRef g) (length (abort_frames its (heap g)))).
Proof.
  intros Hr err its g'.
  unfold cleanup, bind at 1, modify at 1. unfold bind at 1, modify at 1.
  rewrite bind_get_state.
  change (kRetry (set_kEncode [] (set_kRpcStream None g))) with (kRetry g).
  rewrite Hr. cbn [negb]. unfold bind at 1.
  rewrite kAbortRequests_spec. cbv zeta.
  change (kIterators (set_kEncode [] (set_kRpcStream None g)))
    with (kIterators g).
  change (heap (set_kEncode [] (set_kRpcStream None g))) with (heap g).
  change (kRequests (set_kEncode [] (set_kRpcStream None g)))
    with (kRequests g).
  fold its. fold err.
  set (g1 := set_kEncode _ (set_heap _ _)).
  unfold bind at 1. rewrite kFlushed_spec.
  destruct (flush_log_cleared g1 eq_refl eq_refl) as (_ & _ & ->).
  rewrite (run_pending_abort its (heap g) g1 eq_refl eq_refl).
  2:{ intros it o Ho. apply (abort_heap_ids its _ _ _ Ho). }
  rewrite abort_frames_length. subst g1 g'. unfold abort_frames.
  simpl. now destruct g.
Qed.







(** ** The id allocator *)

(** C8 (amended): the allocator pre-increments, so from a counter in
    [0, 2^32-1] it hands out [_seq + 1], except that at [2^32 - 1] the
    counter is reset to 0 first and the id handed out is 1.  Allocated
    ids lie in [1, 2^32-1]: zero is never allocated.  The item is stored
    under the id and the counter remembers it. *)
Theorem add_allocates {A : Type} (item : A) (m : IdMap.t A) :
  0 <= IdMap._seq m <= 0xffffffff ->
  let '(m', id) := IdMap.add item m in
  id = (if IdMap._seq m =? 0xffffffff then 1 else IdMap._seq m + 1) /\
  1 <= id <= 0xffffffff /\
  IdMap._seq m' = id /\
  IdMap.get id m' = Some item.
Proof.
  intros Hs. unfold IdMap.add, IdMap.get. simpl.
  rewrite map_get_set_eq.
  destruct (Z.leb_spec 0xffffffff (IdMap._seq m));
    destruct (Z.eqb_spec (IdMap._seq m) 0xffffffff); repeat split; lia.
Qed.

Lemma add_allocates_witness :
  let m := IdMap.mk [(4294967295, tt)] 4294967295 in
  let '(m', id) := IdMap.add tt m in
  id = 1 /\ 1 <= id <= 0xffffffff /\ IdMap._seq m' = id /\
  IdMap.get id m' = Some tt.
Proof.
  apply (add_allocates tt (IdMap.mk [(4294967295, tt)] 4294967295)).
  simpl. lia.
Defined.

(** C8 (as stated, refuted): at [2^32 - 1] the next allocated id is 1,
    not 0, and the first id of a fresh map is 1 as well. *)
Lemma add_never_zero_at_wrap :
  snd (IdMap.add tt (IdMap.mk [(4294967295, tt)] 4294967295)) = 1 /\
  snd (IdMap.add tt (IdMap.mk [(4294967295, tt)] 4294967295)) <> 0 /\
  snd (IdMap.add tt (@IdMap.empty unit)) = 1 /\
  ~ (exists m : IdMap.t unit,
        0 <= IdMap._seq m <= 0xffffffff /\ snd (IdMap.add tt m) = 0).
Proof.
  split; [reflexivity|]. split; [discriminate|]. split; [reflexivity|].
  intros (m & Hm & H). unfold IdMap.add in H. cbn [snd] in H.
  destruct (Z.leb_spec 0xffffffff (IdMap._seq m)); lia.
Qed.

(** ** The invariant *)

Ltac ok_solve :=
  constructor; simpl in *; try (constructor; fail); intuition congruence.

Lemma object_ok_new retry opts id :
  object_ok retry (ManyLevelGuestIterator.new_object retry opts id).
Proof.
  constructor; simpl; auto; try discriminate.
  intros ->. reflexivity.
Qed.

Lemma object_ok_wake retry o : object_ok retry o -> object_ok retry (wake_waiter o).
Proof.
  intros []. unfold wake_waiter.
  destruct (awaiting o) eqn:E; ok_solve.
Qed.

Lemma object_ok_push retry o res :
  object_ok retry o -> (kSeq o =? res_seq res) = true ->
  object_ok retry
    (let o1 := set_kPending (kPending o ++ [res]) o in
     if kCallback o1 then wake_waiter o1 else o1).
Proof.
  intros H Hs. apply Z.eqb_eq in Hs.
  assert (object_ok retry (set_kPending (kPending o ++ [res]) o)) as H1.
  { destruct H as [Hp]. constructor; simpl; auto.
    apply Forall_app. split; [assumption|]. constructor; auto. }
  simpl. destruct (kCallback o); [apply object_ok_wake|]; exact H1.
Qed.

Lemma object_ok_end retry o :
  object_ok retry o ->
  object_ok retry
    (let o1 := set_kEnded true o in
     if kCallback o1 then wake_waiter o1 else o1).
Proof.
  intros H.
  assert (object_ok retry (set_kEnded true o)) as H1.
  { destruct H. constructor; simpl; auto. }
  simpl. destruct (kCallback o); [apply object_ok_wake|]; exact H1.
Qed.

Lemma object_ok_abort retry o : object_ok retry o -> object_ok retry (abort_object o).
Proof.
  intros []. unfold abort_object, is_waiting.
  destruct (kCallback o), (awaiting o) eqn:E; ok_solve.
Qed.

Lemma object_ok_seek retry target o :
  object_ok retry o -> kErrored o = false ->
  object_ok retry (ManyLevelGuestIterator.seek_object target o).
Proof. intros [] He. ok_solve. Qed.

Lemma object_ok_wait retry o :
  object_ok retry o -> kErrored o = false ->
  object_ok retry (set_awaiting Waiting (set_kCallback true o)).
Proof. intros [] He. ok_solve. Qed.

Lemma object_ok_idle retry o :
  object_ok retry o -> object_ok retry (set_awaiting Idle o).
Proof. intros []. ok_solve. Qed.

Lemma object_ok_closing retry o :
  object_ok retry o -> object_ok retry (set_closing true o).
Proof. intros []. ok_solve. Qed.

Lemma object_ok_pull retry o :
  object_ok retry o -> awaiting o = Idle ->
  object_ok retry (fst (fst (ManyLevelGuestIterator.pull retry o))).
Proof.
  intros [Hp Hw He Hrs Has Hai Hk Hl] Hi. unfold ManyLevelGuestIterator.pull.
  destruct (kPending o) as [|next rest] eqn:Hpe; simpl.
  { constructor; auto. now rewrite Hpe. }
  inversion Hp as [|? ? Hn Hrest]; subst.
  destruct next as [id seq data | id seq error]; simpl in *.
  - destruct (take_entry (it_options (kRequest o)) data) as [[key val] data'].
    destruct data' as [|d data'].
    + destruct (below _ _); destruct retry; ok_solve.
    + destruct retry; constructor; simpl; auto; try congruence;
        constructor; auto.
  - destruct (truthy error); constructor; simpl; auto; try congruence;
      rewrite Hpe; constructor; auto.
Qed.

Lemma advances_refl g : advances g g.
Proof. split; [reflexivity|]. intros it o H. exists o. repeat split; auto; lia. Qed.

Lemma advances_trans g1 g2 g3 :
  advances g1 g2 -> advances g2 g3 -> advances g1 g3.
Proof.
  intros [Hr1 H1] [Hr2 H2]. split; [congruence|].
  intros it o Ho. destruct (H1 it o Ho) as (o' & Ho' & Hs & He).
  destruct (H2 it o' Ho') as (o'' & Ho'' & Hs' & He').
  exists o''. repeat split; auto; lia.
Qed.

Lemma step_ok_refl g : step_ok g g.
Proof. split; [auto | apply advances_refl]. Qed.

Lemma step_ok_trans g1 g2 g3 : step_ok g1 g2 -> step_ok g2 g3 -> step_ok g1 g3.
Proof.
  intros [Hk1 Ha1] [Hk2 Ha2]. split; [auto | eapply advances_trans; eauto].
Qed.

(** A step that leaves the heap, the iterators map and the retry flag. *)
Lemma step_ok_same g g' :
  kRetry g' = kRetry g -> heap g' = heap g -> kIterators g' = kIterators g ->
  step_ok g g'.
Proof.
  intros Hr Hh Hm. split.
  - unfold guest_ok. now rewrite Hr, Hh, Hm.
  - split; [exact Hr|]. intros it o Ho. exists o. rewrite Hh.
    repeat split; auto; lia.
Qed.

(** A step that replaces one object by a well-formed, later one. *)
Lemma step_ok_put g g' it o o' :
  kRetry g' = kRetry g -> kIterators g' = kIterators g ->
  heap g !! it = Some o ->
  heap g' = <[it := o']> (heap g) ->
  (object_ok (kRetry g) o -> object_ok (kRetry g) o') ->
  kSeq o <= kSeq o' ->
  (kErrored o = true -> kErrored o' = true) ->
  step_ok g g'.
Proof.
  intros Hr Hm Ho Hh Hok Hs He. split.
  - unfold guest_ok, ok_parts. rewrite Hr, Hm, Hh, length_insert.
    intros [Hall Hrefs]. split; [|exact Hrefs].
    apply Forall_insert; [exact Hall|]. apply Hok.
    eapply Forall_lookup_1; eauto.
  - split; [exact Hr|]. intros j oj Hj. rewrite Hh.
    destruct (decide (it = j)) as [->|Hne].
    + exists o'. rewrite list_lookup_insert_eq by (eapply lookup_lt_Some; eauto).
      assert (oj = o) by congruence. subst. auto.
    + exists oj. rewrite list_lookup_insert_ne by exact Hne.
      repeat split; auto; lia.
Qed.

(** A step that only shrinks the iterators map. *)
Lemma step_ok_shrink g g' :
  kRetry g' = kRetry g -> heap g' = heap g ->
  (forall p, In p (IdMap._map (kIterators g')) ->
             In p (IdMap._map (kIterators g))) ->
  step_ok g g'.
Proof.
  intros Hr Hh Hm. split.
  - unfold guest_ok, ok_parts. rewrite Hr, Hh. intros [Hall Hrefs].
    split; [exact Hall|]. rewrite List.Forall_forall in *. auto.
  - split; [exact Hr|]. intros it o Ho. exists o. rewrite Hh.
    repeat split; auto; lia.
Qed.

Lemma map_delete_In {A} id (p : Z * A) l :
  In p (IdMap.map_delete id l) -> In p l.
Proof.
  induction l as [|[k v] l IH]; simpl; [tauto|].
  destruct (k =? id); simpl; intuition.
Qed.

Lemma remove_In {A} id (m : IdMap.t A) p :
  In p (IdMap._map (snd (IdMap.remove id m))) -> In p (IdMap._map m).
Proof.
  unfold IdMap.remove. destruct (IdMap.map_get id (IdMap._map m)); simpl; auto.
  apply map_delete_In.
Qed.

Lemma map_set_In {A} id (item : A) l p :
  In p (IdMap.map_set id item l) -> p = (id, item) \/ In p l.
Proof.
  induction l as [|[k v] l IH]; simpl.
  - intuition.
  - destruct (Z.eqb_spec k id) as [->|Hne]; simpl; intuition.
Qed.

Lemma abort_heap_length its h : length (abort_heap its h) = length h.
Proof.
  revert h. induction its as [|it its IH]; intros h; simpl; [reflexivity|].
  unfold abort_heap in IH. now rewrite IH, abort_at_length.
Qed.

Lemma abort_at_ok retry h it :
  Forall (object_ok retry) h -> Forall (object_ok retry) (abort_at h it).
Proof.
  intros H. unfold abort_at. destruct (h !! it) as [o|] eqn:Ho; [|exact H].
  apply Forall_insert; [exact H|]. apply object_ok_abort.
  eapply Forall_lookup_1; eauto.
Qed.

Lemma abort_heap_ok retry its h :
  Forall (object_ok retry) h -> Forall (object_ok retry) (abort_heap its h).
Proof.
  revert h. induction its as [|it its IH]; intros h H; simpl; [exact H|].
  apply IH, abort_at_ok, H.
Qed.

Lemma abort_heap_advances its h j o :
  h !! j = Some o ->
  exists o', abort_heap its h !! j = Some o' /\
             kSeq o' = kSeq o /\ kErrored o' = kErrored o /\
             (In j its \/ (closing o = true /\ kCallback o = false) ->
              closing o' = true /\ kCallback o' = false).
Proof.
  revert h o. induction its as [|it its IH]; intros h o Hj; simpl.
  - exists o. intuition.
  - pose proof (abort_at_lookup h it j o Hj) as H1.
    destruct (IH _ _ H1) as (o' & Ho' & Hs & He & Hc).
    exists o'. split; [exact Ho'|].
    destruct (decide (it = j)) as [->|Hne]; simpl in *.
    + repeat split; auto; apply Hc; auto.
    + repeat split; auto; apply Hc; intuition.
Qed.

(** *** Every operation is a step *)

Lemma steps_ret {A} (a : A) : steps (ret a).
Proof. intros g. apply step_ok_refl. Qed.

Lemma steps_bind {A B} (m : M A) (k : A -> M B) :
  steps m -> (forall a, steps (k a)) -> steps (bind m k).
Proof.
  intros Hm Hk g. rewrite state_after_bind.
  eapply step_ok_trans; [apply Hm | apply Hk].
Qed.

Lemma steps_get_state : steps get_state.
Proof. intros g. apply step_ok_refl. Qed.

Lemma steps_emit e : steps (emit e).
Proof. intros g. apply step_ok_refl. Qed.

Lemma steps_modify f :
  (forall g, kRetry (f g) = kRetry g /\ heap (f g) = heap g /\
             kIterators (f g) = kIterators g) ->
  steps (modify f).
Proof. intros H g. destruct (H g) as (? & ? & ?). now apply step_ok_same. Qed.

Lemma steps_when b m : steps m -> steps (when b m).
Proof. intros H. destruct b; [exact H | apply steps_ret]. Qed.

Lemma steps_for_each {A} (xs : list A) body :
  (forall x, steps (body x)) -> steps (for_each xs body).
Proof.
  intros H. induction xs as [|x xs IH]; simpl; [apply steps_ret|].
  apply steps_bind; auto.
Qed.

Lemma steps_discard {A} (m : M A) : steps m -> steps (discard m).
Proof. intros H. apply steps_bind; [exact H | intros; apply steps_ret]. Qed.

Create HintDb steps.
#[local] Hint Resolve steps_ret steps_get_state steps_emit steps_when
  steps_for_each steps_discard : steps.

Ltac steps_modify := apply steps_modify; intros; simpl; auto.

Lemma steps_kWrite req : steps (kWrite req).
Proof. intros g. rewrite kWrite_spec. now apply step_ok_same. Qed.

Lemma steps_kFlushed : steps kFlushed.
Proof. intros g. rewrite kFlushed_spec. apply step_ok_refl. Qed.

#[local] Hint Resolve steps_kWrite steps_kFlushed : steps.

(** A step that aborts the iterators [its] and empties the map. *)
Lemma step_ok_abort g g' its :
  kRetry g' = kRetry g ->
  heap g' = abort_heap its (heap g) ->
  IdMap._map (kIterators g') = [] ->
  step_ok g g'.
Proof.
  intros Hr Hh Hm. split.
  - unfold guest_ok, ok_parts. rewrite Hr, Hh, Hm. intros [Hall _].
    split; [now apply abort_heap_ok | constructor].
  - split; [exact Hr|]. intros it o Ho. rewrite Hh.
    destruct (abort_heap_advances its _ _ _ Ho) as (o' & Ho' & Hs & He & _).
    exists o'. repeat split; auto; [lia | congruence].
Qed.

Lemma steps_kAbortRequests msg code : steps (kAbortRequests msg code).
Proof.
  intros g. rewrite kAbortRequests_spec.
  now apply (step_ok_abort _ _ (IdMap.values (kIterators g))).
Qed.

#[local] Hint Resolve steps_kAbortRequests : steps.

Lemma steps_cleanup : steps cleanup.
Proof.
  intros g. destruct (kRetry g) eqn:Hr.
  - destruct (cleanup_retry_spec g Hr) as (evs & -> & _).
    now apply step_ok_same.
  - rewrite (cleanup_abort_spec g Hr).
    now apply (step_ok_abort _ _ (IdMap.values (kIterators g))).
Qed.

#[local] Hint Resolve steps_cleanup : steps.

Lemma steps_oncallback id error value : steps (oncallback id error value).
Proof.
  unfold oncallback. apply steps_bind; [auto with steps|]. intros g.
  destruct (IdMap.remove id (kRequests g)) as [req m].
  apply steps_bind; [steps_modify|]. intros _.
  destruct req; [destruct (truthy error)|]; auto with steps.
Qed.

Lemma steps_ongetmanycallback id error values :
  steps (ongetmanycallback id error values).
Proof.
  unfold ongetmanycallback. apply steps_bind; [auto with steps|]. intros g.
  destruct (IdMap.remove id (kRequests g)) as [req m].
  apply steps_bind; [steps_modify|]. intros _.
  destruct req; [destruct (truthy error)|]; auto with steps.
Qed.

Lemma step_ok_put_it g it o o' :
  heap g !! it = Some o ->
  (object_ok (kRetry g) o -> object_ok (kRetry g) o') ->
  kSeq o <= kSeq o' ->
  (kErrored o = true -> kErrored o' = true) ->
  step_ok g (state_after (put_it it o' g)).
Proof. intros. eapply step_ok_put; eauto. Qed.

Lemma kSeq_wake o : kSeq (wake_waiter o) = kSeq o.
Proof. unfold wake_waiter. now destruct (awaiting o). Qed.

Lemma kErrored_wake o : kErrored (wake_waiter o) = kErrored o.
Proof. unfold wake_waiter. now destruct (awaiting o). Qed.

Lemma steps_oniteratordata res : steps (oniteratordata res).
Proof.
  intros g. unfold oniteratordata, bind at 1, get_state.
  destruct (IdMap.get (res_id res) (kIterators g)) as [it|];
    [|apply step_ok_refl].
  destruct (heap g !! it) as [o|] eqn:Ho; [|apply step_ok_refl].
  destruct (kSeq o =? res_seq res) eqn:Hs; simpl; [|apply step_ok_refl].
  eapply step_ok_put_it; [exact Ho | | |].
  - intros Hok. exact (object_ok_push _ _ res Hok Hs).
  - destruct (kCallback o); rewrite ?kSeq_wake; simpl; lia.
  - destruct (kCallback o); rewrite ?kErrored_wake; simpl; auto.
Qed.

Lemma steps_oniteratorend id seq : steps (oniteratorend id seq).
Proof.
  intros g. unfold oniteratorend, bind at 1, get_state.
  destruct (IdMap.get id (kIterators g)) as [it|]; [|apply step_ok_refl].
  destruct (heap g !! it) as [o|] eqn:Ho; [|apply step_ok_refl].
  destruct (kSeq o =? seq) eqn:Hs; simpl; [|apply step_ok_refl].
  eapply step_ok_put_it; [exact Ho | | |].
  - intros Hok. exact (object_ok_end _ _ Hok).
  - destruct (kCallback o); rewrite ?kSeq_wake; simpl; lia.
  - destruct (kCallback o); rewrite ?kErrored_wake; simpl; auto.
Qed.

Lemma steps_ondata data : steps (ondata data).
Proof.
  destruct data as [res|]; simpl; [|apply steps_ret].
  apply steps_bind; [|auto with steps].
  destruct res; simpl; auto using steps_oncallback, steps_ongetmanycallback,
    steps_oniteratordata, steps_oniteratorend.
Qed.

Lemma steps_createRpcStream opts_ref : steps (createRpcStream opts_ref).
Proof.
  unfold createRpcStream. apply steps_bind; [auto with steps|]. intros g.
  destruct (kRpcStream g); [apply steps_ret|].
  repeat (apply steps_bind; [steps_modify|]; intros _). apply steps_ret.
Qed.

Lemma steps_request_call op : steps (request_call op).
Proof.
  unfold request_call. apply steps_bind; [auto with steps|]. intros g.
  destruct (kDb g); [auto with steps|].
  destruct (IdMap.add _ _) as [m id].
  apply steps_bind; [steps_modify | auto with steps].
Qed.

Lemma step_ok_alloc g g' o id :
  kRetry g' = kRetry g ->
  heap g' = heap g ++ [o] ->
  object_ok (kRetry g) o ->
  IdMap._map (kIterators g')
    = IdMap.map_set id (length (heap g)) (IdMap._map (kIterators g)) ->
  step_ok g g'.
Proof.
  intros Hr Hh Hok Hm. split.
  - unfold guest_ok, ok_parts. rewrite Hr, Hh, Hm, length_app. simpl.
    intros [Hall Hrefs]. split.
    + apply Forall_app. split; [exact Hall | now constructor].
    + rewrite List.Forall_forall in *. intros p Hp.
      apply map_set_In in Hp. destruct Hp as [-> | Hp]; simpl; [lia|].
      specialize (Hrefs p Hp). lia.
  - split; [exact Hr|]. intros it o0 Ho. exists o0. rewrite Hh.
    rewrite lookup_app_l by (eapply lookup_lt_Some; eauto).
    repeat split; auto; lia.
Qed.

Lemma steps_constructor opts : steps (ManyLevelGuestIterator.constructor opts).
Proof.
  intros g. unfold ManyLevelGuestIterator.constructor. rewrite bind_get_state.
  unfold IdMap.add. cbv zeta. rewrite !state_after_bind.
  eapply step_ok_trans; [|apply steps_ret].
  eapply step_ok_trans; [|apply steps_kWrite].
  unfold modify, state_after, result. simpl.
  eapply step_ok_alloc; simpl; eauto using object_ok_new.
Qed.

Lemma steps_iterator_method opts : steps (iterator_method opts).
Proof.
  unfold iterator_method. apply steps_bind; [auto with steps|]. intros g.
  destruct (kDb g).
  - apply steps_bind; auto with steps.
  - apply steps_bind; [apply steps_constructor | auto with steps].
Qed.

Lemma steps_seek it target : steps (ManyLevelGuestIterator._seek it target).
Proof.
  intros g. unfold ManyLevelGuestIterator._seek. rewrite bind_get_state.
  destruct (heap g !! it) as [o|] eqn:Ho; [|apply step_ok_refl].
  destruct (kErrored o) eqn:He; [apply step_ok_refl|].
  rewrite state_after_bind.
  eapply step_ok_trans; [|apply steps_kWrite].
  eapply step_ok_put_it; [exact Ho | | simpl; lia | congruence].
  intros Hok. now apply object_ok_seek.
Qed.

Lemma pull_kSeq retry o :
  kSeq (fst (fst (ManyLevelGuestIterator.pull retry o))) = kSeq o.
Proof.
  unfold ManyLevelGuestIterator.pull.
  destruct (kPending o) as [|[id seq data | id seq error] rest]; simpl;
    [reflexivity| |destruct (truthy error); reflexivity].
  destruct (take_entry _ data) as [[key val] [|d data']];
    [destruct (below _ _)|]; reflexivity.
Qed.

Lemma pull_kErrored retry o :
  kErrored o = true ->
  kErrored (fst (fst (ManyLevelGuestIterator.pull retry o))) = true.
Proof.
  intros He. unfold ManyLevelGuestIterator.pull.
  destruct (kPending o) as [|[id seq data | id seq error] rest]; simpl;
    [exact He| |destruct (truthy error); auto].
  destruct (take_entry _ data) as [[key val] [|d data']];
    [destruct (below _ _)|]; exact He.
Qed.

Lemma step_ok_next_body it o g :
  heap g !! it = Some o -> awaiting o = Idle ->
  step_ok g (state_after (ManyLevelGuestIterator.next_body it g)).
Proof.
  intros Ho Hi. unfold ManyLevelGuestIterator.next_body. rewrite bind_get_state.
  rewrite Ho.
  pose proof (object_ok_pull (kRetry g) o) as Hok.
  pose proof (pull_kSeq (kRetry g) o) as Hs.
  pose proof (pull_kErrored (kRetry g) o) as He.
  destruct (ManyLevelGuestIterator.pull (kRetry g) o) as [[o' outcome] ack].
  simpl in *. rewrite !state_after_bind.
  eapply step_ok_trans; [|apply steps_ret].
  eapply step_ok_trans; [|destruct ack; [apply steps_kWrite | apply steps_ret]].
  eapply step_ok_put_it; [exact Ho | auto | lia | exact He].
Qed.

Lemma step_ok_next it o g :
  heap g !! it = Some o -> awaiting o = Idle ->
  step_ok g (state_after (ManyLevelGuestIterator._next it g)).
Proof.
  intros Ho Hi. unfold ManyLevelGuestIterator._next. rewrite bind_get_state.
  rewrite Ho.
  destruct (reached _ _) eqn:Hr; simpl; [apply step_ok_refl|].
  destruct (kErrored o) eqn:He; simpl; [apply step_ok_refl|].
  destruct (kEnded o && (length (kPending o) =? 0)%nat);
    [apply step_ok_refl|].
  destruct (length (kPending o) =? 0)%nat.
  - rewrite state_after_bind.
    eapply step_ok_trans; [|apply steps_ret].
    eapply step_ok_put_it; [exact Ho | | simpl; lia | auto].
    intros Hok. now apply object_ok_wait.
  - now apply (step_ok_next_body it o).
Qed.

Lemma steps_guarded_next it : steps (guarded_next it).
Proof.
  intros g. unfold guarded_next. rewrite bind_get_state.
  destruct (heap g !! it) as [o|] eqn:Ho; [|apply step_ok_refl].
  destruct (closing o); [apply step_ok_refl|].
  destruct (awaiting o) eqn:Hi; try apply step_ok_refl.
  now apply (step_ok_next it o).
Qed.

Lemma steps_next_resume it : steps (ManyLevelGuestIterator.next_resume it).
Proof.
  intros g. unfold ManyLevelGuestIterator.next_resume. rewrite bind_get_state.
  destruct (heap g !! it) as [o|] eqn:Ho; [|apply step_ok_refl].
  destruct (awaiting o) eqn:Hi; try apply step_ok_refl.
  rewrite state_after_bind.
  eapply (step_ok_trans _ (state_after (put_it it (set_awaiting Idle o) g))).
  - eapply step_ok_put_it; [exact Ho | | simpl; lia | auto].
    intros Hok. now apply object_ok_idle.
  - apply (step_ok_next_body it (set_awaiting Idle o)); [|reflexivity].
    unfold put_it, modify, state_after. simpl.
    apply list_lookup_insert_eq. eapply lookup_lt_Some; eauto.
Qed.

Lemma steps_iterator__close it : steps (ManyLevelGuestIterator._close it).
Proof.
  intros g. destruct (heap g !! it) as [o|] eqn:Ho.
  - rewrite (iterator_close_spec _ _ _ Ho). unfold state_after. simpl.
    apply step_ok_shrink; simpl; auto. intros p. apply remove_In.
  - unfold ManyLevelGuestIterator._close, bind, get_state. rewrite Ho.
    apply step_ok_refl.
Qed.

Lemma steps_end_work it : steps (end_work it).
Proof.
  unfold end_work. apply steps_bind; [auto with steps|]. intros g.
  destruct (heap g !! it) as [o|]; [|apply steps_ret].
  apply steps_when, steps_iterator__close.
Qed.

Lemma steps_resumed_next it : steps (resumed_next it).
Proof.
  unfold resumed_next. apply steps_bind; [auto with steps|]. intros g.
  destruct (heap g !! it) as [o|]; [|apply steps_ret].
  destruct (awaiting o); try apply steps_next_resume.
  apply steps_bind; [apply steps_next_resume|]. intros r.
  apply steps_bind; [apply steps_end_work | auto with steps].
Qed.

Lemma steps_iterator_close it : steps (iterator_close it).
Proof.
  intros g. unfold iterator_close. rewrite bind_get_state.
  destruct (heap g !! it) as [o|] eqn:Ho; [|apply step_ok_refl].
  destruct (closing o); [apply step_ok_refl|].
  rewrite state_after_bind.
  eapply step_ok_trans;
    [|destruct (awaiting o); [apply steps_iterator__close | apply steps_ret..]].
  eapply step_ok_put_it; [exact Ho | | simpl; lia | auto].
  intros Hok. now apply object_ok_closing.
Qed.

Lemma steps_close_rest it : steps (close_rest it).
Proof.
  intros g. unfold close_rest. rewrite bind_get_state.
  destruct (heap g !! it) as [o|]; [|apply step_ok_refl].
  unfold bind, modify. rewrite kFlushed_spec. unfold state_after. simpl.
  apply step_ok_shrink; simpl; auto. intros p. apply remove_In.
Qed.

Lemma steps_run_pending p : steps (run_pending p).
Proof. destruct p; [apply steps_close_rest | apply steps_iterator__close]. Qed.

Lemma steps_close : steps _close.
Proof.
  unfold _close.
  apply steps_bind; [steps_modify|]; intros _.
  apply steps_bind; [auto with steps|]; intros pending.
  apply steps_bind; [auto with steps|]; intros g.
  destruct (kRpcStream g); (apply steps_bind; [auto with steps|]; intros _);
    (apply steps_bind; [|auto with steps]);
    apply steps_for_each, steps_run_pending.
Qed.

Lemma steps_exec a : steps (exec a).
Proof.
  destruct a; simpl.
  - apply steps_ondata.
  - apply steps_discard, steps_createRpcStream.
  - apply steps_bind; [auto with steps|]. intros g.
    destruct (kRpcStream g); auto with steps.
  - apply steps_request_call.
  - unfold forward. steps_modify.
  - apply steps_discard, steps_close.
  - apply steps_discard, steps_iterator_method.
  - apply steps_seek.
  - apply steps_discard, steps_guarded_next.
  - apply steps_discard, steps_resumed_next.
  - apply steps_iterator_close.
Qed.

Lemma step_ok_run tr g : step_ok g (run tr g).
Proof.
  revert g. induction tr as [|a tr IH]; intros g; simpl.
  - apply step_ok_refl.
  - eapply step_ok_trans; [apply steps_exec | apply IH].
Qed.

Lemma guest_ok_constructor retry : guest_ok (constructor retry).
Proof. split; constructor. Qed.

(** Every reachable state satisfies the invariant. *)
Lemma reachable_ok g : reachable g -> guest_ok g.
Proof.
  intros (retry & tr & ->). apply step_ok_run, guest_ok_constructor.
Qed.

Lemma reachable_run tr g : reachable g -> reachable (run tr g).
Proof.
  intros (retry & tr0 & ->). exists retry, (tr0 ++ tr).
  unfold run. now rewrite fold_left_app.
Qed.

Lemma guest_ok_lookup g it o :
  guest_ok g -> heap g !! it = Some o -> object_ok (kRetry g) o.
Proof. intros [Hall _] Ho. eapply Forall_lookup_1; eauto. Qed.

(** ** Stale frames and seek *)

Lemma get_Some_not_flushed g id it :
  IdMap.get id (kIterators g) = Some it -> isFlushed g = false.
Proof.
  unfold IdMap.get, isFlushed, IdMap.size. intros H.
  destruct (IdMap._map (kIterators g)); [discriminate|].
  apply andb_false_iff. right. apply Z.eqb_neq. simpl length. lia.
Qed.

Lemma pull_entry retry o key value :
  snd (fst (ManyLevelGuestIterator.pull retry o)) = NextEntry key value ->
  exists id seq data rest data',
    kPending o = IteratorData id seq data :: rest /\
    take_entry (it_options (kRequest o)) data = (key, value, data').
Proof.
  unfold ManyLevelGuestIterator.pull.
  destruct (kPending o) as [|[id seq data | id seq error] rest]; simpl.
  - destruct (kEnded o); discriminate.
  - destruct (take_entry _ data) as [[k v] data'] eqn:Ht.
    intros H. exists id, seq, data, rest, data'. split; [reflexivity|].
    destruct data' as [|d data'']; [destruct (below _ _)|];
      simpl in H; congruence.
  - destruct (truthy error); discriminate.
Qed.

Lemma next_body_entry it g key value :
  result (ManyLevelGuestIterator.next_body it g) = NextEntry key value ->
  exists o, heap g !! it = Some o /\
    snd (fst (ManyLevelGuestIterator.pull (kRetry g) o)) = NextEntry key value.
Proof.
  unfold ManyLevelGuestIterator.next_body. rewrite bind_get_state.
  destruct (heap g !! it) as [o|]; [|discriminate].
  destruct (ManyLevelGuestIterator.pull (kRetry g) o)
    as [[o' outcome] ack] eqn:Hp.
  rewrite !result_bind. intros H. exists o. split; [reflexivity|].
  rewrite Hp. exact H.
Qed.

Lemma guarded_next_entry it g key value :
  result (guarded_next it g) = NextEntry key value ->
  exists o, heap g !! it = Some o /\ kErrored o = false /\
    reached (it_consumed (kRequest o)) (limit o) = false /\
    snd (fst (ManyLevelGuestIterator.pull (kRetry g) o)) = NextEntry key value.
Proof.
  unfold guarded_next. rewrite bind_get_state.
  destruct (heap g !! it) as [o|] eqn:Ho; [|discriminate].
  destruct (closing o); [discriminate|].
  destruct (awaiting o); try discriminate.
  unfold ManyLevelGuestIterator._next. rewrite bind_get_state, Ho.
  destruct (reached _ _) eqn:Hr; [discriminate|].
  destruct (kErrored o) eqn:He; [discriminate|]. simpl.
  destruct (kEnded o && _); [discriminate|].
  destruct (length (kPending o) =? 0)%nat; [discriminate|].
  intros H. apply next_body_entry in H. destruct H as (o' & Ho' & H).
  exists o. rewrite Ho in Ho'. injection Ho' as <-. auto.
Qed.

Lemma next_resume_entry it g key value :
  result (ManyLevelGuestIterator.next_resume it g) = NextEntry key value ->
  exists o, heap g !! it = Some o /\ awaiting o = Woken /\
    snd (fst (ManyLevelGuestIterator.pull (kRetry g) (set_awaiting Idle o)))
    = NextEntry key value.
Proof.
  unfold ManyLevelGuestIterator.next_resume. rewrite bind_get_state.
  destruct (heap g !! it) as [o|] eqn:Ho; [|discriminate].
  destruct (awaiting o) eqn:Hw; try discriminate.
  rewrite result_bind. intros H. apply next_body_entry in H.
  destruct H as (o' & Ho' & H).
  unfold put_it, modify, state_after in Ho'. simpl in Ho'.
  rewrite list_lookup_insert_eq in Ho' by (eapply lookup_lt_Some; eauto).
  injection Ho' as <-. exists o. auto.
Qed.

Lemma seek_errored it target g o :
  heap g !! it = Some o -> kErrored o = true ->
  ManyLevelGuestIterator._seek it target g = (tt, g, []).
Proof.
  intros Ho He. unfold ManyLevelGuestIterator._seek.
  rewrite bind_get_state, Ho, He. reflexivity.
Qed.

Lemma seek_lookup it target g o :
  heap g !! it = Some o -> kErrored o = false ->
  heap (state_after (ManyLevelGuestIterator._seek it target g)) !! it
  = Some (ManyLevelGuestIterator.seek_object target o).
Proof.
  intros Ho He. unfold ManyLevelGuestIterator._seek.
  rewrite bind_get_state, Ho, He, state_after_bind, kWrite_spec.
  unfold put_it, modify, state_after. simpl.
  apply list_lookup_insert_eq. eapply lookup_lt_Some; eauto.
Qed.

(** An entry handed out in a reachable state comes from the frame at the
    head of the queue, and that frame carries the iterator's seq. *)
Lemma entry_source g it key value :
  guest_ok g ->
  result (guarded_next it g) = NextEntry key value \/
  result (ManyLevelGuestIterator.next_resume it g) = NextEntry key value ->
  exists o id seq data rest data',
    heap g !! it = Some o /\
    kErrored o = false /\
    kPending o = IteratorData id seq data :: rest /\
    seq = kSeq o /\
    take_entry (it_options (kRequest o)) data = (key, value, data').
Proof.
  intros Hok [H | H].
  - apply guarded_next_entry in H. destruct H as (o & Ho & He & _ & H).
    apply pull_entry in H.
    destruct H as (id & seq & data & rest & data' & Hp & Ht).
    exists o, id, seq, data, rest, data'. repeat split; auto.
    destruct (guest_ok_lookup _ _ _ Hok Ho) as [Hpend].
    rewrite Hp in Hpend. now inversion Hpend.
  - apply next_resume_entry in H. destruct H as (o & Ho & Hw & H).
    apply pull_entry in H. simpl in H.
    destruct H as (id & seq & data & rest & data' & Hp & Ht).
    exists o, id, seq, data, rest, data'.
    destruct (guest_ok_lookup _ _ _ Hok Ho) as [Hpend _ Herr].
    repeat split; auto.
    + destruct (kErrored o); [|reflexivity].
      specialize (Herr eq_refl). congruence.
    + rewrite Hp in Hpend. now inversion Hpend.
Qed.

(** C1: a data, error or end frame whose seq differs from the current
    seq of the iterator it addresses is dropped: the guest state is
    unchanged and nothing is logged.  Consequently, once [_seek] has been
    called on an iterator, every entry that a later [_next] hands out,
    directly or after its suspension, is taken from a queued frame whose
    seq is the iterator's current one and larger than the seq at the
    time of the call: no frame from before the seek is ever read. *)
Theorem stale_frames_discarded :
  (forall g it o res,
      IdMap.get (res_id res) (kIterators g) = Some it ->
      heap g !! it = Some o ->
      kSeq o <> res_seq res ->
      ondata (Some (IteratorFrame res)) g = (tt, g, []) /\
      ondata (Some (IteratorEnd (res_id res) (res_seq res))) g = (tt, g, [])) /\
  (forall g it o target tr key value,
      reachable g ->
      heap g !! it = Some o ->
      let g' := run tr (state_after (ManyLevelGuestIterator._seek it target g)) in
      result (guarded_next it g') = NextEntry key value \/
      result (ManyLevelGuestIterator.next_resume it g') = NextEntry key value ->
      exists o' id seq data rest data',
        heap g' !! it = Some o' /\
        kPending o' = IteratorData id seq data :: rest /\
        seq = kSeq o' /\
        kSeq o < seq /\
        take_entry (it_options (kRequest o')) data = (key, value, data')).
Proof.
  split.
  - intros g it o res Hid Ho Hseq.
    pose proof (get_Some_not_flushed _ _ _ Hid) as Hf.
    apply Z.eqb_neq in Hseq.
    assert (oniteratordata res g = (tt, g, [])) as Hd.
    { unfold oniteratordata. now rewrite bind_get_state, Hid, Ho, Hseq. }
    assert (oniteratorend (res_id res) (res_seq res) g = (tt, g, [])) as Hn.
    { unfold oniteratorend. now rewrite bind_get_state, Hid, Ho, Hseq. }
    unfold ondata, bind, dispatch. rewrite Hd, Hn, kFlushed_spec.
    unfold flush_log. rewrite Hf. auto.
  - intros g it o target tr key value Hg Ho g' Hentry.
    assert (reachable g') as Hg'.
    { unfold g'. apply reachable_run.
      apply (reachable_run [ASeek it target] g Hg). }
    destruct (entry_source _ _ _ _ (reachable_ok _ Hg') Hentry)
      as (o' & id & seq & data & rest & data' & Ho' & He' & Hp & Hs & Ht).
    exists o', id, seq, data, rest, data'. repeat split; auto.
    destruct (step_ok_run tr
                (state_after (ManyLevelGuestIterator._seek it target g)))
      as [_ [_ Hadv]]. fold g' in Hadv.
    destruct (kErrored o) eqn:He.
    + rewrite (seek_errored _ target _ _ Ho He) in Hadv.
      destruct (Hadv _ _ Ho) as (o2 & Ho2 & _ & Herr).
      rewrite Ho' in Ho2. injection Ho2 as <-.
      specialize (Herr He). congruence.
    + destruct (Hadv _ _ (seek_lookup _ target _ _ Ho He))
        as (o2 & Ho2 & Hle & _).
      rewrite Ho' in Ho2. injection Ho2 as <-. simpl in Hle. lia.
Qed.

Lemma stale_frames_discarded_witness :
  let g := run [AIterator scan;
                AData (Some (IteratorFrame (IteratorData 1 0 [[x61]; [x31]])))]
             (constructor false) in
  let g' := run [AData (Some (IteratorFrame (IteratorData 1 0 [[x62]; [x32]])));
                 AData (Some (IteratorFrame (IteratorData 1 1 [[x66]; [x36]])))]
              (state_after (ManyLevelGuestIterator._seek 0 [x66] g)) in
  (ondata (Some (IteratorFrame (IteratorData 1 5 [[x62]; [x32]]))) g
     = (tt, g, []) /\
   ondata (Some (IteratorEnd 1 5)) g = (tt, g, [])) /\
  result (guarded_next 0 g') = NextEntry (Some [x66]) (Some [x36]) /\
  exists o, heap g !! 0%nat = Some o /\
  exists o' id seq data rest data',
    heap g' !! 0%nat = Some o' /\
    kPending o' = IteratorData id seq data :: rest /\
    seq = kSeq o' /\
    kSeq o < seq /\
    take_entry (it_options (kRequest o')) data
      = (Some [x66], Some [x36], data').
Proof.
  split; [|split; [reflexivity|]].
  - eapply (proj1 stale_frames_discarded _ 0%nat _
              (IteratorData 1 5 [[x62]; [x32]])).
    + reflexivity.
    + reflexivity.
    + vm_compute. lia.
  - eexists. split; [reflexivity|].
    eapply (proj2 stale_frames_discarded _ 0%nat _ [x66]).
    + exists false. eexists. reflexivity.
    + reflexivity.
    + left. reflexivity.
Defined.

(** ** Limit and acknowledgement *)

(** [next_body] on a frame that the pulled entry drains. *)
Lemma next_body_drain it o g id seq data rest key value :
  heap g !! it = Some o ->
  kPending o = IteratorData id seq data :: rest ->
  take_entry (it_options (kRequest o)) data = (key, value, []) ->
  let c := it_consumed (kRequest o) + 1 in
  let r := ManyLevelGuestIterator.next_body it g in
  result r = NextEntry key value /\
  kEncode (state_after r)
  = kEncode g ++ (if below c (limit o)
                  then [FIteratorAck (set_ack_consumed c (kAckMessage o))]
                  else []) /\
  exists o', heap (state_after r) !! it = Some o' /\
             it_consumed (kRequest o') = c /\ kPending o' = rest.
Proof.
  intros Ho Hp Ht c r. subst r.
  unfold ManyLevelGuestIterator.next_body.
  rewrite bind_get_state, Ho. unfold ManyLevelGuestIterator.pull.
  rewrite Hp, Ht. fold c.
  destruct (below c (limit o)).
  - rewrite !result_bind, !state_after_bind, kWrite_spec.
    split; [reflexivity|]. split; [reflexivity|].
    eexists. split; [apply (put_it_lookup _ _ _ _ Ho)|].
    destruct (kRetry g); split; reflexivity.
  - rewrite !result_bind, !state_after_bind.
    split; [reflexivity|]. split; [simpl; now rewrite app_nil_r|].
    eexists. split; [apply (put_it_lookup _ _ _ _ Ho)|].
    destruct (kRetry g); split; reflexivity.
Qed.

(** C5: for an iterator with a finite limit, once [consumed] has reached
    the limit or the iterator has errored, [_next] returns the end
    without touching the state; and a pull that drains the frame at the
    head of the queue, whether made directly or on resumption, writes an
    [iteratorAck] with the iterator's id, its current seq and the new
    [consumed] count when that count is below the limit, and writes
    nothing when the count has reached the limit. *)
Theorem limit_and_ack (g : guest) (it : nat) (o : iterator) (l : Z) :
  reachable g ->
  heap g !! it = Some o ->
  o_limit (it_options (kRequest o)) = l ->
  0 <= l ->
  (l <= it_consumed (kRequest o) \/ kErrored o = true ->
   ManyLevelGuestIterator._next it g = (NextEnd, g, [])) /\
  (forall id seq data rest key value,
      kPending o = IteratorData id seq data :: rest ->
      take_entry (it_options (kRequest o)) data = (key, value, []) ->
      it_consumed (kRequest o) < l ->
      kErrored o = false ->
      let c := it_consumed (kRequest o) + 1 in
      let ack := {| ack_id := it_id (kRequest o); ack_seq := kSeq o;
                    ack_consumed := c |} in
      forall r,
        r = ManyLevelGuestIterator._next it g \/
        (awaiting o = Woken /\ r = ManyLevelGuestIterator.next_resume it g) ->
        result r = NextEntry key value /\
        kEncode (state_after r)
        = kEncode g ++ (if c <? l then [FIteratorAck ack] else []) /\
        exists o', heap (state_after r) !! it = Some o' /\
                   it_consumed (kRequest o') = c /\ kPending o' = rest).
Proof.
  intros Hg Ho Hl Hpos.
  destruct (guest_ok_lookup _ _ _ (reachable_ok _ Hg) Ho)
    as [_ _ _ _ Hack_seq Hack_id _ Hlim].
  assert (limit o = Some l) as Hlimit.
  { rewrite Hlim. unfold abstract_limit. rewrite Hl.
    destruct (Z.leb_spec 0 l); [reflexivity | lia]. }
  split.
  - intros Hreached. unfold ManyLevelGuestIterator._next.
    rewrite bind_get_state, Ho, Hlimit. simpl.
    destruct Hreached as [Hc | He].
    + destruct (Z.leb_spec l (it_consumed (kRequest o))); [reflexivity | lia].
    + rewrite He, orb_true_r. reflexivity.
  - intros id seq data rest key value Hp Ht Hc He c ack r Hr.
    assert (set_ack_consumed c (kAckMessage o) = ack) as Hackeq.
    { unfold set_ack_consumed, ack. now rewrite Hack_seq, Hack_id. }
    unfold c in Hackeq.
    destruct Hr as [-> | [Hw ->]].
    + unfold ManyLevelGuestIterator._next.
      rewrite bind_get_state, Ho, Hlimit, He, Hp. simpl.
      destruct (Z.leb_spec l (it_consumed (kRequest o))); [lia|].
      rewrite andb_false_r. simpl.
      pose proof (next_body_drain it o g id seq data rest key value Ho Hp Ht)
        as Hb.
      cbv zeta in Hb. rewrite Hlimit, Hackeq in Hb. exact Hb.
    + unfold ManyLevelGuestIterator.next_resume.
      rewrite bind_get_state, Ho, Hw, result_bind, state_after_bind.
      pose proof (next_body_drain it (set_awaiting Idle o)
                    (state_after (put_it it (set_awaiting Idle o) g))
                    id seq data rest key value
                    (put_it_lookup _ _ _ _ Ho) Hp Ht) as Hb.
      cbv zeta in Hb. simpl limit in Hb. simpl kRequest in Hb.
      simpl kAckMessage in Hb. rewrite Hlimit, Hackeq in Hb. exact Hb.
Qed.

Lemma limit_and_ack_witness :
  let g := run [AIterator (scan_limit 2);
                AData (Some (IteratorFrame (IteratorData 1 0 [[x61]; [x31]])))]
             (constructor false) in
  let r := ManyLevelGuestIterator._next 0 g in
  result r = NextEntry (Some [x61]) (Some [x31]) /\
  kEncode (state_after r)
  = kEncode g ++ [FIteratorAck {| ack_id := 1; ack_seq := 0;
                                   ack_consumed := 1 |}].
Proof.
  intros g r.
  assert (exists o, heap g !! 0%nat = Some o) as [o Ho] by (eexists; reflexivity).
  pose proof (limit_and_ack g 0%nat o 2) as H.
  destruct H as [_ H].
  - exists false. eexists. reflexivity.
  - exact Ho.
  - vm_compute in Ho. injection Ho as <-. reflexivity.
  - lia.
  - vm_compute in Ho. injection Ho as <-.
    destruct (H 1 0 [[x61]; [x31]] [] (Some [x61]) (Some [x31])
                eq_refl eq_refl ltac:(simpl; lia) eq_refl r (or_introl eq_refl))
      as (Hres & Henc & _).
    split; [exact Hres | exact Henc].
Defined.

(** ** Keys and bookmarks under retry *)

Lemma constructor_lookup opts g :
  let r := ManyLevelGuestIterator.constructor opts g in
  result r = length (heap g) /\
  heap (state_after r) !! length (heap g)
  = Some (ManyLevelGuestIterator.new_object (kRetry g) opts
            (snd (IdMap.add (length (heap g)) (kIterators g)))).
Proof.
  unfold ManyLevelGuestIterator.constructor.
  rewrite bind_get_state. unfold IdMap.add. cbv zeta.
  rewrite !result_bind, !state_after_bind, kWrite_spec.
  split; [reflexivity|].
  unfold modify, state_after, result. simpl.
  rewrite lookup_app_r by lia. now rewrite Nat.sub_diag.
Qed.

(** With retry, a pull records the key it returns as the bookmark, and
    with [keys] set that key is the first element of the frame. *)
Lemma next_body_bookmark it o g key value :
  heap g !! it = Some o ->
  kRetry g = true ->
  o_keys (it_options (kRequest o)) = true ->
  let r := ManyLevelGuestIterator.next_body it g in
  result r = NextEntry key value ->
  exists id seq data rest o',
    kPending o = IteratorData id seq data :: rest /\
    key = fst (shift data) /\
    heap (state_after r) !! it = Some o' /\
    it_bookmark (kRequest o') = key.
Proof.
  intros Ho Hr Hk r. subst r.
  unfold ManyLevelGuestIterator.next_body.
  rewrite bind_get_state, Ho, Hr. unfold ManyLevelGuestIterator.pull.
  destruct (kPending o) as [|[id seq data | id seq error] rest].
  - rewrite !result_bind. simpl. destruct (kEnded o); discriminate.
  - unfold take_entry. rewrite Hk.
    destruct (shift data) as [k d1] eqn:Hs.
    destruct (if o_values _ then shift d1 else (None, d1)) as [v d2].
    destruct d2 as [|d d2]; [destruct (below _ _)|];
      rewrite !result_bind, !state_after_bind, ?kWrite_spec;
      intros [= <- <-]; exists id, seq, data, rest; eexists;
      (split; [reflexivity|]); (split; [now rewrite Hs|]);
      (split; [apply (put_it_lookup _ _ _ _ Ho) | reflexivity]).
  - destruct (truthy error); rewrite !result_bind; discriminate.
Qed.

(** C10 (amended): on a guest constructed with retry, the constructor
    of an iterator forces [options.keys] to true whatever the caller
    passed, and leaves the other options alone; the key of every entry
    that [next()] hands out, directly or on resumption, is then the
    first field of the data frame the entry is taken from, and it is
    recorded as the bookmark of the iterator's record.  That key is
    present when the frame holds a field; an entry taken from a frame
    that holds none has no key, and the bookmark is cleared. *)
Theorem retry_forces_keys (g : guest) :
  reachable g ->
  kRetry g = true ->
  (forall opts,
      let r := ManyLevelGuestIterator.constructor opts g in
      exists o, heap (state_after r) !! result r = Some o /\
                it_options (kRequest o) = set_o_keys true opts /\
                o_keys (it_options (kRequest o)) = true) /\
  (forall it key value r,
      (r = guarded_next it g \/ r = ManyLevelGuestIterator.next_resume it g) ->
      result r = NextEntry key value ->
      exists o id seq data rest o',
        heap g !! it = Some o /\
        kPending o = IteratorData id seq data :: rest /\
        key = fst (shift data) /\
        (data <> [] -> exists k, key = Some k) /\
        (data = [] -> key = None) /\
        heap (state_after r) !! it = Some o' /\
        it_bookmark (kRequest o') = key).
Proof.
  intros Hg Hr. split.
  - intros opts r. subst r.
    destruct (constructor_lookup opts g) as [-> ->]. rewrite Hr.
    eexists. split; [reflexivity|]. split; reflexivity.
  - intros it key value r Hcall Hres.
    assert (forall data : list bytes,
               data <> [] -> exists k, fst (shift data) = Some k) as Hne.
    { intros [|k d] Hd; [congruence | now exists k]. }
    destruct Hcall as [-> | ->].
    + pose proof Hres as Hres'. apply guarded_next_entry in Hres'.
      destruct Hres' as (o & Ho & He & Hlim & Hpull).
      pose proof (guest_ok_lookup _ _ _ (reachable_ok _ Hg) Ho) as Hok.
      apply pull_entry in Hpull.
      destruct Hpull as (id0 & seq0 & data0 & rest0 & data' & Hp0 & _).
      revert Hres. unfold guarded_next. rewrite bind_get_state, Ho.
      destruct (closing o); [discriminate|].
      destruct (awaiting o); try discriminate.
      unfold ManyLevelGuestIterator._next.
      rewrite bind_get_state, Ho, Hlim, He, Hp0. simpl.
      rewrite andb_false_r. intros Hres.
      destruct (next_body_bookmark it o g key value Ho Hr
                  (ok_keys _ _ Hok Hr) Hres)
        as (id & seq & data & rest & o' & Hp & Hkey & Ho' & Hb).
      exists o, id, seq, data, rest, o'. repeat split; auto.
      * intros Hd. rewrite Hkey. now apply Hne.
      * intros ->. exact Hkey.
    + pose proof Hres as Hres'. apply next_resume_entry in Hres'.
      destruct Hres' as (o & Ho & Hw & _).
      pose proof (guest_ok_lookup _ _ _ (reachable_ok _ Hg) Ho) as Hok.
      revert Hres. unfold ManyLevelGuestIterator.next_resume.
      rewrite bind_get_state, Ho, Hw, result_bind, state_after_bind.
      intros Hres.
      destruct (next_body_bookmark it (set_awaiting Idle o)
                  (state_after (put_it it (set_awaiting Idle o) g))
                  key value (put_it_lookup _ _ _ _ Ho) Hr
                  (ok_keys _ _ Hok Hr) Hres)
        as (id & seq & data & rest & o' & Hp & Hkey & Ho' & Hb).
      exists o, id, seq, data, rest, o'. repeat split; auto.
      * intros Hd. rewrite Hkey. now apply Hne.
      * intros ->. exact Hkey.
Qed.

Lemma retry_forces_keys_witness :
  let g := run [AIterator scan;
                AData (Some (IteratorFrame (IteratorData 1 0 [[x61]; [x31]])))]
             (constructor true) in
  let r := guarded_next 0 g in
  (exists o,
      heap (state_after (ManyLevelGuestIterator.constructor
                           (set_o_keys false scan) g))
        !! result (ManyLevelGuestIterator.constructor
                     (set_o_keys false scan) g) = Some o /\
      it_options (kRequest o) = set_o_keys true (set_o_keys false scan) /\
      o_keys (it_options (kRequest o)) = true) /\
  exists o id seq data rest o',
    heap g !! 0%nat = Some o /\
    kPending o = IteratorData id seq data :: rest /\
    Some [x61] = fst (shift data) /\
    (data <> [] -> exists k, Some [x61] = Some k) /\
    (data = [] -> Some [x61] = None) /\
    heap (state_after r) !! 0%nat = Some o' /\
    it_bookmark (kRequest o') = Some [x61].
Proof.
  intros g r.
  assert (reachable g) as Hg by (exists true; eexists; reflexivity).
  destruct (retry_forces_keys g Hg eq_refl) as [Hc Hn].
  split.
  - exact (Hc (set_o_keys false scan)).
  - exact (Hn 0%nat (Some [x61]) (Some [x31]) r (or_introl eq_refl) eq_refl).
Defined.

(** C10 (as stated, refuted): on a guest with retry, whose iterators
    have [keys] set, an entry taken from a data frame that holds no
    field carries no key, and the bookmark, which held the key of the
    entry before, is cleared. *)
Lemma empty_frame_entry_has_no_key :
  let g := run [AIterator (set_o_keys false scan);
                AData (Some (IteratorFrame (IteratorData 1 0 [[x61]; [x31]])));
                ANext 0%nat;
                AData (Some (IteratorFrame (IteratorData 1 0 [])))]
             (constructor true) in
  let r := guarded_next 0 g in
  (exists o, heap g !! 0%nat = Some o /\
             o_keys (it_options (kRequest o)) = true /\
             it_bookmark (kRequest o) = Some [x61]) /\
  result r = NextEntry None None /\
  (exists o', heap (state_after r) !! 0%nat = Some o' /\
              it_bookmark (kRequest o') = None) /\
  ~ every_entry_has_key.
Proof.
  intros g r.
  assert (reachable g) as Hg by (exists true; eexists; reflexivity).
  split.
  { eexists. split; [reflexivity|]. split; reflexivity. }
  split; [reflexivity|].
  split.
  { eexists. split; reflexivity. }
  intros H.
  destruct (H g 0%nat None None Hg eq_refl eq_refl) as (k & Hk & _).
  discriminate.
Qed.

(** ** Transport finish and close *)

Lemma get_In_values {A} id (x : A) (m : IdMap.t A) :
  IdMap.get id m = Some x -> In x (IdMap.values m).
Proof.
  intros H. apply map_get_In in H. unfold IdMap.values.
  change x with (snd (id, x)). now apply in_map.
Qed.

Lemma get_valid_ref g id it :
  guest_ok g -> IdMap.get id (kIterators g) = Some it ->
  exists o, heap g !! it = Some o.
Proof.
  intros [_ Hrefs] H. apply map_get_In in H.
  rewrite List.Forall_forall in Hrefs. specialize (Hrefs _ H). simpl in Hrefs.
  destruct (heap g !! it) as [o|] eqn:Ho; [now exists o|].
  apply lookup_ge_None in Ho. lia.
Qed.

Lemma iterator_frames_In h its it o :
  In it its -> h !! it = Some o ->
  In (FIterator (kRequest o)) (iterator_frames h its).
Proof.
  intros Hin Ho. unfold iterator_frames. apply in_flat_map.
  exists it. split; [exact Hin|]. rewrite Ho. now left.
Qed.

Lemma abort_at_other h x it o :
  h !! it = Some o -> x <> it -> abort_at h x !! it = Some o.
Proof.
  intros Ho Hne. rewrite (abort_at_lookup h x it o Ho).
  destruct (decide (x = it)); [congruence | reflexivity].
Qed.

Lemma abort_at_self h it o :
  h !! it = Some o -> abort_at h it !! it = Some (abort_object o).
Proof.
  intros Ho. rewrite (abort_at_lookup h it it o Ho).
  destruct (decide (it = it)); [reflexivity | congruence].
Qed.

(** The [next()] in which an iterator of the list is waiting is
    rejected. *)
Lemma abort_log_In err its h it o :
  In it its -> h !! it = Some o -> kCallback o && is_waiting o = true ->
  In (NextRejected it err) (abort_log err its h).
Proof.
  revert h. induction its as [|x its IH]; intros h Hin Ho Hw; simpl.
  - destruct Hin.
  - apply in_or_app. destruct (decide (x = it)) as [->|Hne].
    + left. rewrite Ho, Hw. now left.
    + right. destruct Hin as [-> | Hin]; [congruence|].
      apply IH; [exact Hin | | exact Hw]. now apply abort_at_other.
Qed.

(** No call is rejected for an iterator that is not waiting. *)
Lemma abort_log_not_waiting err err' its h it o :
  h !! it = Some o -> awaiting o <> Waiting ->
  ~ In (NextRejected it err') (abort_log err its h).
Proof.
  revert h o. induction its as [|x its IH]; intros h o Ho Hw; simpl; [tauto|].
  intros Hin. apply in_app_or in Hin. destruct Hin as [Hin | Hin].
  - destruct (decide (x = it)) as [->|Hne].
    + rewrite Ho in Hin.
      assert (kCallback o && is_waiting o = false) as Hrej.
      { unfold is_waiting. destruct (awaiting o); try congruence;
          apply andb_false_r. }
      rewrite Hrej in Hin. destruct Hin.
    + destruct (h !! x) as [ox|]; [|destruct Hin].
      destruct (kCallback ox && is_waiting ox); [|destruct Hin].
      destruct Hin as [[=]|[]]. congruence.
  - destruct (decide (x = it)) as [->|Hne].
    + apply (IH _ _ (abort_at_self _ _ _ Ho)); [|exact Hin].
      unfold abort_object, is_waiting. simpl.
      destruct (awaiting o); try congruence;
        rewrite ?andb_false_r; simpl; congruence.
    + apply (IH _ _ (abort_at_other _ _ _ _ Ho Hne) Hw Hin).
Qed.

(** The frame of an iterator of the list that was idle and not closed is
    written by the loop, the frame of one whose call was rejected is
    written later, and only [iteratorClose] frames are written. *)
Lemma abort_sync_frames_In its h it o :
  In it its -> h !! it = Some o ->
  awaiting o = Idle -> closing o = false ->
  In (FIteratorClose (it_id (kRequest o))) (abort_sync_frames its h).
Proof.
  revert h. induction its as [|x its IH]; intros h Hin Ho Hi Hc; simpl.
  - destruct Hin.
  - apply in_or_app. destruct (decide (x = it)) as [->|Hne].
    + left. rewrite Ho. unfold is_waiting, is_idle.
      rewrite Hi, Hc, andb_false_r. now left.
    + right. destruct Hin as [-> | Hin]; [congruence|].
      apply IH; auto. now apply abort_at_other.
Qed.

Lemma abort_late_frames_In its h it o :
  In it its -> h !! it = Some o -> kCallback o && is_waiting o = true ->
  In (FIteratorClose (it_id (kRequest o))) (abort_late_frames its h).
Proof.
  revert h. induction its as [|x its IH]; intros h Hin Ho Hw; simpl.
  - destruct Hin.
  - apply in_or_app. destruct (decide (x = it)) as [->|Hne].
    + left. rewrite Ho, Hw. now left.
    + right. destruct Hin as [-> | Hin]; [congruence|].
      apply IH; auto. now apply abort_at_other.
Qed.

(** [next()] is refused on an iterator that has been closed. *)
Lemma guarded_next_closed it o g :
  heap g !! it = Some o -> closing o = true ->
  guarded_next it g = (NextNotOpen, g, []).
Proof.
  intros Ho Hc. unfold guarded_next. now rewrite bind_get_state, Ho, Hc.
Qed.

(** What the abort of the iterators of a reachable guest comes to, for
    one iterator of the map. *)
Lemma abort_of_iterator g id it err :
  guest_ok g ->
  IdMap.get id (kIterators g) = Some it ->
  let its := IdMap.values (kIterators g) in
  exists o o',
    heap g !! it = Some o /\
    abort_heap its (heap g) !! it = Some o' /\
    closing o' = true /\ kCallback o' = false /\
    (awaiting o = Waiting ->
     In (NextRejected it err) (abort_log err its (heap g)) /\
     In (FIteratorClose (it_id (kRequest o)))
        (abort_late_frames its (heap g))) /\
    (awaiting o <> Waiting ->
     forall err', ~ In (NextRejected it err') (abort_log err its (heap g))) /\
    (awaiting o = Idle -> closing o = false ->
     In (FIteratorClose (it_id (kRequest o)))
        (abort_sync_frames its (heap g))).
Proof.
  intros Hok H its.
  destruct (get_valid_ref _ _ _ Hok H) as [o Ho].
  pose proof (get_In_values _ _ _ H) as Hin. fold its in Hin.
  destruct (abort_heap_advances its _ _ _ Ho) as (o' & Ho' & _ & _ & Hc).
  destruct (Hc (or_introl Hin)) as [Hcl Hcb].
  pose proof (ok_waiting _ _ (guest_ok_lookup _ _ _ Hok Ho)) as Hcall.
  exists o, o'. repeat split; auto.
  - eapply abort_log_In; eauto.
    unfold is_waiting. now rewrite H0, (Hcall H0).
  - eapply abort_late_frames_In; eauto.
    unfold is_waiting. now rewrite H0, (Hcall H0).
  - intros Hw err'. now apply (abort_log_not_waiting _ _ _ _ _ o).
  - intros Hi Hn. eapply abort_sync_frames_In; eauto.
Qed.

(** C2: with retry enabled, a transport finish keeps the requests map,
    the iterators map and the iterator objects, detaches the proxy, and
    writes to the fresh encoder one frame per pending request followed
    by one frame per iterator record; the frame of an iterator is its
    record as it stands, whose seq is the iterator's current seq and
    whose bookmark and seek are those of the record.  The next
    [createRpcStream] succeeds and attaches with these frames in the
    encoder and the maps still in place. *)
Theorem retry_replays (g : guest) :
  reachable g ->
  kRetry g = true ->
  let g' := state_after (cleanup g) in
  kRequests g' = kRequests g /\
  kIterators g' = kIterators g /\
  heap g' = heap g /\
  kRpcStream g' = None /\
  kEncode g'
  = map FRequest (IdMap.values (kRequests g))
    ++ iterator_frames (heap g) (IdMap.values (kIterators g)) /\
  (forall id req,
      IdMap.get id (kRequests g) = Some req -> In (FRequest req) (kEncode g')) /\
  (forall id it,
      IdMap.get id (kIterators g) = Some it ->
      exists o frame,
        heap g !! it = Some o /\
        In (FIterator frame) (kEncode g') /\
        it_seq frame = kSeq o /\
        it_bookmark frame = it_bookmark (kRequest o) /\
        it_seek frame = it_seek (kRequest o)) /\
  (forall opts_ref,
      let r := createRpcStream opts_ref g' in
      exists proxy,
        result r = inr proxy /\
        kRpcStream (state_after r) = Some proxy /\
        kEncode (state_after r) = kEncode g' /\
        kRequests (state_after r) = kRequests g /\
        kIterators (state_after r) = kIterators g).
Proof.
  intros Hg Hr g'. subst g'.
  destruct (cleanup_retry_spec g Hr) as (evs & -> & _).
  unfold state_after. simpl.
  repeat (split; [reflexivity|]).
  split; [|split].
  - intros id req H. apply in_or_app. left. apply in_map.
    eapply get_In_values; eauto.
  - intros id it H.
    destruct (get_valid_ref _ _ _ (reachable_ok _ Hg) H) as [o Ho].
    exists o, (kRequest o). split; [exact Ho|]. split.
    + apply in_or_app. right. eapply iterator_frames_In; eauto.
      eapply get_In_values; eauto.
    + split; [|auto].
      apply (ok_req_seq _ _ (guest_ok_lookup _ _ _ (reachable_ok _ Hg) Ho)).
  - intros opts_ref. exists (streams g). repeat split.
Qed.

Lemma retry_replays_witness :
  let g := run [ACreateRpcStream false; ACall (Get [x61]); AIterator scan;
                AData (Some (IteratorFrame (IteratorData 1 0 [[x61]; [x31]])));
                ANext 0%nat]
             (constructor true) in
  let g' := state_after (cleanup g) in
  kRequests g' = kRequests g /\
  kIterators g' = kIterators g /\
  kEncode g'
  = [FRequest {| req_id := 1; req_op := Get [x61] |};
     FIterator {| it_id := 1; it_seq := 0; it_options := scan;
                  it_consumed := 1; it_bookmark := Some [x61];
                  it_seek := None |}].
Proof.
  intros g g'.
  assert (reachable g) as Hg by (exists true; eexists; reflexivity).
  destruct (retry_replays g Hg eq_refl) as (H1 & H2 & _ & _ & H5 & _).
  split; [exact H1|]. split; [exact H2 | exact H5].
Defined.




(** [_close] in one equation. *)
Lemma close_spec g :
  let err := {| message := "Aborted on database close()";
                code := "LEVEL_DATABASE_NOT_OPEN" |} in
  let its := IdMap.values (kIterators g) in
  _close g
  = (match kRpcStream g with
     | Some _ => inl ThrowTypeError
     | None => inr tt
     end,
     set_kEncode (kEncode g ++ abort_frames its (heap g))
       (set_heap (abort_heap its (heap g))
          (set_kIterators IdMap.empty
             (set_kRequests IdMap.empty (set_kExplicitClose true g)))),
     (map (fun req => RequestCallback req (CbError err))
        (IdMap.values (kRequests g))
      ++ abort_log err its (heap g))
     ++ match kRpcStream g with
        | Some proxy => [Destroyed proxy]
        | None => if kDb g then [DbClosed] else []
        end
     ++ flush_blocks (kRef g) (length (abort_frames its (heap g)))).
Proof.
  intros err its.
  unfold _close, bind at 1, modify at 1. unfold bind at 1.
  rewrite kAbortRequests_spec. cbv zeta.
  change (kIterators (set_kExplicitClose true g)) with (kIterators g).
  change (heap (set_kExplicitClose true g)) with (heap g).
  change (kRequests (set_kExplicitClose true g)) with (kRequests g).
  change (kRef (set_kExplicitClose true g)) with (kRef g).
  fold its. fold err.
  set (g1 := set_kEncode _ (set_heap _ _)).
  rewrite bind_get_state.
  change (kRpcStream g1) with (kRpcStream g).
  change (kDb g1) with (kDb g).
  pose proof (run_pending_abort its (heap g) g1 eq_refl eq_refl) as Hrun.
  rewrite abort_frames_length.
  assert (set_kEncode (kEncode g1 ++ abort_late_frames its (heap g)) g1
          = set_kEncode (kEncode g ++ abort_frames its (heap g))
              (set_heap (abort_heap its (heap g))
                 (set_kIterators IdMap.empty
                    (set_kRequests IdMap.empty (set_kExplicitClose true g)))))
    as Hstate.
  { subst g1. unfold abort_frames. simpl. rewrite <- app_assoc.
    now destruct g. }
  specialize (Hrun (fun it o Ho => abort_heap_ids its _ _ _ Ho)).
  change (kRef g1) with (kRef g) in Hrun.
  destruct (kRpcStream g) as [proxy|]; [|destruct (kDb g)];
    unfold bind, when, emit, ret; rewrite Hrun, Hstate; simpl;
    now rewrite ?app_nil_r.
Qed.

(** C7 (amended): [_close] invokes the callback of every pending request
    with a [LEVEL_DATABASE_NOT_OPEN] error and rejects with the same
    error the [next()] that an iterator of the map is waiting in; an
    iterator with no call waiting is given no error.  Every iterator of
    the map is closed: [next()] is refused on it from then on, and the
    [iteratorClose] frame of an iterator that was idle and not closed
    before is written.  Both maps are left empty, the close is
    recorded, and [destroy()] is called on the attached rpc stream. *)
Theorem close_aborts (g : guest) :
  reachable g ->
  let r := _close g in
  let err := {| message := "Aborted on database close()";
                code := "LEVEL_DATABASE_NOT_OPEN" |} in
  (forall id req,
      IdMap.get id (kRequests g) = Some req ->
      In (RequestCallback req (CbError err)) (events r)) /\
  (forall id it,
      IdMap.get id (kIterators g) = Some it ->
      exists o o',
        heap g !! it = Some o /\
        heap (state_after r) !! it = Some o' /\
        closing o' = true /\ kCallback o' = false /\
        (awaiting o = Waiting -> In (NextRejected it err) (events r)) /\
        (awaiting o <> Waiting ->
         forall err', ~ In (NextRejected it err') (events r)) /\
        (awaiting o = Idle -> closing o = false ->
         In (FIteratorClose (it_id (kRequest o))) (kEncode (state_after r))) /\
        guarded_next it (state_after r) = (NextNotOpen, state_after r, [])) /\
  (forall proxy,
      kRpcStream g = Some proxy -> In (Destroyed proxy) (events r)) /\
  IdMap._map (kRequests (state_after r)) = [] /\
  IdMap._map (kIterators (state_after r)) = [] /\
  kExplicitClose (state_after r) = true.
Proof.
  intros Hg r err. subst r. rewrite close_spec.
  unfold events, state_after. cbn [fst snd].
  set (its := IdMap.values (kIterators g)) in *.
  split; [|split; [|split; [|auto]]].
  - intros id req H. apply in_or_app. left. apply in_or_app. left.
    apply (in_map (fun req => RequestCallback req (CbError err))).
    eapply get_In_values; eauto.
  - intros id it H.
    destruct (abort_of_iterator g id it err (reachable_ok _ Hg) H)
      as (o & o' & Ho & Ho' & Hcl & Hcb & Hrej & Hnot & Hframe).
    fold its in Ho', Hrej, Hnot, Hframe.
    exists o, o'. split; [exact Ho|]. split; [exact Ho'|].
    split; [exact Hcl|]. split; [exact Hcb|]. split; [|split; [|split]].
    + intros Hw. apply in_or_app. left. apply in_or_app. right.
      now apply Hrej.
    + intros Hw err' Hin. apply in_app_or in Hin.
      destruct Hin as [Hin | Hin].
      * apply in_app_or in Hin. destruct Hin as [Hin | Hin].
        -- apply in_map_iff in Hin. destruct Hin as (? & [=] & _).
        -- exact (Hnot Hw err' Hin).
      * apply in_app_or in Hin. destruct Hin as [Hin | Hin].
        -- destruct (kRpcStream g); [|destruct (kDb g)]; simpl in Hin;
             intuition discriminate.
        -- apply flush_blocks_In in Hin. destruct Hin; discriminate.
    + intros Hi Hn. simpl. apply in_or_app. right.
      unfold abort_frames. apply in_or_app. left. now apply Hframe.
    + now apply (guarded_next_closed it o').
  - intros proxy ->. apply in_or_app. right. now left.
Qed.

Lemma close_aborts_witness :
  let g := run [ACreateRpcStream false; ACall (Get [x61]); ACall (Put [x62] [x32]);
                AIterator scan; ANext 0%nat; AIterator scan]
             (constructor true) in
  let r := _close g in
  let err := {| message := "Aborted on database close()";
                code := "LEVEL_DATABASE_NOT_OPEN" |} in
  (In (RequestCallback {| req_id := 1; req_op := Get [x61] |} (CbError err))
      (events r) /\
   In (RequestCallback {| req_id := 2; req_op := Put [x62] [x32] |}
         (CbError err)) (events r)) /\
  In (NextRejected 0 err) (events r) /\
  ~ In (NextRejected 1 err) (events r) /\
  In (FIteratorClose 2) (kEncode (state_after r)) /\
  guarded_next 1 (state_after r) = (NextNotOpen, state_after r, []) /\
  In (Destroyed 0) (events r) /\
  IdMap._map (kRequests (state_after r)) = [] /\
  IdMap._map (kIterators (state_after r)) = [].
Proof.
  intros g r err.
  assert (reachable g) as Hg by (exists true; eexists; reflexivity).
  destruct (close_aborts g Hg) as (Hreq & Hit & Hd & H4 & H5 & _).
  fold r in Hreq, Hit, Hd, H4, H5.
  destruct (Hit 1 0%nat eq_refl)
    as (o0 & o0' & Ho0 & _ & _ & _ & Hrej & _).
  destruct (Hit 2 1%nat eq_refl)
    as (o1 & o1' & Ho1 & _ & _ & _ & _ & Hnot & Hf1 & Hnext).
  vm_compute in Ho0. injection Ho0 as <-.
  vm_compute in Ho1. injection Ho1 as <-.
  split; [|split; [|split; [|split; [|split; [|split; [|split]]]]]].
  - split.
    + apply (Hreq 1). reflexivity.
    + apply (Hreq 2). reflexivity.
  - apply Hrej. reflexivity.
  - apply Hnot. discriminate.
  - apply Hf1; reflexivity.
  - exact Hnext.
  - apply (Hd 0%nat). reflexivity.
  - exact H4.
  - exact H5.
Defined.

(** C7 (as stated, refuted): an iterator of the map that has no call
    waiting is not failed with [LEVEL_DATABASE_NOT_OPEN] by [_close]: no
    call of it is rejected, and the error that its next [next()] meets
    is that of a closed iterator. *)
Lemma close_spares_idle_iterator :
  let g := run [ACreateRpcStream false; AIterator scan] (constructor false) in
  let r := discard _close g in
  (reachable g /\
   IdMap.get 1 (kIterators g) = Some 0%nat /\
   (forall err, ~ In (NextRejected 0 err) (events r)) /\
   guarded_next 0 (state_after r) = (NextNotOpen, state_after r, [])) /\
  ~ (forall g, reachable g ->
               fails_every_iterator (discard _close)
                 "LEVEL_DATABASE_NOT_OPEN" g).
Proof.
  intros g r.
  assert (reachable g) as Hg by (exists false; eexists; reflexivity).
  assert (forall err, ~ In (NextRejected 0 err) (events r)) as Hnone.
  { intros err Hin. vm_compute in Hin. intuition discriminate. }
  split.
  - split; [exact Hg|]. split; [reflexivity|].
    split; [exact Hnone | vm_compute; reflexivity].
  - intros H. destruct (H g Hg 1 0%nat eq_refl) as (msg & [Hin | Hres]).
    + exact (Hnone _ Hin).
    + vm_compute in Hres. discriminate.
Qed.

(** * Further properties *)

(** ** IdMap as a map *)

Lemma map_get_set_ne {A} id id' (item : A) l :
  id' <> id -> IdMap.map_get id' (IdMap.map_set id item l) = IdMap.map_get id' l.
Proof.
  intros Hne. induction l as [|[k v] l IH]; simpl.
  - destruct (Z.eqb_spec id id'); [congruence | reflexivity].
  - destruct (Z.eqb_spec k id) as [->|Hk]; simpl.
    + destruct (Z.eqb_spec id id'); [congruence | reflexivity].
    + rewrite IH. reflexivity.
Qed.

Lemma map_get_None_keys {A} id (l : list (Z * A)) :
  IdMap.map_get id l = None <-> ~ In id (map fst l).
Proof.
  induction l as [|[k v] l IH]; simpl; [tauto|].
  destruct (Z.eqb_spec k id) as [->|Hk].
  - split; [discriminate | tauto].
  - rewrite IH. tauto.
Qed.

Lemma map_set_keys_fresh {A} id (item : A) l :
  IdMap.map_get id l = None -> IdMap.map_set id item l = l ++ [(id, item)].
Proof.
  induction l as [|[k v] l IH]; simpl; [reflexivity|].
  destruct (k =? id); [discriminate|]. intros H. now rewrite IH.
Qed.

Lemma map_set_keys_live {A} id (item old : A) l :
  IdMap.map_get id l = Some old ->
  map fst (IdMap.map_set id item l) = map fst l.
Proof.
  induction l as [|[k v] l IH]; simpl; [discriminate|].
  destruct (k =? id) eqn:E; simpl; [reflexivity|].
  intros H. now rewrite IH.
Qed.

Lemma map_delete_fresh_last {A} id (item : A) l :
  IdMap.map_get id l = None -> IdMap.map_delete id (l ++ [(id, item)]) = l.
Proof.
  induction l as [|[k v] l IH]; simpl.
  - now rewrite Z.eqb_refl.
  - destruct (k =? id); [discriminate|]. intros H. now rewrite IH.
Qed.

Lemma map_delete_keys_subset {A} id (l : list (Z * A)) k :
  In k (map fst (IdMap.map_delete id l)) -> In k (map fst l).
Proof.
  induction l as [|[k' v] l IH]; simpl; [tauto|].
  destruct (k' =? id); simpl; tauto.
Qed.

Lemma map_delete_unique {A} id (l : list (Z * A)) :
  List.NoDup (map fst l) -> List.NoDup (map fst (IdMap.map_delete id l)).
Proof.
  induction l as [|[k v] l IH]; simpl; [auto|].
  intros Hnd. apply List.NoDup_cons_iff in Hnd as [Hk Hnd].
  destruct (k =? id); simpl; [exact Hnd|].
  apply List.NoDup_cons_iff. split; [|auto].
  intros Hin. apply Hk. eapply map_delete_keys_subset; eauto.
Qed.

Lemma map_get_delete_eq {A} id (l : list (Z * A)) :
  List.NoDup (map fst l) -> IdMap.map_get id (IdMap.map_delete id l) = None.
Proof.
  induction l as [|[k v] l IH]; simpl; [reflexivity|].
  intros Hnd. apply List.NoDup_cons_iff in Hnd as [Hk Hnd].
  destruct (Z.eqb_spec k id) as [->|Hne].
  - now apply map_get_None_keys.
  - simpl. destruct (Z.eqb_spec k id); [congruence | auto].
Qed.

Lemma map_get_delete_ne {A} id id' (l : list (Z * A)) :
  id' <> id -> IdMap.map_get id' (IdMap.map_delete id l) = IdMap.map_get id' l.
Proof.
  intros Hne. induction l as [|[k v] l IH]; simpl; [reflexivity|].
  destruct (Z.eqb_spec k id) as [->|Hk]; simpl.
  - destruct (Z.eqb_spec id id'); [congruence | reflexivity].
  - now rewrite IH.
Qed.

Lemma map_delete_length {A} id (x : A) (l : list (Z * A)) :
  IdMap.map_get id l = Some x ->
  length l = S (length (IdMap.map_delete id l)).
Proof.
  induction l as [|[k v] l IH]; simpl; [discriminate|].
  destruct (k =? id); [reflexivity|]. intros H. simpl. now rewrite <- IH.
Qed.

Lemma map_set_unique {A} id (item : A) l :
  List.NoDup (map fst l) -> List.NoDup (map fst (IdMap.map_set id item l)).
Proof.
  intros Hnd. destruct (IdMap.map_get id l) as [old|] eqn:Hg.
  - now rewrite (map_set_keys_live _ _ _ _ Hg).
  - rewrite (map_set_keys_fresh _ _ _ Hg), map_app. simpl.
    apply List.NoDup_app; [exact Hnd | |].
    + apply List.NoDup_cons_iff. split; [intros [] | constructor].
    + intros k Hk [<- | []]. now apply map_get_None_keys in Hg.
Qed.

(** X1: [add] stores the item under the id it returns and leaves the
    records of all other ids as they were; the size grows by one when
    the id was free and stays the same when it was taken, in which case
    the record that lived there is replaced: [add] does not look for a
    free id. *)
Theorem add_stores_or_replaces {A : Type} (item : A) (m : IdMap.t A) :
  let m' := fst (IdMap.add item m) in
  let id := snd (IdMap.add item m) in
  IdMap.get id m' = Some item /\
  (forall id', id' <> id -> IdMap.get id' m' = IdMap.get id' m) /\
  IdMap.size m' = match IdMap.get id m with
                  | Some _ => IdMap.size m
                  | None => IdMap.size m + 1
                  end /\
  (keys_unique m -> keys_unique m').
Proof.
  unfold IdMap.add, IdMap.get, IdMap.size, keys_unique. simpl.
  set (id := (if 4294967295 <=? IdMap._seq m then 0 else IdMap._seq m) + 1).
  split; [apply map_get_set_eq|]. split; [|split].
  - intros id' Hne. now apply map_get_set_ne.
  - destruct (IdMap.map_get id (IdMap._map m)) as [old|] eqn:Hg.
    + pose proof (map_set_keys_live id item old _ Hg) as Hk.
      apply (f_equal (@length Z)) in Hk. rewrite !length_map in Hk. lia.
    + rewrite (map_set_keys_fresh _ _ _ Hg), length_app. simpl. lia.
  - apply map_set_unique.
Qed.

Lemma add_stores_or_replaces_witness :
  let m := IdMap.mk [(1, "old"%string); (2, "other"%string)] 4294967295 in
  let m' := fst (IdMap.add "new"%string m) in
  snd (IdMap.add "new"%string m) = 1 /\
  IdMap.get 1 m' = Some "new"%string /\
  IdMap.get 2 m' = Some "other"%string /\
  IdMap.size m' = IdMap.size m /\
  keys_unique m'.
Proof.
  intros m m'.
  destruct (add_stores_or_replaces "new"%string m) as (H1 & H2 & H3 & H4).
  split; [reflexivity|]. split; [exact H1|]. split.
  - apply (H2 2). vm_compute. discriminate.
  - split; [exact H3|]. apply H4. vm_compute.
    repeat constructor; simpl; intuition discriminate.
Defined.

(** X2: on a map with distinct keys, [remove] returns the record stored
    under the id, if any; afterwards the id is free, every other id
    holds what it held, the keys are still distinct, and the size has
    dropped by one exactly when a record was returned.  Removing an id
    that is not in the map changes nothing. *)
Theorem remove_frees_id {A : Type} (id : Z) (m : IdMap.t A) :
  keys_unique m ->
  let item := fst (IdMap.remove id m) in
  let m' := snd (IdMap.remove id m) in
  item = IdMap.get id m /\
  IdMap.get id m' = None /\
  (forall id', id' <> id -> IdMap.get id' m' = IdMap.get id' m) /\
  keys_unique m' /\
  IdMap.size m = IdMap.size m' + match item with Some _ => 1 | None => 0 end /\
  (item = None -> m' = m).
Proof.
  unfold IdMap.remove, IdMap.get, IdMap.size, keys_unique. intros Hnd.
  destruct (IdMap.map_get id (IdMap._map m)) as [x|] eqn:Hg; simpl.
  - split; [reflexivity|]. split; [now apply map_get_delete_eq|].
    split; [intros; now apply map_get_delete_ne|].
    split; [now apply map_delete_unique|]. split; [|discriminate].
    rewrite (map_delete_length _ _ _ Hg). lia.
  - repeat split; auto. lia.
Qed.

Lemma remove_frees_id_witness :
  let m := IdMap.mk [(1, "a"%string); (2, "b"%string); (3, "c"%string)] 3 in
  fst (IdMap.remove 2 m) = Some "b"%string /\
  IdMap.get 2 (snd (IdMap.remove 2 m)) = None /\
  IdMap.get 3 (snd (IdMap.remove 2 m)) = Some "c"%string /\
  IdMap.size (snd (IdMap.remove 2 m)) = 2.
Proof.
  intros m.
  assert (keys_unique m) as Hu.
  { vm_compute. repeat constructor; simpl; intuition discriminate. }
  destruct (remove_frees_id 2 m Hu) as (H1 & H2 & H3 & _ & H5 & _).
  split; [exact H1|]. split; [exact H2|]. split.
  - rewrite (H3 3); [reflexivity | discriminate].
  - reflexivity.
Defined.

(** X3: adding an item under a free id and removing that id again gives
    the item back and restores the records of the map, in their order;
    only the counter has moved on. *)
Theorem add_then_remove {A : Type} (item : A) (m : IdMap.t A) :
  IdMap.get (snd (IdMap.add item m)) m = None ->
  let id := snd (IdMap.add item m) in
  let r := IdMap.remove id (fst (IdMap.add item m)) in
  fst r = Some item /\
  IdMap._map (snd r) = IdMap._map m /\
  IdMap._seq (snd r) = id.
Proof.
  unfold IdMap.add, IdMap.get, IdMap.remove. simpl.
  set (id := (if 4294967295 <=? IdMap._seq m then 0 else IdMap._seq m) + 1).
  intros Hfree. rewrite map_get_set_eq. simpl.
  rewrite (map_set_keys_fresh _ _ _ Hfree), (map_delete_fresh_last _ _ _ Hfree).
  auto.
Qed.

Lemma add_then_remove_witness :
  let m := IdMap.mk [(1, "a"%string); (3, "c"%string)] 3 in
  let r := IdMap.remove 4 (fst (IdMap.add "d"%string m)) in
  fst r = Some "d"%string /\
  IdMap._map (snd r) = [(1, "a"%string); (3, "c"%string)] /\
  IdMap._seq (snd r) = 4.
Proof.
  intros m. apply (add_then_remove "d"%string m). reflexivity.
Defined.

(** ** A second invariant: ids and counts *)

Lemma grows_refl g : grows g g.
Proof. intros it o H. exists o. repeat split; auto; lia. Qed.

Lemma step2_refl g : step2 g g.
Proof. intros H. split; [exact H | apply grows_refl]. Qed.

Lemma step2_trans g1 g2 g3 : step2 g1 g2 -> step2 g2 g3 -> step2 g1 g3.
Proof.
  intros H12 H23 Hs. destruct (H12 Hs) as [Hs2 Hg12].
  destruct (H23 Hs2) as [Hs3 Hg23]. split; [exact Hs3|].
  intros it o Ho. destruct (Hg12 it o Ho) as (o2 & Ho2 & Hid & Hop & Hl & Hc).
  destruct (Hg23 it o2 Ho2) as (o3 & Ho3 & Hid' & Hop' & Hl' & Hc').
  exists o3. repeat split; try congruence. lia.
Qed.

Lemma step2_same g g' :
  heap g' = heap g -> kRequests g' = kRequests g ->
  kIterators g' = kIterators g -> step2 g g'.
Proof.
  intros Hh Hq Hi [H1 H2 H3 H4 H5 H6 H7]. split.
  - constructor; rewrite ?Hh, ?Hq, ?Hi; auto.
  - intros it o Ho. exists o. rewrite Hh. repeat split; auto; lia.
Qed.

(** Replacing one object by a sound one with the same identity. *)
Lemma step2_put g g' it o o' :
  heap g !! it = Some o ->
  heap g' = <[it := o']> (heap g) ->
  kRequests g' = kRequests g -> kIterators g' = kIterators g ->
  (object_sound o -> object_sound o') ->
  it_id (kRequest o') = it_id (kRequest o) ->
  it_options (kRequest o') = it_options (kRequest o) ->
  limit o' = limit o ->
  it_consumed (kRequest o) <= it_consumed (kRequest o') ->
  step2 g g'.
Proof.
  intros Ho Hh Hq Hi Hok Hid Hop Hl Hc [H1 H2 H3 H4 H5 H6 H7].
  assert (grows g g') as Hg.
  { intros j oj Hj. rewrite Hh. destruct (decide (it = j)) as [->|Hne].
    - exists o'. rewrite list_lookup_insert_eq by (eapply lookup_lt_Some; eauto).
      assert (oj = o) by congruence. subst. auto.
    - exists oj. rewrite list_lookup_insert_ne by exact Hne.
      repeat split; auto; lia. }
  split; [|exact Hg].
  constructor; rewrite ?Hq, ?Hi; auto.
  - rewrite Hh. apply Forall_insert; [exact H1|]. apply Hok.
    eapply Forall_lookup_1; eauto.
  - intros id j Hin. destruct (H7 id j Hin) as (Hr & oj & Hj & Hidj).
    split; [exact Hr|]. destruct (Hg j oj Hj) as (oj' & Hj' & Hid' & _).
    exists oj'. split; [exact Hj' | congruence].
Qed.

Lemma step2_put_it g it o o' :
  heap g !! it = Some o ->
  (object_sound o -> object_sound o') ->
  it_id (kRequest o') = it_id (kRequest o) ->
  it_options (kRequest o') = it_options (kRequest o) ->
  limit o' = limit o ->
  it_consumed (kRequest o) <= it_consumed (kRequest o') ->
  step2 g (state_after (put_it it o' g)).
Proof. intros. eapply step2_put; eauto. Qed.

Lemma keeps_ret {A} (a : A) : keeps (ret a).
Proof. intros g. apply step2_refl. Qed.

Lemma keeps_bind {A B} (m : M A) (k : A -> M B) :
  keeps m -> (forall a, keeps (k a)) -> keeps (bind m k).
Proof.
  intros Hm Hk g. rewrite state_after_bind.
  eapply step2_trans; [apply Hm | apply Hk].
Qed.

Lemma keeps_get_state : keeps get_state.
Proof. intros g. apply step2_refl. Qed.

Lemma keeps_emit e : keeps (emit e).
Proof. intros g. apply step2_refl. Qed.

Lemma keeps_modify f :
  (forall g, heap (f g) = heap g /\ kRequests (f g) = kRequests g /\
             kIterators (f g) = kIterators g) ->
  keeps (modify f).
Proof. intros H g. destruct (H g) as (? & ? & ?). now apply step2_same. Qed.

Lemma keeps_when b m : keeps m -> keeps (when b m).
Proof. intros H. destruct b; [exact H | apply keeps_ret]. Qed.

Lemma keeps_discard {A} (m : M A) : keeps m -> keeps (discard m).
Proof. intros H. apply keeps_bind; [exact H | intros; apply keeps_ret]. Qed.

Lemma keeps_kWrite req : keeps (kWrite req).
Proof. intros g. rewrite kWrite_spec. now apply step2_same. Qed.

Lemma keeps_kFlushed : keeps kFlushed.
Proof. intros g. rewrite kFlushed_spec. apply step2_refl. Qed.

Create HintDb keeps.
#[local] Hint Resolve keeps_ret keeps_get_state keeps_emit keeps_when
  keeps_discard keeps_kWrite keeps_kFlushed : keeps.

Ltac keeps_modify := apply keeps_modify; intros; simpl; auto.

Lemma object_sound_abort o : object_sound o -> object_sound (abort_object o).
Proof.
  intros [H1 H2 H3 H4]. unfold abort_object, is_waiting.
  constructor; simpl; auto.
  intros l Hl Hw. apply (H4 l Hl).
  destruct (kCallback o), (awaiting o); simpl in *; congruence.
Qed.

Lemma abort_at_sound h it :
  Forall object_sound h -> Forall object_sound (abort_at h it).
Proof.
  intros H. unfold abort_at. destruct (h !! it) as [o|] eqn:Ho; [|exact H].
  apply Forall_insert; [exact H|]. apply object_sound_abort.
  eapply Forall_lookup_1; eauto.
Qed.

Lemma abort_heap_sound its h :
  Forall object_sound h -> Forall object_sound (abort_heap its h).
Proof.
  revert h. induction its as [|it its IH]; intros h H; simpl; [exact H|].
  apply IH, abort_at_sound, H.
Qed.

Lemma abort_heap_same its h j o :
  h !! j = Some o ->
  exists o', abort_heap its h !! j = Some o' /\
             kRequest o' = kRequest o /\ limit o' = limit o.
Proof.
  revert h o. induction its as [|it its IH]; intros h o Hj; simpl.
  - exists o. auto.
  - pose proof (abort_at_lookup h it j o Hj) as H1.
    destruct (IH _ _ H1) as (o' & Ho' & Hr & Hl).
    exists o'. split; [exact Ho'|].
    destruct (decide (it = j)); simpl in *; auto.
Qed.

(** A step that aborts iterators and empties both maps. *)
Lemma step2_abort g g' its :
  heap g' = abort_heap its (heap g) ->
  kRequests g' = IdMap.empty -> kIterators g' = IdMap.empty ->
  step2 g g'.
Proof.
  intros Hh Hq Hi [H1 H2 H3 H4 H5 H6 H7]. split.
  - constructor; rewrite ?Hh, ?Hq, ?Hi; simpl; try lia;
      try (constructor; fail); try (intros ? ? []).
    now apply abort_heap_sound.
  - intros it o Ho. rewrite Hh.
    destruct (abort_heap_same its _ _ _ Ho) as (o' & Ho' & Hr & Hl).
    exists o'. rewrite Hr. repeat split; auto; lia.
Qed.

Lemma keeps_kAbortRequests msg code : keeps (kAbortRequests msg code).
Proof.
  intros g. rewrite kAbortRequests_spec.
  now apply (step2_abort _ _ (IdMap.values (kIterators g))).
Qed.

Lemma keeps_cleanup : keeps cleanup.
Proof.
  intros g. destruct (kRetry g) eqn:Hr.
  - destruct (cleanup_retry_spec g Hr) as (evs & -> & _).
    now apply step2_same.
  - rewrite (cleanup_abort_spec g Hr).
    now apply (step2_abort _ _ (IdMap.values (kIterators g))).
Qed.

#[local] Hint Resolve keeps_kAbortRequests keeps_cleanup : keeps.

(** With distinct keys, the records after [map_set] are the new one
    and the old ones stored under other ids. *)
Lemma map_set_In_unique {A} id (item : A) l p :
  List.NoDup (map fst l) ->
  In p (IdMap.map_set id item l) -> p = (id, item) \/ (In p l /\ fst p <> id).
Proof.
  induction l as [|[k v] l IH]; simpl; intros Hnd.
  - intuition.
  - apply List.NoDup_cons_iff in Hnd as [Hk Hnd].
    destruct (Z.eqb_spec k id) as [->|Hne]; simpl.
    + intros [<- | Hin]; [now left|]. right. split; [now right|].
      intros He. apply Hk. rewrite <- He. now apply in_map.
    + intros [<- | Hin]; [right; split; [now left | exact Hne]|].
      destruct (IH Hnd Hin) as [-> | [Hin' He]]; [now left|].
      right. split; [now right | exact He].
Qed.

(** A step that changes only the requests map. *)
Lemma step2_requests g g' :
  heap g' = heap g -> kIterators g' = kIterators g ->
  (sound g ->
   keys_unique (kRequests g') /\
   0 <= IdMap._seq (kRequests g') <= 0xffffffff /\
   forall id r, In (id, r) (IdMap._map (kRequests g')) ->
                req_id r = id /\ 1 <= id <= 0xffffffff) ->
  step2 g g'.
Proof.
  intros Hh Hi Hq Hs. destruct (Hq Hs) as (Hk & Hseq & Hids).
  destruct Hs as [H1 H2 H3 H4 H5 H6 H7]. split.
  - constructor; rewrite ?Hh, ?Hi; auto.
  - intros it o Ho. exists o. rewrite Hh. repeat split; auto; lia.
Qed.

Lemma step2_remove_request g id :
  step2 g (set_kRequests (snd (IdMap.remove id (kRequests g))) g).
Proof.
  apply step2_requests; simpl; auto.
  intros [H1 H2 H3 H4 H5 H6 H7]. unfold IdMap.remove, keys_unique in *.
  destruct (IdMap.map_get id (IdMap._map (kRequests g))); simpl; auto.
  split; [now apply map_delete_unique|]. split; [exact H4|].
  intros id' r' Hin. apply H6. eapply map_delete_In; eauto.
Qed.

Lemma keeps_oncallback id error value : keeps (oncallback id error value).
Proof.
  intros g. unfold oncallback. rewrite bind_get_state.
  pose proof (step2_remove_request g id) as Hstep.
  destruct (IdMap.remove id (kRequests g)) as [req m]. simpl in Hstep.
  rewrite state_after_bind. eapply step2_trans; [exact Hstep|].
  destruct req; [destruct (truthy error)|]; apply step2_refl.
Qed.

Lemma keeps_ongetmanycallback id error values :
  keeps (ongetmanycallback id error values).
Proof.
  intros g. unfold ongetmanycallback. rewrite bind_get_state.
  pose proof (step2_remove_request g id) as Hstep.
  destruct (IdMap.remove id (kRequests g)) as [req m]. simpl in Hstep.
  rewrite state_after_bind. eapply step2_trans; [exact Hstep|].
  destruct req; [destruct (truthy error)|]; apply step2_refl.
Qed.

Lemma next_id_range s :
  0 <= s <= 0xffffffff ->
  1 <= (if 0xffffffff <=? s then 0 else s) + 1 <= 0xffffffff.
Proof. intros H. destruct (Z.leb_spec 0xffffffff s); lia. Qed.

Lemma keeps_request_call op : keeps (request_call op).
Proof.
  intros g. unfold request_call. rewrite bind_get_state.
  destruct (kDb g); [apply step2_refl|].
  unfold IdMap.add. cbv zeta. rewrite state_after_bind.
  eapply step2_trans; [|apply keeps_kWrite].
  unfold modify, state_after. simpl.
  apply step2_requests; simpl; auto.
  intros [H1 H2 H3 H4 H5 H6 H7]. unfold keys_unique in *. simpl.
  pose proof (next_id_range _ H4) as Hid.
  set (id := (if 4294967295 <=? IdMap._seq (kRequests g) then 0
              else IdMap._seq (kRequests g)) + 1) in *.
  split; [now apply map_set_unique, map_set_unique|]. split; [lia|].
  intros id' r Hin.
  apply map_set_In_unique in Hin; [|now apply map_set_unique].
  destruct Hin as [[= -> ->] | [Hin Hne]]; [simpl; auto|].
  apply map_set_In_unique in Hin; [|exact H2].
  destruct Hin as [[= -> ->] | [Hin _]]; [simpl in Hne; congruence|].
  now apply H6.
Qed.

Lemma object_sound_wake o : object_sound o -> object_sound (wake_waiter o).
Proof.
  intros [H1 H2 H3 H4]. unfold wake_waiter.
  destruct (awaiting o) eqn:E; constructor; simpl; auto.
Qed.

Lemma kRequest_wake o : kRequest (wake_waiter o) = kRequest o.
Proof. unfold wake_waiter. now destruct (awaiting o). Qed.

Lemma limit_wake o : limit (wake_waiter o) = limit o.
Proof. unfold wake_waiter. now destruct (awaiting o). Qed.

Lemma keeps_oniteratordata res : keeps (oniteratordata res).
Proof.
  intros g. unfold oniteratordata. rewrite bind_get_state.
  destruct (IdMap.get (res_id res) (kIterators g)) as [it|];
    [|apply step2_refl].
  destruct (heap g !! it) as [o|] eqn:Ho; [|apply step2_refl].
  destruct (kSeq o =? res_seq res); simpl; [|apply step2_refl].
  eapply step2_put_it; [exact Ho | | | | |];
    destruct (kCallback o); rewrite ?kRequest_wake, ?limit_wake; simpl;
    auto; try lia.
  - intros Hs. apply object_sound_wake. destruct Hs. constructor; auto.
  - intros Hs. destruct Hs. constructor; auto.
Qed.

Lemma keeps_oniteratorend id seq : keeps (oniteratorend id seq).
Proof.
  intros g. unfold oniteratorend. rewrite bind_get_state.
  destruct (IdMap.get id (kIterators g)) as [it|]; [|apply step2_refl].
  destruct (heap g !! it) as [o|] eqn:Ho; [|apply step2_refl].
  destruct (kSeq o =? seq); simpl; [|apply step2_refl].
  eapply step2_put_it; [exact Ho | | | | |];
    destruct (kCallback o); rewrite ?kRequest_wake, ?limit_wake; simpl;
    auto; try lia.
  - intros Hs. apply object_sound_wake. destruct Hs. constructor; auto.
  - intros Hs. destruct Hs. constructor; auto.
Qed.

Lemma keeps_ondata data : keeps (ondata data).
Proof.
  destruct data as [res|]; simpl; [|apply keeps_ret].
  apply keeps_bind; [|auto with keeps].
  destruct res; simpl; auto using keeps_oncallback, keeps_ongetmanycallback,
    keeps_oniteratordata, keeps_oniteratorend.
Qed.

Lemma keeps_createRpcStream opts_ref : keeps (createRpcStream opts_ref).
Proof.
  unfold createRpcStream. apply keeps_bind; [auto with keeps|]. intros g.
  destruct (kRpcStream g); [apply keeps_ret|].
  repeat (apply keeps_bind; [keeps_modify|]; intros _). apply keeps_ret.
Qed.

Lemma object_sound_new retry opts id :
  object_sound (ManyLevelGuestIterator.new_object retry opts id).
Proof.
  constructor; simpl; try lia.
  - unfold abstract_limit. intros l.
    destruct (Z.leb_spec 0 (o_limit (if retry then set_o_keys true opts else opts)));
      [|discriminate].
    intros [= <-]. exact H.
  - intros l _ H. congruence.
Qed.

Lemma keeps_constructor opts : keeps (ManyLevelGuestIterator.constructor opts).
Proof.
  intros g. unfold ManyLevelGuestIterator.constructor.
  rewrite bind_get_state. unfold IdMap.add. cbv zeta.
  rewrite !state_after_bind.
  eapply step2_trans; [|apply keeps_ret].
  eapply step2_trans; [|apply keeps_kWrite].
  unfold modify, state_after, result. cbn -[Z.add Z.leb].
  intros [H1 H2 H3 H4 H5 H6 H7].
  pose proof (next_id_range _ H5) as Hid.
  set (id := (if 4294967295 <=? IdMap._seq (kIterators g) then 0
              else IdMap._seq (kIterators g)) + 1) in *.
  assert (forall j oj, heap g !! j = Some oj ->
            (heap g ++ [ManyLevelGuestIterator.new_object (kRetry g) opts id])
              !! j = Some oj) as Hkeep.
  { intros j oj Hj. rewrite lookup_app_l; [exact Hj|].
    eapply lookup_lt_Some; eauto. }
  split.
  - constructor; cbn -[Z.add Z.leb]; auto; try lia.
    + apply Forall_app. split; [exact H1|].
      constructor; [apply object_sound_new | constructor].
    + unfold keys_unique in *. cbn -[Z.add Z.leb]. now apply map_set_unique.
    + intros id' it Hin. apply map_set_In_unique in Hin; [|exact H3].
      destruct Hin as [[= -> ->] | [Hin _]].
      * split; [exact Hid|].
        exists (ManyLevelGuestIterator.new_object (kRetry g) opts id).
        split; [|reflexivity].
        rewrite lookup_app_r by lia. now rewrite Nat.sub_diag.
      * destruct (H7 _ _ Hin) as (Hr & oj & Hj & Hidj).
        split; [exact Hr|]. exists oj. split; [now apply Hkeep | exact Hidj].
  - intros j oj Hj. exists oj. split; [now apply Hkeep|].
    repeat split; auto; lia.
Qed.

Lemma keeps_iterator_method opts : keeps (iterator_method opts).
Proof.
  unfold iterator_method. apply keeps_bind; [auto with keeps|]. intros g.
  destruct (kDb g).
  - apply keeps_bind; auto with keeps.
  - apply keeps_bind; [apply keeps_constructor | auto with keeps].
Qed.

Lemma keeps_seek it target : keeps (ManyLevelGuestIterator._seek it target).
Proof.
  intros g. unfold ManyLevelGuestIterator._seek. rewrite bind_get_state.
  destruct (heap g !! it) as [o|] eqn:Ho; [|apply step2_refl].
  destruct (kErrored o) eqn:He; [apply step2_refl|].
  rewrite state_after_bind.
  eapply step2_trans; [|apply keeps_kWrite].
  eapply step2_put_it; [exact Ho | | | | |]; simpl; auto; try lia.
  intros [H1 H2 H3 H4]. constructor; simpl; auto. lia.
Qed.

(** What [pull] does to the counts of an object. *)
Lemma pull_counts retry o :
  let o' := fst (fst (ManyLevelGuestIterator.pull retry o)) in
  it_id (kRequest o') = it_id (kRequest o) /\
  it_options (kRequest o') = it_options (kRequest o) /\
  limit o' = limit o /\
  awaiting o' = awaiting o /\
  it_consumed (kRequest o) <= it_consumed (kRequest o')
    <= it_consumed (kRequest o) + 1.
Proof.
  unfold ManyLevelGuestIterator.pull.
  destruct (kPending o) as [|[id seq data | id seq error] rest]; simpl.
  - repeat split; auto; lia.
  - destruct (take_entry _ data) as [[key val] [|d data']];
      [destruct (below _ _)|]; destruct retry; simpl; repeat split; auto; lia.
  - destruct (truthy error); simpl; repeat split; auto; lia.
Qed.

Lemma object_sound_pull retry o :
  object_sound o ->
  (forall l, limit o = Some l -> it_consumed (kRequest o) < l) ->
  awaiting o = Idle ->
  object_sound (fst (fst (ManyLevelGuestIterator.pull retry o))).
Proof.
  intros [H1 H2 H3 H4] Hroom Hidle.
  destruct (pull_counts retry o) as (_ & _ & Hl & Hw & Hc).
  pose proof (pull_kSeq retry o) as Hs.
  constructor.
  - lia.
  - now rewrite Hs.
  - intros l Hlim. rewrite Hl in Hlim. specialize (Hroom l Hlim). lia.
  - intros l _ Hbusy. congruence.
Qed.

Lemma step2_next_body it o g :
  heap g !! it = Some o ->
  (forall l, limit o = Some l -> it_consumed (kRequest o) < l) ->
  awaiting o = Idle ->
  step2 g (state_after (ManyLevelGuestIterator.next_body it g)).
Proof.
  intros Ho Hroom Hidle. unfold ManyLevelGuestIterator.next_body.
  rewrite bind_get_state, Ho.
  pose proof (object_sound_pull (kRetry g) o) as Hok.
  destruct (pull_counts (kRetry g) o) as (Hid & Hop & Hl & _ & Hc).
  destruct (ManyLevelGuestIterator.pull (kRetry g) o) as [[o' outcome] ack].
  simpl in *. rewrite !state_after_bind.
  eapply step2_trans; [|apply keeps_ret].
  eapply step2_trans; [|destruct ack; [apply keeps_kWrite | apply keeps_ret]].
  eapply step2_put_it; [exact Ho | auto | auto | auto | auto | lia].
Qed.

Lemma reached_false_room c lim :
  reached c lim = false -> forall l, lim = Some l -> c < l.
Proof.
  intros H l ->. simpl in H. destruct (Z.leb_spec l c); [discriminate | lia].
Qed.

Lemma step2_next it o g :
  heap g !! it = Some o -> awaiting o = Idle ->
  step2 g (state_after (ManyLevelGuestIterator._next it g)).
Proof.
  intros Ho Hi. unfold ManyLevelGuestIterator._next.
  rewrite bind_get_state, Ho.
  destruct (reached _ _) eqn:Hr; simpl; [apply step2_refl|].
  destruct (kErrored o) eqn:He; simpl; [apply step2_refl|].
  destruct (kEnded o && (length (kPending o) =? 0)%nat);
    [apply step2_refl|].
  pose proof (reached_false_room _ _ Hr) as Hroom.
  destruct (length (kPending o) =? 0)%nat.
  - rewrite state_after_bind.
    eapply step2_trans; [|apply keeps_ret].
    eapply step2_put_it; [exact Ho | | | | |]; simpl; auto; try lia.
    intros [H1 H2 H3 H4]. constructor; simpl; auto.
  - now apply (step2_next_body it o).
Qed.

Lemma keeps_guarded_next it : keeps (guarded_next it).
Proof.
  intros g. unfold guarded_next. rewrite bind_get_state.
  destruct (heap g !! it) as [o|] eqn:Ho; [|apply step2_refl].
  destruct (closing o); [apply step2_refl|].
  destruct (awaiting o) eqn:Hi; try apply step2_refl.
  now apply (step2_next it o).
Qed.

Lemma keeps_next_resume it : keeps (ManyLevelGuestIterator.next_resume it).
Proof.
  intros g Hs. revert Hs. unfold ManyLevelGuestIterator.next_resume.
  rewrite bind_get_state.
  destruct (heap g !! it) as [o|] eqn:Ho; [|apply step2_refl].
  destruct (awaiting o) eqn:Hi; try apply step2_refl.
  intros Hs.
  assert (forall l, limit o = Some l -> it_consumed (kRequest o) < l) as Hroom.
  { intros l Hl. destruct Hs as [H1 _ _ _ _ _ _].
    destruct (Forall_lookup_1 _ _ _ _ H1 Ho) as [_ _ _ Hbusy].
    apply (Hbusy l Hl). congruence. }
  revert Hs. rewrite state_after_bind.
  eapply (step2_trans _ (state_after (put_it it (set_awaiting Idle o) g))).
  - eapply step2_put_it; [exact Ho | | | | |]; simpl; auto; try lia.
    intros [H1 H2 H3 H4]. constructor; simpl; auto; congruence.
  - apply (step2_next_body it (set_awaiting Idle o)); auto.
    apply (put_it_lookup _ _ _ _ Ho).
Qed.

Lemma keeps_iterator__close it : keeps (ManyLevelGuestIterator._close it).
Proof.
  intros g. destruct (heap g !! it) as [o|] eqn:Ho.
  - rewrite (iterator_close_spec _ _ _ Ho). unfold state_after. simpl.
    intros [H1 H2 H3 H4 H5 H6 H7]. split.
    + constructor; simpl; auto.
      * unfold IdMap.remove, keys_unique in *.
        destruct (IdMap.map_get _ _); simpl; auto using map_delete_unique.
      * unfold IdMap.remove. now destruct (IdMap.map_get _ _).
      * intros id j Hin. apply H7. eapply remove_In; eauto.
    + intros j oj Hj. exists oj. repeat split; auto; lia.
  - unfold ManyLevelGuestIterator._close. rewrite bind_get_state, Ho.
    apply step2_refl.
Qed.

Lemma keeps_end_work it : keeps (end_work it).
Proof.
  unfold end_work. apply keeps_bind; [auto with keeps|]. intros g.
  destruct (heap g !! it) as [o|]; [|apply keeps_ret].
  apply keeps_when, keeps_iterator__close.
Qed.

Lemma keeps_resumed_next it : keeps (resumed_next it).
Proof.
  unfold resumed_next. apply keeps_bind; [auto with keeps|]. intros g.
  destruct (heap g !! it) as [o|]; [|apply keeps_ret].
  destruct (awaiting o); try apply keeps_next_resume.
  apply keeps_bind; [apply keeps_next_resume|]. intros r.
  apply keeps_bind; [apply keeps_end_work | auto with keeps].
Qed.

Lemma keeps_iterator_close it : keeps (iterator_close it).
Proof.
  intros g. unfold iterator_close. rewrite bind_get_state.
  destruct (heap g !! it) as [o|] eqn:Ho; [|apply step2_refl].
  destruct (closing o); [apply step2_refl|].
  rewrite state_after_bind.
  eapply step2_trans;
    [|destruct (awaiting o); [apply keeps_iterator__close | apply keeps_ret..]].
  eapply step2_put_it; [exact Ho | | | | |]; simpl; auto; try lia.
  intros [H1 H2 H3 H4]. constructor; simpl; auto.
Qed.

Lemma keeps_for_each {A} (xs : list A) body :
  (forall x, keeps (body x)) -> keeps (for_each xs body).
Proof.
  intros H. induction xs as [|x xs IH]; simpl; [apply keeps_ret|].
  apply keeps_bind; auto.
Qed.

Lemma keeps_close_rest it : keeps (close_rest it).
Proof.
  intros g. unfold close_rest. rewrite bind_get_state.
  destruct (heap g !! it) as [o|]; [|apply step2_refl].
  unfold bind, modify. rewrite kFlushed_spec. unfold state_after. simpl.
  intros [H1 H2 H3 H4 H5 H6 H7]. split.
  - constructor; simpl; auto.
    + unfold IdMap.remove, keys_unique in *.
      destruct (IdMap.map_get _ _); simpl; auto using map_delete_unique.
    + unfold IdMap.remove. now destruct (IdMap.map_get _ _).
    + intros id j Hin. apply H7. eapply remove_In; eauto.
  - intros j oj Hj. exists oj. repeat split; auto; lia.
Qed.

Lemma keeps_run_pending p : keeps (run_pending p).
Proof. destruct p; [apply keeps_close_rest | apply keeps_iterator__close]. Qed.

Lemma keeps_close : keeps _close.
Proof.
  unfold _close.
  apply keeps_bind; [keeps_modify|]; intros _.
  apply keeps_bind; [auto with keeps|]; intros pending.
  apply keeps_bind; [auto with keeps|]; intros g.
  destruct (kRpcStream g); (apply keeps_bind; [auto with keeps|]; intros _);
    (apply keeps_bind; [|auto with keeps]);
    apply keeps_for_each, keeps_run_pending.
Qed.

Lemma keeps_exec a : keeps (exec a).
Proof.
  destruct a; simpl.
  - apply keeps_ondata.
  - apply keeps_discard, keeps_createRpcStream.
  - apply keeps_bind; [auto with keeps|]. intros g.
    destruct (kRpcStream g); auto with keeps.
  - apply keeps_request_call.
  - unfold forward. keeps_modify.
  - apply keeps_discard, keeps_close.
  - apply keeps_discard, keeps_iterator_method.
  - apply keeps_seek.
  - apply keeps_discard, keeps_guarded_next.
  - apply keeps_discard, keeps_resumed_next.
  - apply keeps_iterator_close.
Qed.

Lemma step2_run tr g : step2 g (run tr g).
Proof.
  revert g. induction tr as [|a tr IH]; intros g; simpl.
  - apply step2_refl.
  - eapply step2_trans; [apply keeps_exec | apply IH].
Qed.

Lemma sound_constructor retry : sound (constructor retry).
Proof.
  constructor; simpl; try lia; try (constructor; fail); intros ? ? [].
Qed.

Lemma reachable_sound g : reachable g -> sound g.
Proof.
  intros (retry & tr & ->). apply step2_run, sound_constructor.
Qed.

(** ** Counts, ids and errors along a run *)

(** X4: in every reachable state the [consumed] count of an iterator is
    not negative and, when the iterator was created with a limit that
    is not negative, does not exceed that limit: the guest never pulls
    more entries than [options.limit]. *)
Theorem consumed_within_limit (g : guest) (it : nat) (o : iterator) :
  reachable g ->
  heap g !! it = Some o ->
  0 <= it_consumed (kRequest o) /\
  (0 <= o_limit (it_options (kRequest o)) ->
   it_consumed (kRequest o) <= o_limit (it_options (kRequest o))).
Proof.
  intros Hg Ho.
  destruct (reachable_sound _ Hg) as [Hheap _ _ _ _ _ _].
  destruct (Forall_lookup_1 _ _ _ _ Hheap Ho) as [Hc _ Hl _].
  split; [exact Hc|]. intros Hpos. apply Hl.
  rewrite (ok_limit _ _ (guest_ok_lookup _ _ _ (reachable_ok _ Hg) Ho)).
  unfold abstract_limit.
  destruct (Z.leb_spec 0 (o_limit (it_options (kRequest o)))); [reflexivity | lia].
Qed.

Lemma consumed_within_limit_witness :
  let g := run [AIterator (scan_limit 1);
                AData (Some (IteratorFrame
                         (IteratorData 1 0 [[x61]; [x31]; [x62]; [x32]])));
                ANext 0%nat; ANext 0%nat; ANext 0%nat]
             (constructor false) in
  exists o, heap g !! 0%nat = Some o /\
            0 <= it_consumed (kRequest o) /\
            (0 <= o_limit (it_options (kRequest o)) ->
             it_consumed (kRequest o) <= o_limit (it_options (kRequest o))).
Proof.
  intros g. eexists. split; [reflexivity|].
  apply (consumed_within_limit g 0%nat).
  - exists false. eexists. reflexivity.
  - reflexivity.
Defined.

(** X5: whatever happens to a guest, an iterator keeps its id, its
    options and its limit; its [consumed] count and its seq never
    decrease, and an error is never cleared.  In particular [_seek]
    resets neither the id nor [consumed]. *)
Theorem iterator_record_stable (g : guest) (it : nat) (o : iterator)
    (tr : list action) :
  reachable g ->
  heap g !! it = Some o ->
  exists o',
    heap (run tr g) !! it = Some o' /\
    it_id (kRequest o') = it_id (kRequest o) /\
    it_options (kRequest o') = it_options (kRequest o) /\
    limit o' = limit o /\
    it_consumed (kRequest o) <= it_consumed (kRequest o') /\
    kSeq o <= kSeq o' /\
    (kErrored o = true -> kErrored o' = true).
Proof.
  intros Hg Ho.
  destruct (step2_run tr g (reachable_sound _ Hg)) as [_ Hgrow].
  destruct (Hgrow it o Ho) as (o' & Ho' & Hid & Hop & Hl & Hc).
  destruct (step_ok_run tr g) as [_ [_ Hadv]].
  destruct (Hadv it o Ho) as (o2 & Ho2 & Hs & He).
  assert (o2 = o') by congruence. subst o2.
  exists o'. repeat split; auto.
Qed.

Lemma iterator_record_stable_witness :
  let g := run [AIterator scan;
                AData (Some (IteratorFrame (IteratorData 1 0 [[x61]; [x31]])));
                ANext 0%nat]
             (constructor true) in
  let tr := [ASeek 0%nat [x66]; AFinish; AIterator scan] in
  exists o o',
    heap g !! 0%nat = Some o /\
    heap (run tr g) !! 0%nat = Some o' /\
    it_id (kRequest o') = it_id (kRequest o) /\
    it_consumed (kRequest o) <= it_consumed (kRequest o') /\
    kSeq o <= kSeq o'.
Proof.
  intros g tr.
  assert (reachable g) as Hg by (exists true; eexists; reflexivity).
  assert (exists o, heap g !! 0%nat = Some o) as [o Ho]
    by (eexists; reflexivity).
  destruct (iterator_record_stable g 0%nat o tr Hg Ho)
    as (o' & Ho' & Hid & _ & _ & Hc & Hs & _).
  exists o, o'. auto.
Defined.

(** X6: in every reachable state a request record is stored under the
    id it carries, an iterator record is stored under the id that its
    request and its acknowledgement carry, and all these ids lie in
    [1, 2^32-1]: the frames the guest writes address the records that
    the replies are looked up in, and fit the wire's uint32. *)
Theorem records_carry_their_id (g : guest) :
  reachable g ->
  (forall id req,
      IdMap.get id (kRequests g) = Some req ->
      req_id req = id /\ 1 <= id <= 0xffffffff) /\
  (forall id it,
      IdMap.get id (kIterators g) = Some it ->
      1 <= id <= 0xffffffff /\
      exists o, heap g !! it = Some o /\
                it_id (kRequest o) = id /\
                ack_id (kAckMessage o) = id).
Proof.
  intros Hg. destruct (reachable_sound _ Hg) as [_ _ _ _ _ Hq Hi]. split.
  - intros id req H. apply Hq. now apply map_get_In.
  - intros id it H. destruct (Hi _ _ (map_get_In _ _ _ H)) as (Hr & o & Ho & Hid).
    split; [exact Hr|]. exists o. repeat split; auto.
    rewrite (ok_ack_id _ _ (guest_ok_lookup _ _ _ (reachable_ok _ Hg) Ho)).
    exact Hid.
Qed.

Lemma records_carry_their_id_witness :
  let g := run [ACall (Get [x61]); AIterator scan; ACall (Del [x62])]
             (constructor false) in
  (IdMap.get 2 (kRequests g) = Some {| req_id := 2; req_op := Del [x62] |}) /\
  (forall id it,
      IdMap.get id (kIterators g) = Some it ->
      1 <= id <= 0xffffffff /\
      exists o, heap g !! it = Some o /\
                it_id (kRequest o) = id /\
                ack_id (kAckMessage o) = id).
Proof.
  intros g. split; [reflexivity|].
  apply (records_carry_their_id g). exists false. eexists. reflexivity.
Defined.

Lemma next_errored it o g :
  heap g !! it = Some o -> kErrored o = true ->
  ManyLevelGuestIterator._next it g = (NextEnd, g, []).
Proof.
  intros Ho He. unfold ManyLevelGuestIterator._next.
  rewrite bind_get_state, Ho, He, orb_true_r. reflexivity.
Qed.

(** X7: an error frame at the head of the queue makes [_next] throw a
    [ModuleError] whose code is the frame's error, and from then on the
    iterator is finished for good: in every later state [_next] returns
    the end and [_seek] does nothing, neither changing the state nor
    writing a frame. *)
Theorem error_is_final (g : guest) (it : nat) (o : iterator)
    (id seq : Z) (error : string) (rest : list iterator_res)
    (tr : list action) (target : bytes) :
  heap g !! it = Some o ->
  kPending o = IteratorError id seq error :: rest ->
  truthy error = true ->
  kErrored o = false ->
  reached (it_consumed (kRequest o)) (limit o) = false ->
  let r := ManyLevelGuestIterator._next it g in
  let g' := run tr (state_after r) in
  result r = NextThrow {| message := "Could not read entry"; code := error |} /\
  ManyLevelGuestIterator._next it g' = (NextEnd, g', []) /\
  ManyLevelGuestIterator._seek it target g' = (tt, g', []).
Proof.
  intros Ho Hp Ht He Hr r g'.
  assert (result r
          = NextThrow {| message := "Could not read entry"; code := error |} /\
          exists o1, heap (state_after r) !! it = Some o1 /\
                     kErrored o1 = true) as [Hres (o1 & Ho1 & He1)].
  { subst r. unfold ManyLevelGuestIterator._next.
    rewrite bind_get_state, Ho, Hr, He, Hp. simpl. rewrite andb_false_r.
    unfold ManyLevelGuestIterator.next_body.
    rewrite bind_get_state, Ho. unfold ManyLevelGuestIterator.pull.
    rewrite Hp, Ht. rewrite !result_bind, !state_after_bind.
    split; [reflexivity|]. eexists.
    split; [apply (put_it_lookup _ _ _ _ Ho) | reflexivity]. }
  split; [exact Hres|].
  destruct (step_ok_run tr (state_after r)) as [_ [_ Hadv]].
  destruct (Hadv it o1 Ho1) as (o2 & Ho2 & _ & He2). fold g' in Ho2.
  split; [apply (next_errored _ _ _ Ho2 (He2 He1))|].
  apply (seek_errored _ _ _ _ Ho2 (He2 He1)).
Qed.

Lemma error_is_final_witness :
  let g := run [AIterator scan;
                AData (Some (IteratorFrame (IteratorError 1 0 "LEVEL_IO")))]
             (constructor false) in
  let r := ManyLevelGuestIterator._next 0 g in
  let g' := run [AData (Some (IteratorFrame (IteratorData 1 0 [[x61]; [x31]])))]
              (state_after r) in
  result r = NextThrow {| message := "Could not read entry"; code := "LEVEL_IO" |} /\
  ManyLevelGuestIterator._next 0 g' = (NextEnd, g', []) /\
  ManyLevelGuestIterator._seek 0 [x66] g' = (tt, g', []).
Proof.
  intros g r g'.
  eapply (error_is_final g 0%nat _ 1 0 "LEVEL_IO" []); reflexivity.
Defined.

(** ** Requests and their replies *)

Lemma get_remove_eq {A} id (m : IdMap.t A) :
  keys_unique m -> IdMap.get id (snd (IdMap.remove id m)) = None.
Proof.
  unfold keys_unique, IdMap.get, IdMap.remove. intros Hnd.
  destruct (IdMap.map_get id (IdMap._map m)) eqn:Hg; simpl;
    [now apply map_get_delete_eq | exact Hg].
Qed.

Lemma remove_known {A} id (x : A) (m : IdMap.t A) :
  IdMap.get id m = Some x -> fst (IdMap.remove id m) = Some x.
Proof. unfold IdMap.get, IdMap.remove. now intros ->. Qed.

Lemma normalizeValue_id value : normalizeValue value = value.
Proof. now destruct value. Qed.

Lemma map_normalizeValue values : map normalizeValue values = values.
Proof.
  induction values as [|v vs IH]; simpl; [reflexivity|].
  now rewrite normalizeValue_id, IH.
Qed.

Lemma request_call_spec op g :
  kDb g = false ->
  let id := snd (IdMap.add {| req_id := 0; req_op := op |} (kRequests g)) in
  let req := {| req_id := id; req_op := op |} in
  let g1 := state_after (request_call op g) in
  kEncode g1 = kEncode g ++ [FRequest req] /\
  IdMap.get id (kRequests g1) = Some req /\
  (forall id', id' <> id ->
               IdMap.get id' (kRequests g1) = IdMap.get id' (kRequests g)) /\
  heap g1 = heap g /\ kIterators g1 = kIterators g /\
  kRpcStream g1 = kRpcStream g /\ kDb g1 = false.
Proof.
  intros Hdb. unfold request_call. rewrite bind_get_state, Hdb.
  unfold IdMap.add. cbv zeta. rewrite state_after_bind, kWrite_spec.
  unfold modify, state_after, IdMap.get. cbn -[Z.add Z.leb].
  split; [reflexivity|]. split; [apply map_get_set_eq|].
  split; [|auto]. intros id' Hne. now rewrite !map_get_set_ne.
Qed.

Lemma oncallback_known id req error value g :
  IdMap.get id (kRequests g) = Some req ->
  oncallback id error value g
  = (tt, set_kRequests (snd (IdMap.remove id (kRequests g))) g,
     [RequestCallback req
        (if truthy error
         then CbError {| message := "Could not get value"; code := error |}
         else CbValue value)]).
Proof.
  intros H. unfold oncallback. rewrite bind_get_state.
  pose proof (remove_known _ _ _ H) as Hr.
  destruct (IdMap.remove id (kRequests g)) as [x m]. simpl in Hr. subst x.
  unfold bind, modify. simpl.
  destruct (truthy error); [reflexivity|]. now rewrite normalizeValue_id.
Qed.

Lemma ongetmanycallback_known id req error values g :
  IdMap.get id (kRequests g) = Some req ->
  ongetmanycallback id error values g
  = (tt, set_kRequests (snd (IdMap.remove id (kRequests g))) g,
     [RequestCallback req
        (if truthy error
         then CbError {| message := "Could not get values"; code := error |}
         else CbValues values)]).
Proof.
  intros H. unfold ongetmanycallback. rewrite bind_get_state.
  pose proof (remove_known _ _ _ H) as Hr.
  destruct (IdMap.remove id (kRequests g)) as [x m]. simpl in Hr. subst x.
  unfold bind, modify. simpl.
  destruct (truthy error); [reflexivity|]. now rewrite map_normalizeValue.
Qed.

Lemma oncallback_unknown id error value g :
  IdMap.get id (kRequests g) = None ->
  oncallback id error value g = (tt, g, []).
Proof.
  intros H. unfold oncallback. rewrite bind_get_state, (remove_unknown _ _ H).
  unfold bind, modify, ret. simpl. now rewrite set_kRequests_same.
Qed.

Lemma ongetmanycallback_unknown id error values g :
  IdMap.get id (kRequests g) = None ->
  ongetmanycallback id error values g = (tt, g, []).
Proof.
  intros H. unfold ongetmanycallback.
  rewrite bind_get_state, (remove_unknown _ _ H).
  unfold bind, modify, ret. simpl. now rewrite set_kRequests_same.
Qed.

(** X8: a store call on a guest that is not forwarding writes one frame
    that carries the id under which its record is stored.  The
    [callback] reply to that id invokes the callback of the record
    once, with a [ModuleError] of the reported code when the reply has
    an error and with the value otherwise, and removes the record; it
    writes no frame.  The same reply arriving again invokes nothing. *)
Theorem reply_settles_request (g : guest) (op : operation) :
  reachable g ->
  kDb g = false ->
  let g1 := state_after (request_call op g) in
  exists id,
    let req := {| req_id := id; req_op := op |} in
    1 <= id <= 0xffffffff /\
    kEncode g1 = kEncode g ++ [FRequest req] /\
    IdMap.get id (kRequests g1) = Some req /\
    forall error value,
      let r := ondata (Some (Callback id error value)) g1 in
      events r
      = RequestCallback req
          (if truthy error
           then CbError {| message := "Could not get value"; code := error |}
           else CbValue value)
        :: flush_log (state_after r) /\
      IdMap.get id (kRequests (state_after r)) = None /\
      kEncode (state_after r) = kEncode g1 /\
      ondata (Some (Callback id error value)) (state_after r)
      = (tt, state_after r, flush_log (state_after r)).
Proof.
  intros Hg Hdb g1.
  destruct (request_call_spec op g Hdb) as (Henc & Hget & _).
  fold g1 in Henc, Hget.
  set (id := snd (IdMap.add {| req_id := 0; req_op := op |} (kRequests g)))
    in *.
  assert (reachable g1) as Hg1 by apply (reachable_run [ACall op] g Hg).
  destruct (reachable_sound _ Hg1) as [_ Hkeys _ _ _ Hids _].
  exists id. split; [apply (Hids id _ (map_get_In _ _ _ Hget))|].
  split; [exact Henc|]. split; [exact Hget|].
  intros error value r.
  set (g2 := set_kRequests (snd (IdMap.remove id (kRequests g1))) g1).
  assert (r = (tt, g2,
               RequestCallback {| req_id := id; req_op := op |}
                 (if truthy error
                  then CbError {| message := "Could not get value";
                                  code := error |}
                  else CbValue value)
               :: flush_log g2)) as ->.
  { subst r. unfold ondata, dispatch, bind.
    now rewrite (oncallback_known _ _ error value _ Hget), kFlushed_spec. }
  unfold events, state_after. simpl.
  assert (IdMap.get id (kRequests g2) = None) as Hnone
    by apply (get_remove_eq id _ Hkeys).
  split; [reflexivity|]. split; [exact Hnone|]. split; [reflexivity|].
  unfold ondata, dispatch, bind.
  now rewrite (oncallback_unknown _ error value _ Hnone), kFlushed_spec.
Qed.

Lemma reply_settles_request_witness :
  let g := run [ACreateRpcStream true; AIterator scan] (constructor false) in
  let g1 := state_after (request_call (Get [x61]) g) in
  exists id,
    let req := {| req_id := id; req_op := Get [x61] |} in
    1 <= id <= 0xffffffff /\
    kEncode g1 = kEncode g ++ [FRequest req] /\
    IdMap.get id (kRequests g1) = Some req /\
    forall error value,
      let r := ondata (Some (Callback id error value)) g1 in
      events r
      = RequestCallback req
          (if truthy error
           then CbError {| message := "Could not get value"; code := error |}
           else CbValue value)
        :: flush_log (state_after r) /\
      IdMap.get id (kRequests (state_after r)) = None /\
      kEncode (state_after r) = kEncode g1 /\
      ondata (Some (Callback id error value)) (state_after r)
      = (tt, state_after r, flush_log (state_after r)).
Proof.
  intros g. apply (reply_settles_request g (Get [x61])).
  - exists false. eexists. reflexivity.
  - reflexivity.
Defined.

Lemma get_remove_ne {A} id id' (m : IdMap.t A) :
  id' <> id -> IdMap.get id' (snd (IdMap.remove id m)) = IdMap.get id' m.
Proof.
  intros Hne. unfold IdMap.get, IdMap.remove.
  destruct (IdMap.map_get id (IdMap._map m)); simpl; [|reflexivity].
  now apply map_get_delete_ne.
Qed.

Lemma size_remove_known {A} id (x : A) (m : IdMap.t A) :
  IdMap.get id m = Some x ->
  IdMap.size m = IdMap.size (snd (IdMap.remove id m)) + 1.
Proof.
  unfold IdMap.get, IdMap.remove, IdMap.size. intros H. rewrite H. simpl.
  rewrite (map_delete_length _ _ _ H). lia.
Qed.

(** X9: a reply is delivered by its own tag to whatever record is
    pending under its id: a [getManyCallback] reply hands the record's
    callback the vector of values, or a [ModuleError] of the reported
    code when the reply has an error, whatever operation the record was
    made for.  Either kind of reply removes exactly that record: the
    requests map shrinks by one, every other request stays, and the
    iterators, their objects and the encoder are untouched. *)
Theorem reply_removes_only_its_record (g : guest) (id : Z) (req : request) :
  reachable g ->
  IdMap.get id (kRequests g) = Some req ->
  forall (error : string) (values : list (option bytes))
         (value : option bytes) (res : reply),
    res = GetManyCallback id error values \/ res = Callback id error value ->
    let r := ondata (Some res) g in
    (res = GetManyCallback id error values ->
     events r
     = RequestCallback req
         (if truthy error
          then CbError {| message := "Could not get values"; code := error |}
          else CbValues values)
       :: flush_log (state_after r)) /\
    IdMap.get id (kRequests (state_after r)) = None /\
    (forall id', id' <> id ->
                 IdMap.get id' (kRequests (state_after r))
                 = IdMap.get id' (kRequests g)) /\
    IdMap.size (kRequests g) = IdMap.size (kRequests (state_after r)) + 1 /\
    kIterators (state_after r) = kIterators g /\
    heap (state_after r) = heap g /\
    kEncode (state_after r) = kEncode g.
Proof.
  intros Hg Hget error values value res Hres r.
  destruct (reachable_sound _ Hg) as [_ Hkeys _ _ _ _ _].
  set (g2 := set_kRequests (snd (IdMap.remove id (kRequests g))) g).
  assert (exists ev, r = (tt, g2, ev :: flush_log g2) /\
                     (res = GetManyCallback id error values ->
                      ev = RequestCallback req
                             (if truthy error
                              then CbError {| message := "Could not get values";
                                              code := error |}
                              else CbValues values))) as (ev & -> & Hev).
  { subst r. destruct Hres as [-> | ->]; unfold ondata, dispatch, bind.
    - rewrite (ongetmanycallback_known _ _ error values _ Hget), kFlushed_spec.
      eexists. split; [reflexivity | auto].
    - rewrite (oncallback_known _ _ error value _ Hget), kFlushed_spec.
      eexists. split; [reflexivity | discriminate]. }
  unfold events, state_after. simpl.
  split; [intros H; now rewrite (Hev H)|].
  split; [apply (get_remove_eq id _ Hkeys)|].
  split; [intros id' Hne; now apply get_remove_ne|].
  split; [apply (size_remove_known _ _ _ Hget) | auto].
Qed.

Lemma reply_removes_only_its_record_witness :
  let g := run [ACall (Get [x61]); ACall (GetMany [[x61]; [x62]])]
             (constructor false) in
  let r := ondata (Some (GetManyCallback 1 "" [Some [x31]; None])) g in
  events r
  = [RequestCallback {| req_id := 1; req_op := Get [x61] |}
       (CbValues [Some [x31]; None])] /\
  IdMap.get 1 (kRequests (state_after r)) = None /\
  IdMap.get 2 (kRequests (state_after r))
  = Some {| req_id := 2; req_op := GetMany [[x61]; [x62]] |}.
Proof.
  intros g r.
  assert (reachable g) as Hg by (exists false; eexists; reflexivity).
  destruct (reply_removes_only_its_record g 1 _ Hg eq_refl
              "" [Some [x31]; None] None _ (or_introl eq_refl))
    as (H1 & H2 & H3 & _).
  split; [exact (H1 eq_refl)|]. split; [exact H2|].
  exact (eq_trans (H3 2 ltac:(discriminate)) eq_refl).
Defined.

(** ** Forwarding, reopening and reattaching *)

(** A cleanup with nothing in flight: nothing is replayed or aborted. *)
Lemma cleanup_idle g :
  kRequests g = IdMap.empty -> kIterators g = IdMap.empty ->
  exists g2,
    cleanup g
    = (tt, g2, if kRetry g then []
               else EmitFlush :: (if kRef g then [UnrefCalled] else [])) /\
    kExplicitClose g2 = kExplicitClose g /\ kDb g2 = kDb g /\
    kRetry g2 = kRetry g /\ streams g2 = streams g /\
    kRequests g2 = IdMap.empty /\ kIterators g2 = IdMap.empty /\
    heap g2 = heap g /\ kRpcStream g2 = None.
Proof.
  intros Hq Hi. destruct g as [its reqs retry enc rpc cl rf db ex h st].
  simpl in *. subst its reqs.
  destruct retry; [|destruct rf];
    (eexists; split; [reflexivity|]; simpl; repeat split; auto).
Qed.

Lemma abort_log_no_close err its h : ~ In DbClosed (abort_log err its h).
Proof.
  revert h. induction its as [|it its IH]; intros h; simpl; [tauto|].
  intros Hin. apply in_app_or in Hin. destruct Hin as [Hin|Hin];
    [|exact (IH _ Hin)].
  destruct (h !! it) as [o|]; [|destruct Hin].
  destruct (kCallback o && is_waiting o); [|destruct Hin].
  destruct Hin as [Hin|[]]. discriminate.
Qed.

(** What [_close] leaves behind: the close is recorded and both maps are
    empty; the rpc stream, destroyed or not, is still the attached
    one. *)
Lemma close_state g :
  let g2 := state_after (_close g) in
  kExplicitClose g2 = true /\
  kRpcStream g2 = kRpcStream g /\
  kDb g2 = kDb g /\
  kRetry g2 = kRetry g /\
  streams g2 = streams g /\
  kRequests g2 = IdMap.empty /\
  kIterators g2 = IdMap.empty.
Proof. rewrite close_spec. unfold state_after. simpl. repeat split. Qed.

Lemma dispatch_ignores_kDb res g :
  dispatch res (set_kDb true g)
  = (tt, set_kDb true (state_after (dispatch res g)), events (dispatch res g)).
Proof.
  destruct res as [id error value | res | id seq | id error values];
    unfold dispatch.
  - unfold oncallback. rewrite !bind_get_state.
    change (kRequests (set_kDb true g)) with (kRequests g).
    destruct (IdMap.remove id (kRequests g)) as [[req|] m];
      [destruct (truthy error)|]; reflexivity.
  - unfold oniteratordata. rewrite !bind_get_state.
    change (kIterators (set_kDb true g)) with (kIterators g).
    change (heap (set_kDb true g)) with (heap g).
    destruct (IdMap.get (res_id res) (kIterators g)) as [it|]; [|reflexivity].
    destruct (heap g !! it) as [o|]; [|reflexivity].
    destruct (negb (kSeq o =? res_seq res)); reflexivity.
  - unfold oniteratorend. rewrite !bind_get_state.
    change (kIterators (set_kDb true g)) with (kIterators g).
    change (heap (set_kDb true g)) with (heap g).
    destruct (IdMap.get id (kIterators g)) as [it|]; [|reflexivity].
    destruct (heap g !! it) as [o|]; [|reflexivity].
    destruct (negb (kSeq o =? seq)); reflexivity.
  - unfold ongetmanycallback. rewrite !bind_get_state.
    change (kRequests (set_kDb true g)) with (kRequests g).
    destruct (IdMap.remove id (kRequests g)) as [[req|] m];
      [destruct (truthy error)|]; reflexivity.
Qed.

Lemma ondata_ignores_kDb data g :
  ondata data (set_kDb true g)
  = (tt, set_kDb true (state_after (ondata data g)), events (ondata data g)).
Proof.
  destruct data as [res|]; [|reflexivity].
  unfold ondata, bind. rewrite dispatch_ignores_kDb.
  destruct (dispatch res g) as [[u g1] e1]. simpl.
  rewrite !kFlushed_spec. reflexivity.
Qed.

(** X10: [forward] checks the key encoding and then the value encoding
    of the database it is given and throws a
    [LEVEL_ENCODING_NOT_SUPPORTED] error, leaving the guest as it was,
    unless both are the plain buffer encoding.  Once it has succeeded,
    store calls and [iterator] are handed to the database: they add no
    record and write no frame.  The records already in flight stay, and
    inbound chunks are processed exactly as before.  [_close] on a
    forwarding guest with no rpc stream attached closes the database;
    with a stream attached it throws a [TypeError] once it has
    destroyed the stream, and the database is not closed. *)
Theorem forwarding_bypasses_rpc (g : guest) (db : database) :
  let r := forward_db db g in
  (keyEncoding db <> "buffer"%string \/ valueEncoding db <> "buffer"%string ->
   exists msg,
     r = (inl (ThrowModule {| message := msg;
                              code := "LEVEL_ENCODING_NOT_SUPPORTED" |}),
          g, [])) /\
  (keyEncoding db = "buffer"%string -> valueEncoding db = "buffer"%string ->
   let g' := state_after r in
   r = (inr tt, set_kDb true g, []) /\
   (forall op, request_call op g' = (tt, g', [ForwardedCall op])) /\
   (forall opts,
       iterator_method opts g' = (None, g', [ForwardedIterator opts])) /\
   (forall data,
       ondata data g'
       = (tt, set_kDb true (state_after (ondata data g)),
          events (ondata data g))) /\
   (kRpcStream g = None ->
    result (_close g') = inr tt /\ In DbClosed (events (_close g'))) /\
   (forall proxy,
       kRpcStream g = Some proxy ->
       result (_close g') = inl ThrowTypeError /\
       In (Destroyed proxy) (events (_close g')) /\
       ~ In DbClosed (events (_close g')))).
Proof.
  intros r. subst r. unfold forward_db. split.
  - intros Hbad.
    destruct (String.eqb_spec (keyEncoding db) "buffer") as [Hk|Hk]; simpl.
    + destruct (String.eqb_spec (valueEncoding db) "buffer") as [Hv|Hv]; simpl.
      * destruct Hbad; congruence.
      * eexists. reflexivity.
    + eexists. reflexivity.
  - intros Hk Hv.
    assert ((if negb (String.eqb (keyEncoding db) "buffer")
             then ret (inl (ThrowModule
                   {| message := "Database must support non-transcoded 'buffer' keyEncoding";
                      code := "LEVEL_ENCODING_NOT_SUPPORTED" |}))
             else if negb (String.eqb (valueEncoding db) "buffer")
             then ret (inl (ThrowModule
                   {| message := "Database must support non-transcoded 'buffer' valueEncoding";
                      code := "LEVEL_ENCODING_NOT_SUPPORTED" |}))
             else forward ;; ret (inr tt)) g
            = (inr tt, set_kDb true g, [])) as ->
      by (rewrite Hk, Hv; reflexivity).
    unfold state_after. cbn [fst snd].
    assert (forall ev : list event,
               In DbClosed
                 (map (fun req =>
                         RequestCallback req
                           (CbError {| message := "Aborted on database close()";
                                       code := "LEVEL_DATABASE_NOT_OPEN" |}))
                      (IdMap.values (kRequests g)) ++ ev) ->
               In DbClosed ev) as Hreqs.
    { intros ev Hin. apply in_app_or in Hin. destruct Hin as [Hin|Hin]; [|exact Hin].
      apply in_map_iff in Hin. destruct Hin as (x & Hx & _). discriminate. }
    split; [reflexivity|]. split; [|split; [|split; [|split]]].
    + intros op. reflexivity.
    + intros opts. reflexivity.
    + intros data. apply ondata_ignores_kDb.
    + intros Hs. rewrite close_spec. unfold result, events. cbn [fst snd].
      change (kRpcStream (set_kDb true g)) with (kRpcStream g).
      rewrite Hs. split; [reflexivity|].
      apply in_or_app. right. now left.
    + intros proxy Hs. rewrite close_spec. unfold result, events. cbn [fst snd].
      change (kRpcStream (set_kDb true g)) with (kRpcStream g).
      rewrite Hs. split; [reflexivity|]. split.
      * apply in_or_app. right. now left.
      * intros Hin. apply in_app_or in Hin. destruct Hin as [Hin|Hin].
        -- apply Hreqs in Hin. exact (abort_log_no_close _ _ _ Hin).
        -- destruct Hin as [Hin|Hin]; [discriminate|].
           apply flush_blocks_In in Hin. destruct Hin; discriminate.
Qed.

Lemma forwarding_bypasses_rpc_witness :
  let g := run [ACall (Get [x61])] (constructor false) in
  let db := {| keyEncoding := "buffer"; valueEncoding := "buffer" |} in
  let bad := {| keyEncoding := "buffer"; valueEncoding := "utf8" |} in
  let g' := state_after (forward_db db g) in
  (exists msg,
      forward_db bad g
      = (inl (ThrowModule {| message := msg;
                             code := "LEVEL_ENCODING_NOT_SUPPORTED" |}),
         g, [])) /\
  request_call (Put [x62] [x32]) g'
  = (tt, g', [ForwardedCall (Put [x62] [x32])]) /\
  events (ondata (Some (Callback 1 "" (Some [x31]))) g')
  = events (ondata (Some (Callback 1 "" (Some [x31]))) g) /\
  result (_close g') = inr tt.
Proof.
  intros g db bad g'. split.
  - apply (proj1 (forwarding_bypasses_rpc g bad)). right. discriminate.
  - destruct (proj2 (forwarding_bypasses_rpc g db) eq_refl eq_refl)
      as (_ & Hcall & _ & Hdata & Hclose & _).
    split; [apply Hcall|]. fold g' in Hdata, Hclose. split.
    + now rewrite (Hdata (Some (Callback 1 "" (Some [x31])))).
    + apply Hclose. reflexivity.
Defined.

(** X11: after [_close] a guest without a remote factory cannot be
    opened again: [_open] throws [LEVEL_NOT_SUPPORTED] and changes
    nothing, whereas on a guest that was never closed it succeeds and
    changes nothing.  With a remote factory [_open] clears the mark of
    the close first and then attaches a new rpc stream; that succeeds
    when no stream was attached at the close and after the transport
    finish that follows the close, but throws "Only one rpc stream can
    be active" in between, since [_close] leaves the stream it has
    destroyed attached. *)
Theorem reopen_after_close (g : guest) :
  let g' := state_after (_close g) in
  _open false g'
  = (inl (ThrowModule
            {| message := "Cannot reopen many-level database after close()";
               code := "LEVEL_NOT_SUPPORTED" |}), g', []) /\
  (kExplicitClose g = false -> _open false g = (inr tt, g, [])) /\
  (forall g'',
      (kRpcStream g = None /\ g'' = g') \/ g'' = state_after (cleanup g') ->
      let r := _open true g'' in
      result r = inr tt /\
      kExplicitClose (state_after r) = false /\
      kRpcStream (state_after r) = Some (streams g) /\
      events r = []) /\
  (forall proxy,
      kRpcStream g = Some proxy ->
      let r := _open true g' in
      result r = inl (ThrowError "Only one rpc stream can be active") /\
      kExplicitClose (state_after r) = false /\
      kRpcStream (state_after r) = Some proxy).
Proof.
  intros g'. destruct (close_state g) as (Hx & Hs & _ & _ & Hst & Hq & Hi).
  fold g' in Hx, Hs, Hst, Hq, Hi.
  split; [|split; [|split]].
  - unfold _open. now rewrite bind_get_state, Hx.
  - intros Hn. unfold _open. now rewrite bind_get_state, Hn.
  - intros g'' Hcase.
    assert (kRpcStream g'' = None /\ streams g'' = streams g) as [Hs2 Hst2].
    { destruct Hcase as [[Hnone ->] | ->].
      - split; congruence.
      - destruct (cleanup_idle g' Hq Hi)
          as (g2 & -> & _ & _ & _ & Hst2 & _ & _ & _ & Hs2).
        unfold state_after. simpl. split; congruence. }
    unfold _open, createRpcStream, bind, modify, get_state, result,
      state_after, events. simpl. rewrite Hs2. simpl. rewrite Hst2. auto.
  - intros proxy Hp.
    unfold _open, createRpcStream, bind, modify, get_state, result,
      state_after, events. simpl. rewrite Hs, Hp. simpl. rewrite Hs, Hp. auto.
Qed.

Lemma reopen_after_close_witness :
  let g := run [ACreateRpcStream false; ACall (Get [x61])] (constructor false) in
  result (_open false g) = inr tt /\
  result (_open false (state_after (_close g)))
  = inl (ThrowModule
           {| message := "Cannot reopen many-level database after close()";
              code := "LEVEL_NOT_SUPPORTED" |}) /\
  result (_open true (state_after (_close g)))
  = inl (ThrowError "Only one rpc stream can be active") /\
  result (_open true (state_after (cleanup (state_after (_close g)))))
  = inr tt.
Proof.
  intros g. destruct (reopen_after_close g) as (H1 & H2 & H3 & H4).
  split; [now rewrite (H2 eq_refl)|]. split; [now rewrite H1|]. split.
  - apply (H4 0%nat). reflexivity.
  - apply (H3 _ (or_intror eq_refl)).
Defined.

(** X12: a transport finish, with or without retry, detaches the rpc
    stream, so that the next [createRpcStream] succeeds: it returns a
    new proxy, attaches it and installs the keepalive handle it was
    given.  [_close] alone does not detach: the stream that was
    attached stays attached, and [createRpcStream] throws, until the
    transport finish has followed. *)
Theorem reattach_after_detach (g : guest) (opts_ref : bool) :
  (forall g',
      g' = state_after (cleanup g) \/
      g' = state_after (cleanup (state_after (_close g))) ->
      let r := createRpcStream opts_ref g' in
      kRpcStream g' = None /\
      result r = inr (streams g) /\
      kRpcStream (state_after r) = Some (streams g) /\
      kRef (state_after r) = opts_ref /\
      kRequests (state_after r) = kRequests g' /\
      kIterators (state_after r) = kIterators g' /\
      kEncode (state_after r) = kEncode g') /\
  kRpcStream (state_after (_close g)) = kRpcStream g /\
  (forall proxy,
      kRpcStream g = Some proxy ->
      createRpcStream opts_ref (state_after (_close g))
      = (inl "Only one rpc stream can be active"%string,
         state_after (_close g), [])).
Proof.
  destruct (close_state g) as (_ & Hs & _ & _ & Hst & Hq & Hi).
  split; [|split; [exact Hs|]].
  - intros g' Hg' r.
    assert (kRpcStream g' = None /\ streams g' = streams g) as [Hs' Hst'].
    { destruct Hg' as [-> | ->].
      - destruct (kRetry g) eqn:Hr.
        + destruct (cleanup_retry_spec g Hr) as (evs & -> & _). auto.
        + rewrite (cleanup_abort_spec g Hr). auto.
      - destruct (cleanup_idle _ Hq Hi)
          as (g2 & -> & _ & _ & _ & Hst2 & _ & _ & _ & Hs2).
        unfold state_after. simpl. split; congruence. }
    subst r. unfold createRpcStream. rewrite bind_get_state, Hs'.
    unfold bind, modify, ret, result, state_after. simpl. rewrite Hst'.
    repeat split; reflexivity.
  - intros proxy Hp. unfold createRpcStream.
    now rewrite bind_get_state, Hs, Hp.
Qed.

Lemma reattach_after_detach_witness :
  let g := run [ACreateRpcStream false; ACall (Get [x61])] (constructor true) in
  let g' := state_after (cleanup g) in
  result (createRpcStream false g) = inl "Only one rpc stream can be active"%string /\
  result (createRpcStream true g') = inr 1%nat /\
  kRpcStream (state_after (createRpcStream true g')) = Some 1%nat /\
  result (createRpcStream true (state_after (_close g)))
  = inl "Only one rpc stream can be active"%string.
Proof.
  intros g g'.
  destruct (reattach_after_detach g true) as (Hfin & _ & Hclose).
  destruct (Hfin g' (or_introl eq_refl)) as (_ & H1 & H2 & _).
  split; [reflexivity|]. split; [exact H1|]. split; [exact H2|].
  now rewrite (Hclose 0%nat eq_refl).
Defined.

(** ** Seeking, waiting and delivery *)

(** X13: on an iterator that has not errored and is below its limit,
    [_seek] writes one [iteratorSeek] frame with the iterator's id, the
    next seq and the target, and the [_next] that follows suspends,
    whether or not the iterator had ended or had frames queued: the
    queue is empty, the end mark is cleared, the seek target is kept in
    the record and the bookmark is dropped, while [consumed] stays. *)
Theorem seek_then_next_waits (g : guest) (it : nat) (o : iterator)
    (target : bytes) :
  heap g !! it = Some o ->
  kErrored o = false ->
  reached (it_consumed (kRequest o)) (limit o) = false ->
  let r1 := ManyLevelGuestIterator._seek it target g in
  let r2 := ManyLevelGuestIterator._next it (state_after r1) in
  kEncode (state_after r1)
  = kEncode g ++ [FIteratorSeek (it_id (kRequest o)) (kSeq o + 1) target] /\
  result r2 = NextSuspended /\
  kEncode (state_after r2) = kEncode (state_after r1) /\
  exists o2,
    heap (state_after r2) !! it = Some o2 /\
    awaiting o2 = Waiting /\ kCallback o2 = true /\
    kPending o2 = [] /\ kEnded o2 = false /\
    kSeq o2 = kSeq o + 1 /\
    it_seq (kRequest o2) = kSeq o + 1 /\
    ack_seq (kAckMessage o2) = kSeq o + 1 /\
    it_seek (kRequest o2) = Some target /\
    it_bookmark (kRequest o2) = None /\
    it_consumed (kRequest o2) = it_consumed (kRequest o).
Proof.
  intros Ho He Hr r1 r2.
  assert (kEncode (state_after r1)
          = kEncode g ++ [FIteratorSeek (it_id (kRequest o)) (kSeq o + 1) target])
    as Henc.
  { subst r1. unfold ManyLevelGuestIterator._seek.
    rewrite bind_get_state, Ho, He, state_after_bind, kWrite_spec.
    reflexivity. }
  pose proof (seek_lookup it target g o Ho He) as Ho1. fold r1 in Ho1.
  split; [exact Henc|].
  set (o1 := ManyLevelGuestIterator.seek_object target o) in *.
  assert (reached (it_consumed (kRequest o1)) (limit o1) = false) as Hr1
    by exact Hr.
  assert (kErrored o1 = false) as He1 by exact He.
  assert (kEnded o1 = false) as Hn1 by reflexivity.
  assert (kPending o1 = []) as Hp1 by reflexivity.
  subst r2. unfold ManyLevelGuestIterator._next.
  rewrite bind_get_state, Ho1, Hr1, He1, Hn1, Hp1.
  cbn [orb andb length Nat.eqb].
  rewrite result_bind, state_after_bind.
  split; [reflexivity|]. split; [reflexivity|].
  eexists. split; [apply (put_it_lookup _ _ _ _ Ho1)|].
  simpl. repeat split; reflexivity.
Qed.

Lemma seek_then_next_waits_witness :
  let g := run [AIterator scan;
                AData (Some (IteratorFrame (IteratorData 1 0 [[x61]; [x31]])));
                AData (Some (IteratorEnd 1 0))]
             (constructor false) in
  let r1 := ManyLevelGuestIterator._seek 0 [x66] g in
  let r2 := ManyLevelGuestIterator._next 0 (state_after r1) in
  result (ManyLevelGuestIterator._next 0 g) = NextEntry (Some [x61]) (Some [x31]) /\
  kEncode (state_after r1) = kEncode g ++ [FIteratorSeek 1 1 [x66]] /\
  result r2 = NextSuspended.
Proof.
  intros g r1 r2. split; [reflexivity|].
  assert (exists o, heap g !! 0%nat = Some o) as [o Ho]
    by (eexists; reflexivity).
  pose proof (seek_then_next_waits g 0%nat o [x66] Ho) as H.
  vm_compute in Ho. injection Ho as <-.
  destruct (H eq_refl eq_refl) as (H1 & H2 & _).
  split; [exact H1 | exact H2].
Defined.

Lemma oniteratordata_known res it o g :
  IdMap.get (res_id res) (kIterators g) = Some it ->
  heap g !! it = Some o ->
  kSeq o = res_seq res ->
  ondata (Some (IteratorFrame res)) g
  = (tt,
     set_heap (<[it := (if kCallback o then wake_waiter else fun x => x)
                         (set_kPending (kPending o ++ [res]) o)]> (heap g)) g,
     []).
Proof.
  intros Hid Ho Hs.
  set (o' := (if kCallback o then wake_waiter else fun x => x)
               (set_kPending (kPending o ++ [res]) o)).
  assert (oniteratordata res g
          = (tt, set_heap (<[it := o']> (heap g)) g, [])) as Hd.
  { unfold oniteratordata. rewrite bind_get_state, Hid, Ho, Hs, Z.eqb_refl.
    subst o'. simpl. now destruct (kCallback o). }
  unfold ondata, dispatch, bind. rewrite Hd, kFlushed_spec.
  unfold flush_log.
  now rewrite (get_Some_not_flushed (set_heap (<[it := o']> (heap g)) g)
                 (res_id res) it Hid).
Qed.

Lemma oniteratorend_known id it o g :
  IdMap.get id (kIterators g) = Some it ->
  heap g !! it = Some o ->
  ondata (Some (IteratorEnd id (kSeq o))) g
  = (tt,
     set_heap (<[it := (if kCallback o then wake_waiter else fun x => x)
                         (set_kEnded true o)]> (heap g)) g,
     []).
Proof.
  intros Hid Ho.
  set (o' := (if kCallback o then wake_waiter else fun x => x)
               (set_kEnded true o)).
  assert (oniteratorend id (kSeq o) g
          = (tt, set_heap (<[it := o']> (heap g)) g, [])) as Hd.
  { unfold oniteratorend. rewrite bind_get_state, Hid, Ho, Z.eqb_refl.
    subst o'. simpl. now destruct (kCallback o). }
  unfold ondata, dispatch, bind. rewrite Hd, kFlushed_spec.
  unfold flush_log.
  now rewrite (get_Some_not_flushed (set_heap (<[it := o']> (heap g)) g)
                 id it Hid).
Qed.

(** X14: a [_next] that is suspended on an empty queue is woken by the
    next data frame that carries the iterator's id and current seq:
    processing the frame logs nothing and writes nothing, and the
    resumed call returns the first entry of the frame, cut according to
    the iterator's [keys] and [values] options, and counts it. *)
Theorem frame_wakes_next (g : guest) (id : Z) (it : nat) (o : iterator)
    (data data' : list bytes) (key value : option bytes) :
  IdMap.get id (kIterators g) = Some it ->
  heap g !! it = Some o ->
  awaiting o = Waiting ->
  kCallback o = true ->
  kPending o = [] ->
  take_entry (it_options (kRequest o)) data = (key, value, data') ->
  let r1 := ondata (Some (IteratorFrame (IteratorData id (kSeq o) data))) g in
  let r2 := ManyLevelGuestIterator.next_resume it (state_after r1) in
  events r1 = [] /\
  kEncode (state_after r1) = kEncode g /\
  result r2 = NextEntry key value /\
  exists o2,
    heap (state_after r2) !! it = Some o2 /\
    awaiting o2 = Idle /\
    it_consumed (kRequest o2) = it_consumed (kRequest o) + 1 /\
    kPending o2 = match data' with
                  | [] => []
                  | _ :: _ => [IteratorData id (kSeq o) data']
                  end.
Proof.
  intros Hid Ho Hw Hcb Hp Ht r1 r2.
  pose proof (oniteratordata_known (IteratorData id (kSeq o) data) it o g
                Hid Ho eq_refl) as H1.
  rewrite Hcb, Hp in H1.
  set (o1 := set_awaiting Woken (set_kPending [IteratorData id (kSeq o) data] o)).
  assert (wake_waiter (set_kPending ([] ++ [IteratorData id (kSeq o) data]) o)
          = o1) as Hwake
    by (unfold wake_waiter; simpl; now rewrite Hw).
  rewrite Hwake in H1.
  change (ondata (Some (IteratorFrame (IteratorData id (kSeq o) data))) g)
    with r1 in H1.
  clearbody r1. subst r1.
  assert (heap (state_after (tt, set_heap (<[it := o1]> (heap g)) g,
                             @nil event)) !! it = Some o1) as Ho1.
  { unfold state_after. simpl.
    apply list_lookup_insert_eq. eapply lookup_lt_Some; eauto. }
  split; [reflexivity|]. split; [reflexivity|].
  subst r2. unfold ManyLevelGuestIterator.next_resume.
  rewrite bind_get_state, Ho1. simpl.
  rewrite result_bind, state_after_bind.
  pose proof (put_it_lookup it o1 (set_awaiting Idle o1) _ Ho1) as Ho1'.
  unfold ManyLevelGuestIterator.next_body.
  rewrite bind_get_state, Ho1'. unfold ManyLevelGuestIterator.pull.
  change (kPending (set_awaiting Idle o1))
    with [IteratorData id (kSeq o) data].
  change (kRequest (set_awaiting Idle o1)) with (kRequest o).
  cbv iota beta. rewrite Ht.
  match goal with
  | |- context [kRetry ?st] => set (g1 := st)
  end.
  destruct data' as [|d data'']; [destruct (below _ _)|];
    rewrite !result_bind, !state_after_bind, ?kWrite_spec;
    (split; [reflexivity|]); eexists;
    (split; [apply (put_it_lookup _ _ _ _ Ho1')|]);
    destruct (kRetry g1); simpl; repeat split; reflexivity.
Qed.

Lemma frame_wakes_next_witness :
  let g := run [AIterator scan; ANext 0%nat] (constructor false) in
  let r1 := ondata (Some (IteratorFrame
                            (IteratorData 1 0 [[x61]; [x31]; [x62]; [x32]]))) g in
  let r2 := ManyLevelGuestIterator.next_resume 0 (state_after r1) in
  events r1 = [] /\
  result r2 = NextEntry (Some [x61]) (Some [x31]) /\
  exists o2,
    heap (state_after r2) !! 0%nat = Some o2 /\
    it_consumed (kRequest o2) = 1 /\
    kPending o2 = [IteratorData 1 0 [[x62]; [x32]]].
Proof.
  intros g r1 r2.
  assert (exists o, heap g !! 0%nat = Some o) as [o Ho]
    by (eexists; reflexivity).
  pose proof (frame_wakes_next g 1 0%nat o [[x61]; [x31]; [x62]; [x32]]
                [[x62]; [x32]] (Some [x61]) (Some [x31]) eq_refl Ho) as H.
  vm_compute in Ho. injection Ho as <-.
  destruct (H eq_refl eq_refl eq_refl eq_refl)
    as (H1 & _ & H3 & o2 & Ho2 & _ & Hc & Hp).
  split; [exact H1|]. split; [exact H3|].
  exists o2. split; [exact Ho2|]. split; [exact Hc | exact Hp].
Defined.

(** X15: an end frame with the iterator's current seq marks the
    iterator as ended and wakes a suspended [_next], which then returns
    the end; later calls return the end at once without suspending and
    without changing anything.  The mark does not discard frames that
    are still queued: on an ended iterator with a data frame at the head
    of the queue, [_next] returns that frame's first entry. *)
Theorem end_wakes_next (g : guest) (id : Z) (it : nat) (o : iterator) :
  IdMap.get id (kIterators g) = Some it ->
  heap g !! it = Some o ->
  kErrored o = false ->
  reached (it_consumed (kRequest o)) (limit o) = false ->
  (awaiting o = Waiting -> kCallback o = true -> kPending o = [] ->
   let r1 := ondata (Some (IteratorEnd id (kSeq o))) g in
   let r2 := ManyLevelGuestIterator.next_resume it (state_after r1) in
   events r1 = [] /\
   result r2 = NextEnd /\
   ManyLevelGuestIterator._next it (state_after r2)
   = (NextEnd, state_after r2, [])) /\
  (forall fid seq data rest key value data',
      kEnded o = true ->
      kPending o = IteratorData fid seq data :: rest ->
      take_entry (it_options (kRequest o)) data = (key, value, data') ->
      result (ManyLevelGuestIterator._next it g) = NextEntry key value).
Proof.
  intros Hid Ho He Hr. split.
  - intros Hw Hcb Hp r1 r2.
    pose proof (oniteratorend_known id it o g Hid Ho) as H1.
    rewrite Hcb in H1.
    set (o1 := set_awaiting Woken (set_kEnded true o)).
    assert (wake_waiter (set_kEnded true o) = o1) as Hwake
      by (unfold wake_waiter; simpl; now rewrite Hw).
    rewrite Hwake in H1.
    change (ondata (Some (IteratorEnd id (kSeq o))) g) with r1 in H1.
    clearbody r1. subst r1.
    assert (heap (state_after (tt, set_heap (<[it := o1]> (heap g)) g,
                               @nil event)) !! it = Some o1) as Ho1.
    { unfold state_after. simpl.
      apply list_lookup_insert_eq. eapply lookup_lt_Some; eauto. }
    split; [reflexivity|].
    pose proof (put_it_lookup it o1 (set_awaiting Idle o1) _ Ho1) as Ho1'.
    assert (ManyLevelGuestIterator.next_body it
              (state_after (put_it it (set_awaiting Idle o1)
                 (state_after (tt, set_heap (<[it := o1]> (heap g)) g,
                               @nil event))))
            = (NextEnd,
               state_after (put_it it (set_awaiting Idle o1)
                 (state_after (put_it it (set_awaiting Idle o1)
                    (state_after (tt, set_heap (<[it := o1]> (heap g)) g,
                                  @nil event))))),
               [])) as Hbody.
    { unfold ManyLevelGuestIterator.next_body.
      rewrite bind_get_state, Ho1'. unfold ManyLevelGuestIterator.pull.
      change (kPending (set_awaiting Idle o1)) with (kPending o).
      rewrite Hp. reflexivity. }
    subst r2. unfold ManyLevelGuestIterator.next_resume.
    rewrite bind_get_state, Ho1. cbn [awaiting o1 set_awaiting].
    rewrite result_bind, state_after_bind, Hbody.
    split; [reflexivity|]. unfold state_after at 1. cbn [fst snd].
    match goal with
    | |- ManyLevelGuestIterator._next it ?st = _ =>
        assert (heap st !! it = Some (set_awaiting Idle o1)) as Ho2
          by (apply (put_it_lookup _ _ _ _ Ho1'))
    end.
    unfold ManyLevelGuestIterator._next. rewrite bind_get_state, Ho2.
    change (kRequest (set_awaiting Idle o1)) with (kRequest o).
    change (limit (set_awaiting Idle o1)) with (limit o).
    change (kErrored (set_awaiting Idle o1)) with (kErrored o).
    change (kEnded (set_awaiting Idle o1)) with true.
    change (kPending (set_awaiting Idle o1)) with (kPending o).
    rewrite Hr, He, Hp. reflexivity.
  - intros fid seq data rest key value data' Hn Hp Ht.
    unfold ManyLevelGuestIterator._next.
    rewrite bind_get_state, Ho, Hr, He, Hn, Hp. cbn [orb andb length Nat.eqb].
    unfold ManyLevelGuestIterator.next_body.
    rewrite bind_get_state, Ho. unfold ManyLevelGuestIterator.pull.
    rewrite Hp, Ht.
    destruct data' as [|d data'']; [destruct (below _ _)|];
      now rewrite !result_bind.
Qed.

Lemma end_wakes_next_witness :
  let g := run [AIterator scan; ANext 0%nat] (constructor false) in
  let r1 := ondata (Some (IteratorEnd 1 0)) g in
  let r2 := ManyLevelGuestIterator.next_resume 0 (state_after r1) in
  let g' := run [AIterator scan;
                 AData (Some (IteratorFrame (IteratorData 1 0 [[x61]; [x31]])));
                 AData (Some (IteratorEnd 1 0))] (constructor false) in
  result r2 = NextEnd /\
  ManyLevelGuestIterator._next 0 (state_after r2) = (NextEnd, state_after r2, []) /\
  result (ManyLevelGuestIterator._next 0 g') = NextEntry (Some [x61]) (Some [x31]).
Proof.
  intros g r1 r2 g'.
  assert (exists o, heap g !! 0%nat = Some o) as [o Ho]
    by (eexists; reflexivity).
  assert (exists o', heap g' !! 0%nat = Some o') as [o' Ho']
    by (eexists; reflexivity).
  pose proof (end_wakes_next g 1 0%nat o eq_refl Ho) as H.
  pose proof (end_wakes_next g' 1 0%nat o' eq_refl Ho') as H'.
  vm_compute in Ho. injection Ho as <-.
  vm_compute in Ho'. injection Ho' as <-.
  destruct (proj1 (H eq_refl eq_refl) eq_refl eq_refl eq_refl) as (_ & H2 & H3).
  split; [exact H2|]. split; [exact H3|].
  exact (proj2 (H' eq_refl eq_refl) 1 0 [[x61]; [x31]] [] (Some [x61])
           (Some [x31]) [] eq_refl eq_refl eq_refl).
Defined.

(** X16: processing an inbound chunk never writes a frame, never
    attaches or detaches the rpc stream, never adds or removes an
    iterator record or an iterator object, and never adds a request
    record: the requests map keeps its counter and can only lose
    records. *)
Theorem inbound_never_writes (data : option reply) (g : guest) :
  let g' := state_after (ondata data g) in
  kEncode g' = kEncode g /\
  kRpcStream g' = kRpcStream g /\
  kIterators g' = kIterators g /\
  length (heap g') = length (heap g) /\
  IdMap._seq (kRequests g') = IdMap._seq (kRequests g) /\
  (forall id req, IdMap.get id (kRequests g) = None ->
                  In (id, req) (IdMap._map (kRequests g')) -> False) /\
  IdMap.size (kRequests g') <= IdMap.size (kRequests g).
Proof.
  intros g'.
  assert (exists m h,
             g' = set_heap h (set_kRequests m g) /\
             length h = length (heap g) /\
             (m = kRequests g \/ exists id, m = snd (IdMap.remove id (kRequests g))))
    as (m & h & -> & Hlen & Hm).
  { subst g'. destruct data as [res|];
      [|exists (kRequests g), (heap g); now destruct g; auto].
    unfold ondata. rewrite state_after_bind.
    match goal with
    | |- context [kFlushed ?st] => rewrite (kFlushed_spec st)
    end.
    unfold state_after at 1. cbn [fst snd].
    destruct res as [id error value | res | id seq | id error values];
      unfold dispatch.
    - unfold oncallback. rewrite bind_get_state.
      exists (snd (IdMap.remove id (kRequests g))), (heap g).
      split; [|split; [reflexivity | right; now exists id]].
      destruct (IdMap.remove id (kRequests g)) as [[req|] m];
        [destruct (truthy error)|]; reflexivity.
    - unfold oniteratordata. rewrite bind_get_state.
      destruct (IdMap.get (res_id res) (kIterators g)) as [it|];
        [|exists (kRequests g), (heap g); now destruct g; auto].
      destruct (heap g !! it) as [o|];
        [|exists (kRequests g), (heap g); now destruct g; auto].
      destruct (negb (kSeq o =? res_seq res));
        [exists (kRequests g), (heap g); now destruct g; auto|].
      eexists (kRequests g), _. split; [reflexivity|].
      split; [apply length_insert | now left].
    - unfold oniteratorend. rewrite bind_get_state.
      destruct (IdMap.get id (kIterators g)) as [it|];
        [|exists (kRequests g), (heap g); now destruct g; auto].
      destruct (heap g !! it) as [o|];
        [|exists (kRequests g), (heap g); now destruct g; auto].
      destruct (negb (kSeq o =? seq));
        [exists (kRequests g), (heap g); now destruct g; auto|].
      eexists (kRequests g), _. split; [reflexivity|].
      split; [apply length_insert | now left].
    - unfold ongetmanycallback. rewrite bind_get_state.
      exists (snd (IdMap.remove id (kRequests g))), (heap g).
      split; [|split; [reflexivity | right; now exists id]].
      destruct (IdMap.remove id (kRequests g)) as [[req|] m];
        [destruct (truthy error)|]; reflexivity. }
  simpl. repeat split; auto.
  - destruct Hm as [-> | [id ->]]; [reflexivity|].
    unfold IdMap.remove. now destruct (IdMap.map_get _ _).
  - intros id req Hnone Hin. destruct Hm as [-> | [id' ->]].
    + apply map_get_None_keys in Hnone. apply Hnone.
      change id with (fst (id, req)). now apply in_map.
    + apply remove_In in Hin. apply map_get_None_keys in Hnone. apply Hnone.
      change id with (fst (id, req)). now apply in_map.
  - destruct Hm as [-> | [id ->]]; [lia|].
    unfold IdMap.remove, IdMap.size.
    destruct (IdMap.map_get id (IdMap._map (kRequests g))) eqn:Hg; simpl; [|lia].
    rewrite (map_delete_length _ _ _ Hg). lia.
Qed.

(** ** Reconnecting and closing iterators *)

Lemma pull_entry_record retry o key value :
  snd (fst (ManyLevelGuestIterator.pull retry o)) = NextEntry key value ->
  let o' := fst (fst (ManyLevelGuestIterator.pull retry o)) in
  it_seek (kRequest o') = None /\
  it_seq (kRequest o') = it_seq (kRequest o) /\
  (retry = true -> it_bookmark (kRequest o') = key).
Proof.
  unfold ManyLevelGuestIterator.pull.
  destruct (kPending o) as [|[id seq data | id seq error] rest]; simpl.
  - destruct (kEnded o); discriminate.
  - destruct (take_entry _ data) as [[k v] [|d data']];
      [destruct (below _ _)|]; simpl; intros [= <- <-];
      destruct retry; simpl; auto; repeat split; auto; discriminate.
  - destruct (truthy error); discriminate.
Qed.

Lemma cleanup_replays_iterator g id it o :
  kRetry g = true ->
  IdMap.get id (kIterators g) = Some it ->
  heap g !! it = Some o ->
  In (FIterator (kRequest o)) (kEncode (state_after (cleanup g))) /\
  forall i s t, ~ In (FIteratorSeek i s t) (kEncode (state_after (cleanup g))).
Proof.
  intros Hr Hid Ho. destruct (cleanup_retry_spec g Hr) as (evs & -> & _).
  unfold state_after. simpl. split.
  - apply in_or_app. right. eapply iterator_frames_In; eauto.
    eapply get_In_values; eauto.
  - intros i s t Hin. apply in_app_or in Hin. destruct Hin as [Hin|Hin].
    + apply in_map_iff in Hin. destruct Hin as (x & Hx & _). discriminate.
    + unfold iterator_frames in Hin. apply in_flat_map in Hin.
      destruct Hin as (j & _ & Hin).
      destruct (heap g !! j); simpl in Hin; intuition discriminate.
Qed.

(** X17: on a guest that retries, a seek that has not been consumed
    survives a transport finish: the frame that replays the iterator
    carries the seek target, no bookmark and the seq of the seek, and
    no separate [iteratorSeek] frame is replayed.  Once a pull has
    returned an entry the record's seek is cleared, so the replay after
    that carries no seek and has the pulled key as its bookmark. *)
Theorem seek_survives_reconnect (g : guest) (id : Z) (it : nat) (o : iterator) :
  kRetry g = true ->
  IdMap.get id (kIterators g) = Some it ->
  heap g !! it = Some o ->
  (forall target,
      kErrored o = false ->
      let g1 := state_after (ManyLevelGuestIterator._seek it target g) in
      exists frame,
        In (FIterator frame) (kEncode (state_after (cleanup g1))) /\
        it_id frame = it_id (kRequest o) /\
        it_seek frame = Some target /\
        it_bookmark frame = None /\
        it_seq frame = kSeq o + 1 /\
        it_consumed frame = it_consumed (kRequest o) /\
        forall i s t,
          ~ In (FIteratorSeek i s t) (kEncode (state_after (cleanup g1)))) /\
  (forall key value,
      let r := ManyLevelGuestIterator.next_body it g in
      result r = NextEntry key value ->
      exists frame,
        In (FIterator frame) (kEncode (state_after (cleanup (state_after r)))) /\
        it_id frame = it_id (kRequest o) /\
        it_seek frame = None /\
        it_bookmark frame = key /\
        it_seq frame = it_seq (kRequest o)).
Proof.
  intros Hr Hid Ho. split.
  - intros target He g1.
    pose proof (seek_lookup it target g o Ho He) as Ho1. fold g1 in Ho1.
    assert (kRetry g1 = true /\ IdMap.get id (kIterators g1) = Some it)
      as [Hr1 Hid1].
    { subst g1. unfold ManyLevelGuestIterator._seek.
      rewrite bind_get_state, Ho, He, state_after_bind, kWrite_spec. auto. }
    destruct (cleanup_replays_iterator g1 id it _ Hr1 Hid1 Ho1) as [Hin Hno].
    eexists. split; [exact Hin|]. simpl. repeat split; auto.
  - intros key value r Hres.
    assert (exists o', heap (state_after r) !! it = Some o' /\
                       o' = fst (fst (ManyLevelGuestIterator.pull true o)) /\
                       snd (fst (ManyLevelGuestIterator.pull true o))
                       = NextEntry key value /\
                       kRetry (state_after r) = true /\
                       IdMap.get id (kIterators (state_after r)) = Some it)
      as (o' & Ho' & -> & Hout & Hr' & Hid').
    { revert Hres. subst r. unfold ManyLevelGuestIterator.next_body.
      rewrite bind_get_state, Ho, Hr.
      destruct (ManyLevelGuestIterator.pull true o) as [[o' outcome] ack].
      rewrite !result_bind, !state_after_bind. intros Hres.
      exists o'. split.
      - destruct ack; rewrite ?kWrite_spec; apply (put_it_lookup _ _ _ _ Ho).
      - split; [reflexivity|]. split; [exact Hres|].
        destruct ack; rewrite ?kWrite_spec; auto. }
    destruct (cleanup_replays_iterator _ id it _ Hr' Hid' Ho') as [Hin _].
    destruct (pull_entry_record true o key value Hout) as (Hs & Hq & Hb).
    destruct (pull_counts true o) as (Hi & _).
    eexists. split; [exact Hin|]. repeat split; auto.
Qed.

Lemma seek_survives_reconnect_witness :
  let g := run [AIterator scan;
                AData (Some (IteratorFrame (IteratorData 1 0 [[x61]; [x31]])))]
             (constructor true) in
  let g1 := state_after (ManyLevelGuestIterator._seek 0 [x66] g) in
  let r := ManyLevelGuestIterator.next_body 0 g in
  kEncode (state_after (cleanup g1))
  = [FIterator {| it_id := 1; it_seq := 1; it_options := scan;
                  it_consumed := 0; it_bookmark := None;
                  it_seek := Some [x66] |}] /\
  exists frame,
    In (FIterator frame) (kEncode (state_after (cleanup (state_after r)))) /\
    it_id frame = 1 /\ it_seek frame = None /\
    it_bookmark frame = Some [x61] /\ it_seq frame = 0.
Proof.
  intros g g1 r. split; [reflexivity|].
  assert (exists o, heap g !! 0%nat = Some o) as [o Ho]
    by (eexists; reflexivity).
  pose proof (seek_survives_reconnect g 1 0%nat o eq_refl eq_refl Ho) as H.
  vm_compute in Ho. injection Ho as <-.
  exact (proj2 H (Some [x61]) (Some [x31]) eq_refl).
Defined.

Lemma oniteratordata_unknown res g :
  IdMap.get (res_id res) (kIterators g) = None ->
  oniteratordata res g = (tt, g, []).
Proof. intros H. unfold oniteratordata. now rewrite bind_get_state, H. Qed.

Lemma oniteratorend_unknown id seq g :
  IdMap.get id (kIterators g) = None -> oniteratorend id seq g = (tt, g, []).
Proof. intros H. unfold oniteratorend. now rewrite bind_get_state, H. Qed.

(** X18: the [_close] of an iterator writes one [iteratorClose] frame
    with the iterator's id and removes the record stored under that id,
    leaving the records of all other ids; the iterator objects are not
    touched.  From then on data, error and end frames addressed to that
    id change nothing in the guest. *)
Theorem close_then_frames_ignored (g : guest) (it : nat) (o : iterator) :
  reachable g ->
  heap g !! it = Some o ->
  let id := it_id (kRequest o) in
  let g' := state_after (ManyLevelGuestIterator._close it g) in
  kEncode g' = kEncode g ++ [FIteratorClose id] /\
  IdMap.get id (kIterators g') = None /\
  (forall id', id' <> id ->
               IdMap.get id' (kIterators g') = IdMap.get id' (kIterators g)) /\
  heap g' = heap g /\
  kRequests g' = kRequests g /\
  forall res,
    res_id res = id ->
    state_after (ondata (Some (IteratorFrame res)) g') = g' /\
    state_after (ondata (Some (IteratorEnd id (res_seq res))) g') = g'.
Proof.
  intros Hg Ho id g'.
  destruct (reachable_sound _ Hg) as [_ _ Hkeys _ _ _ _].
  set (gc := set_kIterators (snd (IdMap.remove id (kIterators g)))
               (set_kEncode (kEncode g ++ [FIteratorClose id]) g)).
  assert (g' = gc) as ->
    by (subst g'; now rewrite (iterator_close_spec _ _ _ Ho)).
  assert (IdMap.get id (kIterators gc) = None) as Hnone
    by apply (get_remove_eq id _ Hkeys).
  split; [reflexivity|]. split; [exact Hnone|].
  split; [intros id' Hne; now apply get_remove_ne|].
  split; [reflexivity|]. split; [reflexivity|].
  intros res Hres. split.
  - unfold ondata, dispatch, bind.
    rewrite oniteratordata_unknown by (now rewrite Hres).
    now rewrite kFlushed_spec.
  - unfold ondata, dispatch, bind.
    rewrite (oniteratorend_unknown _ (res_seq res) _ Hnone).
    now rewrite kFlushed_spec.
Qed.

Lemma close_then_frames_ignored_witness :
  let g := run [AIterator scan; AIterator scan] (constructor false) in
  let g' := state_after (ManyLevelGuestIterator._close 0 g) in
  kEncode g' = kEncode g ++ [FIteratorClose 1] /\
  IdMap.get 1 (kIterators g') = None /\
  IdMap.get 2 (kIterators g') = Some 1%nat /\
  state_after (ondata (Some (IteratorFrame (IteratorData 1 0 [[x61]; [x31]]))) g')
  = g'.
Proof.
  intros g g'.
  assert (reachable g) as Hg by (exists false; eexists; reflexivity).
  assert (exists o, heap g !! 0%nat = Some o) as [o Ho]
    by (eexists; reflexivity).
  pose proof (close_then_frames_ignored g 0%nat o Hg Ho) as H.
  vm_compute in Ho. injection Ho as <-.
  destruct H as (H1 & H2 & _ & _ & _ & H6).
  split; [exact H1|]. split; [exact H2|]. split; [reflexivity|].
  exact (proj1 (H6 (IteratorData 1 0 [[x61]; [x31]]) eq_refl)).
Defined.

(** ** Batches *)

(** [_next] on a data frame at the head of the queue. *)
Lemma next_pull_data it o g id seq data rest key value data' :
  heap g !! it = Some o ->
  kErrored o = false ->
  reached (it_consumed (kRequest o)) (limit o) = false ->
  kPending o = IteratorData id seq data :: rest ->
  take_entry (it_options (kRequest o)) data = (key, value, data') ->
  let r := ManyLevelGuestIterator._next it g in
  result r = NextEntry key value /\
  exists o',
    heap (state_after r) !! it = Some o' /\
    kErrored o' = false /\
    limit o' = limit o /\
    it_options (kRequest o') = it_options (kRequest o) /\
    it_consumed (kRequest o') = it_consumed (kRequest o) + 1 /\
    kPending o' = match data' with
                  | [] => rest
                  | _ :: _ => IteratorData id seq data' :: rest
                  end.
Proof.
  intros Ho He Hr Hp Ht r. subst r.
  unfold ManyLevelGuestIterator._next.
  rewrite bind_get_state, Ho, Hr, He, Hp. cbn [orb andb length Nat.eqb].
  rewrite andb_false_r.
  unfold ManyLevelGuestIterator.next_body.
  rewrite bind_get_state, Ho. unfold ManyLevelGuestIterator.pull.
  rewrite Hp, Ht.
  destruct data' as [|d data'']; [destruct (below _ _)|];
    rewrite !result_bind, !state_after_bind, ?kWrite_spec;
    (split; [reflexivity|]); eexists;
    (split; [apply (put_it_lookup _ _ _ _ Ho)|]);
    destruct (kRetry g); simpl; repeat split; auto.
Qed.

(** The first entry of a frame of whole entries, as [take_entry] cuts
    it, and what is left. *)
Lemma entries_step o d :
  whole o d -> o_keys o || o_values o = true ->
  exists key value d',
    take_entry o d = (key, value, d') /\
    (forall tail, entries_of o (d ++ tail)
                  = NextEntry key value :: entries_of o (d' ++ tail)) /\
    (d' = [] \/ whole o d') /\
    (length d' < length d)%nat.
Proof.
  intros [Hne Heven] Hkv. unfold take_entry, whole.
  destruct d as [|x d]; [congruence|].
  destruct (o_keys o) eqn:Hk, (o_values o) eqn:Hv; simpl in *;
    try discriminate.
  - destruct d as [|y d]; [specialize (Heven eq_refl); discriminate|].
    exists (Some x), (Some y), d. split; [reflexivity|].
    split; [intros tail; simpl; now rewrite Hk, Hv|].
    split; [|simpl; lia].
    destruct d as [|z d]; [now left | right].
    split; [discriminate|]. intros _. apply (Heven eq_refl).
  - exists (Some x), None, d. split; [reflexivity|].
    split; [intros tail; simpl; now rewrite Hk, Hv|].
    split; [|simpl; lia].
    destruct d as [|z d]; [now left | right].
    split; [discriminate | discriminate].
  - exists None, (Some x), d. split; [reflexivity|].
    split; [intros tail; simpl; now rewrite Hk, Hv|].
    split; [|simpl; lia].
    destruct d as [|z d]; [now left | right].
    split; [discriminate | discriminate].
Qed.

Lemma result_next_many_S n it g :
  result (next_many (S n) it g)
  = result (ManyLevelGuestIterator._next it g)
    :: result (next_many n it
                 (state_after (ManyLevelGuestIterator._next it g))).
Proof. simpl. now rewrite !result_bind. Qed.

Lemma drain_queue n :
  forall (q : list (list bytes)) g it o id seq,
    (length (concat q) <= n)%nat ->
    heap g !! it = Some o ->
    kErrored o = false ->
    o_keys (it_options (kRequest o)) || o_values (it_options (kRequest o)) = true ->
    kPending o = map (IteratorData id seq) q ->
    Forall (whole (it_options (kRequest o))) q ->
    (forall l, limit o = Some l ->
               it_consumed (kRequest o)
               + Z.of_nat (length (entries_of (it_options (kRequest o)) (concat q)))
               <= l) ->
    result (next_many (length (entries_of (it_options (kRequest o)) (concat q)))
              it g)
    = entries_of (it_options (kRequest o)) (concat q).
Proof.
  induction n as [|n IH]; intros q g it o id seq Hn Ho He Hkv Hp Hw Hl.
  - destruct q as [|d q]; [reflexivity|].
    apply Forall_cons in Hw as [[Hne _] _].
    destruct d; [congruence|]. simpl in Hn. lia.
  - destruct q as [|d q]; [reflexivity|].
    apply Forall_cons in Hw as [Hd Hq].
    destruct (entries_step _ d Hd Hkv) as (key & value & d' & Ht & Hes & Hd' & Hlen).
    simpl concat in *. rewrite Hes in *.
    cbn [length] in *. rewrite result_next_many_S.
    assert (reached (it_consumed (kRequest o)) (limit o) = false) as Hr.
    { destruct (limit o) as [l|] eqn:Hlim; [|reflexivity]. simpl.
      specialize (Hl l eq_refl). destruct (Z.leb_spec l (it_consumed (kRequest o)));
        [lia | reflexivity]. }
    simpl in Hp.
    destruct (next_pull_data it o g id seq d (map (IteratorData id seq) q)
                key value d' Ho He Hr Hp Ht)
      as (Hres & o' & Ho' & He' & Hl' & Hop' & Hc' & Hp').
    rewrite Hres. f_equal.
    set (q' := match d' with [] => q | _ :: _ => d' :: q end).
    assert (concat q' = d' ++ concat q) as Hcat
      by (subst q'; now destruct d').
    assert (kPending o' = map (IteratorData id seq) q') as Hpq
      by (subst q'; rewrite Hp'; now destruct d').
    assert (Forall (whole (it_options (kRequest o))) q') as Hwq.
    { subst q'. destruct d' as [|z d'']; [exact Hq|].
      constructor; [|exact Hq]. destruct Hd' as [Hd'|Hd']; [discriminate | exact Hd']. }
    rewrite <- Hcat, <- Hop'.
    apply (IH q' _ it o' id seq); rewrite ?Hop'; auto.
    + rewrite Hcat. rewrite !length_app in *. lia.
    + intros l Hlim. rewrite Hl' in Hlim. specialize (Hl l Hlim).
      rewrite Hcat, Hc'. lia.
Qed.

(** X19: the entries that successive calls of [_next] return depend only
    on the fields that were sent, not on how they were cut into frames:
    for an iterator that has not errored, with [keys] or [values] set
    and a queue of frames of whole entries, as many calls of [_next] as
    the queue holds entries return exactly the entries of the
    concatenated fields, provided a finite limit leaves room for them. *)
Theorem batch_size_invariance (g : guest) (it : nat) (o : iterator)
    (id seq : Z) (q : list (list bytes)) :
  heap g !! it = Some o ->
  kErrored o = false ->
  o_keys (it_options (kRequest o)) || o_values (it_options (kRequest o)) = true ->
  kPending o = map (IteratorData id seq) q ->
  Forall (whole (it_options (kRequest o))) q ->
  let es := entries_of (it_options (kRequest o)) (concat q) in
  (forall l, limit o = Some l ->
             it_consumed (kRequest o) + Z.of_nat (length es) <= l) ->
  result (next_many (length es) it g) = es.
Proof.
  intros Ho He Hkv Hp Hw es Hl.
  apply (drain_queue (length (concat q)) q g it o id seq); auto.
Qed.

Lemma batch_size_invariance_witness :
  let one := run [AIterator scan;
                  AData (Some (IteratorFrame
                           (IteratorData 1 0 [[x61]; [x31]; [x62]; [x32];
                                              [x63]; [x33]])))]
               (constructor false) in
  let many := run [AIterator scan;
                   AData (Some (IteratorFrame (IteratorData 1 0 [[x61]; [x31]])));
                   AData (Some (IteratorFrame
                            (IteratorData 1 0 [[x62]; [x32]; [x63]; [x33]])))]
                (constructor false) in
  result (next_many 3 0 one)
  = [NextEntry (Some [x61]) (Some [x31]); NextEntry (Some [x62]) (Some [x32]);
     NextEntry (Some [x63]) (Some [x33])] /\
  result (next_many 3 0 many) = result (next_many 3 0 one).
Proof.
  intros one many.
  assert (exists o, heap one !! 0%nat = Some o) as [o1 Ho1]
    by (eexists; reflexivity).
  assert (exists o, heap many !! 0%nat = Some o) as [o2 Ho2]
    by (eexists; reflexivity).
  pose proof (batch_size_invariance one 0%nat o1 1 0
                [[[x61]; [x31]; [x62]; [x32]; [x63]; [x33]]] Ho1) as H1.
  pose proof (batch_size_invariance many 0%nat o2 1 0
                [[[x61]; [x31]]; [[x62]; [x32]; [x63]; [x33]]] Ho2) as H2.
  vm_compute in Ho1. injection Ho1 as <-.
  vm_compute in Ho2. injection Ho2 as <-.
  assert (forall d : list bytes, d <> [] -> Nat.even (length d) = true ->
                                 whole scan d) as Hwhole
    by (intros d Hd Hev; split; auto).
  specialize (H1 eq_refl eq_refl eq_refl).
  specialize (H2 eq_refl eq_refl eq_refl).
  assert (Forall (whole scan) [[[x61]; [x31]; [x62]; [x32]; [x63]; [x33]]])
    as Hw1 by (repeat constructor; discriminate).
  assert (Forall (whole scan) [[[x61]; [x31]]; [[x62]; [x32]; [x63]; [x33]]])
    as Hw2 by (repeat constructor; discriminate).
  specialize (H1 Hw1). specialize (H2 Hw2).
  assert (forall l : Z, @None Z = Some l -> False) as Hnone by discriminate.
  split.
  - apply H1. intros l Hl. destruct (Hnone l Hl).
  - etransitivity; [apply H2 | symmetry; apply H1];
      intros l Hl; destruct (Hnone l Hl).
Defined.
